(** * morph: a shallow embedding of the morphological analyzer

    The development follows the two source files of the package:
    [morph.go] (the dictionary analyzer [Parse], the loader [Init] /
    [InitWith] and the paradigm decoder [prefixSuffixTag]) and
    [extended.go] (the fallback cascade [XParse] with its helpers).

    Go strings are byte sequences: they are modelled by [string], whose
    characters are the bytes of the UTF-8 encoding.  Slices are lists,
    [int] is [Z] or [nat] (no arithmetic of the package can overflow on
    inputs that fit in memory), a run-time panic is the [Panic] outcome
    of the [result] monad. *)

From Stdlib Require Import String Ascii List ZArith Lia Bool Arith QArith.
From Stdlib Require Import Permutation Sorted Strings.Byte DecimalString.
Import ListNotations.
Open Scope string_scope.

Set Implicit Arguments.

(** ** Outcomes of a call: a value, a run-time panic, or an exhausted
    recursion bound (the last one only appears in the fuelled iterates of
    [XParse]; [XParse_unfold] shows that it is never observed). *)

Inductive result (A : Type) : Type :=
| Ok (a : A)
| Panic (msg : string)
| OutOfFuel.

Arguments Ok {A} a.
Arguments Panic {A} msg.
Arguments OutOfFuel {A}.

Definition bind {A B : Type} (m : result A) (k : A -> result B) : result B :=
  match m with
  | Ok a => k a
  | Panic msg => Panic msg
  | OutOfFuel => OutOfFuel
  end.

Notation "x <- m ;; k" := (bind m (fun x => k))
  (at level 61, m at next level, right associativity).
Notation "' p <- m ;; k" := (bind m (fun x => let p := x in k))
  (at level 61, p pattern, m at next level, right associativity).

Definition index_out_of_range : string := "runtime error: index out of range".
Definition slice_out_of_range : string := "runtime error: slice bounds out of range".
Definition nil_dereference : string :=
  "runtime error: invalid memory address or nil pointer dereference".

(** [l[i]] on a slice. *)
Definition at_index {A : Type} (l : list A) (i : nat) : result A :=
  match nth_error l i with
  | Some a => Ok a
  | None => Panic index_out_of_range
  end.

(** [l[i] = x] for an index in range. *)
Fixpoint update {A : Type} (l : list A) (i : nat) (x : A) : list A :=
  match l, i with
  | [], _ => []
  | _ :: l', O => x :: l'
  | y :: l', S i' => y :: update l' i' x
  end.

(** [append(l, x)] *)
Definition push {A : Type} (l : list A) (x : A) : list A := (l ++ [x])%list.

(** [for _, x := range l { s = body x s }], stopping at the first panic. *)
Fixpoint for_range {A S : Type} (body : A -> S -> result S) (l : list A) (s : S)
  : result S :=
  match l with
  | [] => Ok s
  | x :: l' => s' <- body x s ;; for_range body l' s'
  end.

(** [for i, x := range l], as a loop over the indexed elements. *)
Definition enumerate {A : Type} (l : list A) : list (nat * A) :=
  combine (seq 0 (List.length l)) l.

(** ** Package [strings] of the Go library (the functions the package uses,
    after their Go definitions). *)

Module strings.

(** [s[:n]] and [s[n:]] for [n <= len(s)]. *)
Definition slice_to (n : nat) (s : string) : string := substring 0 n s.
Definition slice_from (n : nat) (s : string) : string :=
  substring n (String.length s - n) s.

(** [s[n:]] with its bounds check. *)
Definition from (n : nat) (s : string) : result string :=
  if (n <=? String.length s)%nat then Ok (slice_from n s)
  else Panic slice_out_of_range.

Definition HasPrefix (s prefix : string) : bool :=
  (String.length prefix <=? String.length s)%nat &&
  (slice_to (String.length prefix) s =? prefix).

Definition HasSuffix (s suffix : string) : bool :=
  (String.length suffix <=? String.length s)%nat &&
  (slice_from (String.length s - String.length suffix) s =? suffix).

Definition TrimPrefix (s prefix : string) : string :=
  if HasPrefix s prefix then slice_from (String.length prefix) s else s.

Definition TrimSuffix (s suffix : string) : string :=
  if HasSuffix s suffix
  then slice_to (String.length s - String.length suffix) s else s.

(** Position of the first occurrence, [-1] when there is none. *)
Fixpoint Index (s substr : string) : Z :=
  if HasPrefix s substr then 0%Z
  else match s with
       | "" => (-1)%Z
       | String _ s' =>
           let i := Index s' substr in
           if (i <? 0)%Z then (-1)%Z else (i + 1)%Z
       end.

Fixpoint IndexByte (s : string) (c : ascii) : Z :=
  match s with
  | "" => (-1)%Z
  | String b s' =>
      if Ascii.eqb b c then 0%Z
      else let i := IndexByte s' c in
           if (i <? 0)%Z then (-1)%Z else (i + 1)%Z
  end.

Definition Contains (s substr : string) : bool := (0 <=? Index s substr)%Z.

(** [Count] for a non-empty [substr]: the number of non-overlapping
    occurrences, found from left to right. *)
Fixpoint Count_loop (fuel : nat) (s substr : string) : Z :=
  match fuel with
  | O => 0%Z
  | S fuel' =>
      let i := Index s substr in
      if (i <? 0)%Z then 0%Z
      else (1 + Count_loop fuel'
                  (slice_from (Z.to_nat i + String.length substr) s) substr)%Z
  end.

Definition Count (s substr : string) : Z :=
  Count_loop (String.length s) s substr.

(** [SplitN] for a non-empty separator. *)
Fixpoint SplitN_loop (k : nat) (s sep : string) : list string :=
  match k with
  | O => [s]
  | S k' =>
      let m := Index s sep in
      if (m <? 0)%Z then [s]
      else slice_to (Z.to_nat m) s
             :: SplitN_loop k' (slice_from (Z.to_nat m + String.length sep) s) sep
  end.

Definition SplitN (s sep : string) (n : nat) : list string :=
  match n with
  | O => []
  | S _ => SplitN_loop (Nat.min n (String.length s + 1) - 1) s sep
  end.

(** [TrimRight] for a cutset of ASCII bytes. *)
Fixpoint TrimRight (s cutset : string) : string :=
  match s with
  | "" => ""
  | String c s' =>
      match TrimRight s' cutset with
      | "" => if (0 <=? IndexByte cutset c)%Z then "" else String c ""
      | t => String c t
      end
  end.

End strings.

(** ** Package [unicode/utf8] of the Go library. *)

Module utf8.

Definition RuneError : Z := 65533.
Definition UTFMax : nat := 4.

Definition byte_val (c : ascii) : Z := Z.of_N (N_of_ascii c).

Definition in_range (lo hi : Z) (c : ascii) : bool :=
  ((lo <=? byte_val c) && (byte_val c <=? hi))%Z.

Definition low6 (c : ascii) : Z := Z.land (byte_val c) 63.

(** First rune of [s] and its width in bytes; [(RuneError, 1)] on an
    ill-formed sequence, [(RuneError, 0)] on the empty string. *)
Definition DecodeRuneInString (s : string) : Z * nat :=
  match s with
  | "" => (RuneError, 0%nat)
  | String c0 s1 =>
      let b0 := byte_val c0 in
      if (b0 <? 128)%Z then (b0, 1%nat)
      else if ((194 <=? b0) && (b0 <=? 223))%Z then
        match s1 with
        | String c1 _ =>
            if in_range 128 191 c1
            then (Z.lor (Z.shiftl (Z.land b0 31) 6) (low6 c1), 2%nat)
            else (RuneError, 1%nat)
        | _ => (RuneError, 1%nat)
        end
      else if ((224 <=? b0) && (b0 <=? 239))%Z then
        let lo := if (b0 =? 224)%Z then 160%Z else 128%Z in
        let hi := if (b0 =? 237)%Z then 159%Z else 191%Z in
        match s1 with
        | String c1 (String c2 _) =>
            if in_range lo hi c1 && in_range 128 191 c2
            then (Z.lor (Z.shiftl (Z.land b0 15) 12)
                    (Z.lor (Z.shiftl (low6 c1) 6) (low6 c2)), 3%nat)
            else (RuneError, 1%nat)
        | _ => (RuneError, 1%nat)
        end
      else if ((240 <=? b0) && (b0 <=? 244))%Z then
        let lo := if (b0 =? 240)%Z then 144%Z else 128%Z in
        let hi := if (b0 =? 244)%Z then 143%Z else 191%Z in
        match s1 with
        | String c1 (String c2 (String c3 _)) =>
            if in_range lo hi c1 && in_range 128 191 c2 && in_range 128 191 c3
            then (Z.lor (Z.shiftl (Z.land b0 7) 18)
                    (Z.lor (Z.shiftl (low6 c1) 12)
                       (Z.lor (Z.shiftl (low6 c2) 6) (low6 c3))), 4%nat)
            else (RuneError, 1%nat)
        | _ => (RuneError, 1%nat)
        end
      else (RuneError, 1%nat)
  end.

(** [[]rune(s)]: the runes of [s], one [RuneError] per ill-formed byte. *)
Fixpoint runes_loop (fuel : nat) (s : string) : list Z :=
  match fuel with
  | O => []
  | S fuel' =>
      match s with
      | "" => []
      | _ => let '(r, size) := DecodeRuneInString s in
             r :: runes_loop fuel' (strings.slice_from size s)
      end
  end.

Definition runes (s : string) : list Z := runes_loop (String.length s) s.

Definition RuneCountInString (s : string) : nat := List.length (runes s).

Definition byte_chr (z : Z) : ascii := ascii_of_N (Z.to_N z).

(** The UTF-8 encoding of one rune ([string(r)]); runes that are not
    Unicode scalar values are encoded as [RuneError]. *)
Definition encode_rune (r : Z) : string :=
  let bad := String (byte_chr 239) (String (byte_chr 191) (String (byte_chr 189) "")) in
  if (r <? 0)%Z then bad
  else if (r <=? 127)%Z then String (byte_chr r) ""
  else if (r <=? 2047)%Z then
    String (byte_chr (Z.lor 192 (Z.shiftr r 6)))
      (String (byte_chr (Z.lor 128 (Z.land r 63))) "")
  else if ((55296 <=? r) && (r <=? 57343))%Z then bad
  else if (r <=? 65535)%Z then
    String (byte_chr (Z.lor 224 (Z.shiftr r 12)))
      (String (byte_chr (Z.lor 128 (Z.land (Z.shiftr r 6) 63)))
         (String (byte_chr (Z.lor 128 (Z.land r 63))) ""))
  else if (r <=? 1114111)%Z then
    String (byte_chr (Z.lor 240 (Z.shiftr r 18)))
      (String (byte_chr (Z.lor 128 (Z.land (Z.shiftr r 12) 63)))
         (String (byte_chr (Z.lor 128 (Z.land (Z.shiftr r 6) 63)))
            (String (byte_chr (Z.lor 128 (Z.land r 63))) "")))
  else bad.

(** [string(rr)] for a slice of runes. *)
Fixpoint string_of_runes (rr : list Z) : string :=
  match rr with
  | [] => ""
  | r :: rr' => encode_rune r ++ string_of_runes rr'
  end.

Definition RuneStart (c : ascii) : bool :=
  negb (Z.land (byte_val c) 192 =? 128)%Z.

(** The backwards scan of [DecodeLastRuneInString]: from [start], step
    down to [lim] until a byte that can start a rune is found. *)
Fixpoint scan_back (steps : nat) (s : string) (start lim : Z) : Z :=
  match steps with
  | O => start
  | S steps' =>
      if (start <? lim)%Z then start
      else match get (Z.to_nat start) s with
           | Some c => if RuneStart c then start
                       else scan_back steps' s (start - 1) lim
           | None => start
           end
  end.

Definition DecodeLastRuneInString (s : string) : Z * nat :=
  let end_ := Z.of_nat (String.length s) in
  if (end_ =? 0)%Z then (RuneError, 0%nat)
  else
    let start := (end_ - 1)%Z in
    match get (Z.to_nat start) s with
    | None => (RuneError, 0%nat)
    | Some c =>
        if (byte_val c <? 128)%Z then (byte_val c, 1%nat)
        else
          let lim := Z.max 0 (end_ - Z.of_nat UTFMax) in
          let start := scan_back UTFMax s (start - 1) lim in
          let start := Z.max 0 start in
          let '(r, size) :=
            DecodeRuneInString (strings.slice_from (Z.to_nat start) s) in
          if (start + Z.of_nat size =? end_)%Z then (r, size)
          else (RuneError, 1%nat)
    end.

End utf8.

(** ** Package [encoding/binary]: [binary.BigEndian.Uint16] and slicing of
    a byte slice. *)

Module binary.

Definition byte_val (b : byte) : Z := Z.of_N (Byte.to_N b).

(** [b[n:]]; panics when [n > len(b)]. *)
Definition bytes_from (n : nat) (b : list byte) : result (list byte) :=
  if (n <=? List.length b)%nat then Ok (skipn n b)
  else Panic slice_out_of_range.

Definition BigEndian_Uint16 (b : list byte) : result Z :=
  b1 <- at_index b 1 ;;
  b0 <- at_index b 0 ;;
  Ok (Z.lor (byte_val b1) (Z.shiftl (byte_val b0) 8)).

Definition LittleEndian_Uint16 (b0 b1 : byte) : Z :=
  Z.lor (byte_val b0) (Z.shiftl (byte_val b1) 8).

End binary.

(** ** Package [sort].

    [sort.Interface] is the record of the three methods.  A method may
    panic (an index out of range), so [Less] and [Swap] return a
    [result].  [Stable] sorts through [Less] and [Swap] only; Go sorts
    blocks by [insertionSort] and merges them with rotations built from
    [Swap].  The outcome of a stable sort is determined by [Less], so
    [Stable] is modelled by [insertionSort] over the whole range.
    [Slice] sorts a slice in place with a [less] on elements. *)

Module gosort.

Record Interface (T : Type) : Type := {
  Len : T -> nat;
  Less : T -> nat -> nat -> result bool;
  Swap : T -> nat -> nat -> result T
}.

Section Algorithms.
Context {T : Type} (data : Interface T).

(** [for j := i; j > a && data.Less(j, j-1); j-- { data.Swap(j, j-1) }]
    with [a = 0]. *)
Fixpoint sift (j : nat) (p : T) : result T :=
  match j with
  | O => Ok p
  | S j' =>
      b <- Less data p j j' ;;
      if b then p' <- Swap data p j j' ;; sift j' p' else Ok p
  end.

(** [for i := a + 1; i < b; i++ { ... }] with [a = 0], as the loop over
    the indices [i]. *)
Definition insertionSort (b : nat) (p : T) : result T :=
  for_range sift (seq 1 (b - 1)) p.

Definition Stable (p : T) : result T := insertionSort (Len data p) p.
End Algorithms.

Section SliceSort.
Context {A : Type} (less : A -> A -> bool).

Fixpoint insert (x : A) (l : list A) : list A :=
  match l with
  | [] => [x]
  | y :: l' => if less y x then y :: insert x l' else x :: l
  end.

Fixpoint Slice (l : list A) : list A :=
  match l with
  | [] => []
  | x :: l' => insert x (Slice l')
  end.
End SliceSort.

End gosort.

(** ** extended.go: tables *)

Definition particlesAfterHyphen : list string :=
  ["-то"; "-ка"; "-таки"; "-де"; "-тко"; "-тка"; "-с"; "-ста"].

(** The table as it is written in the source. *)
Definition knownPrefixes_literal : list string :=
  ["авиа"; "авто"; "аква"; "анти-"; "анти";
   "антропо"; "арт-"; "арт"; "архи"; "астро";
   "аудио"; "аэро"; "без"; "бес"; "био"; "вело";
   "взаимо"; "видео"; "вице-"; "вне"; "внутри";
   "вперед"; "впереди"; "гекто"; "гелио"; "гео";
   "гетеро"; "гига"; "гигро"; "гипер"; "гипо";
   "гомо"; "дву"; "двух"; "де"; "дез"; "дека";
   "деци"; "дис"; "до"; "евро"; "за"; "зоо"; "интер";
   "инфра"; "квази-"; "квази"; "кило"; "кино";
   "контр-"; "контр"; "космо-"; "космо"; "крипто";
   "лейб-"; "лже-"; "лже"; "макро"; "макси-";
   "макси"; "мало"; "мега"; "медиа-"; "медиа";
   "меж"; "мета-"; "мета"; "метео"; "метро";
   "микро"; "милли"; "мини-"; "мини"; "много";
   "моно"; "мото"; "мульти"; "нано"; "нарко";
   "не"; "небез"; "недо"; "нейро"; "нео"; "низко";
   "обер-"; "обще"; "одно"; "около"; "орто";
   "палео"; "пан"; "пара"; "пента"; "пере"; "пиро";
   "поли"; "полу"; "порно"; "после"; "пост-";
   "пост"; "пра-"; "пра"; "пред"; "пресс-";
   "противо-"; "противо"; "прото"; "псевдо-";
   "псевдо"; "радио"; "разно"; "ре"; "ретро-";
   "ретро"; "само"; "санти"; "сверх-"; "сверх";
   "спец"; "суб"; "супер-"; "супер"; "супра";
   "теле"; "тетра"; "топ-"; "транс-"; "транс";
   "ультра"; "унтер-"; "штаб-"; "экзо"; "эко";
   "эконом-"; "экс-"; "экс"; "экстра-"; "экстра";
   "электро"; "эндо"; "энерго"; "этно"].

Definition nonproductiveGrammemes : list string :=
  ["NUMR"; "NPRO"; "PRED"; "PREP"; "CONJ"; "PRCL"; "INTJ"; "Apro"].

(** The comparison of [init]: longer prefixes first, then in byte order. *)
Definition knownPrefixes_less (a b : string) : bool :=
  let d := (Z.of_nat (String.length a) - Z.of_nat (String.length b))%Z in
  if negb (d =? 0)%Z then (0 <? d)%Z else String.ltb a b.

(** [knownPrefixes] after [init] has run: the table sorted by
    [knownPrefixes_less]. *)
Definition knownPrefixes : list string :=
  Eval vm_compute in gosort.Slice knownPrefixes_less knownPrefixes_literal.

(** ** extended.go: helpers *)

Definition productive (tag : string) : bool :=
  forallb (fun g => negb (strings.Contains tag g)) nonproductiveGrammemes.

Definition min (a b : Z) : Z := if (a <? b)%Z then a else b.

Definition wordSplits (s : string) (minRemainder maxPrefixLen : Z)
  : list (list string) :=
  let rr := utf8.runes s in
  let n := min maxPrefixLen (Z.of_nat (List.length rr) - minRemainder) in
  if (n <=? 0)%Z then []
  else map (fun i => [utf8.string_of_runes (firstn i rr);
                      utf8.string_of_runes (skipn i rr)])
           (seq 1 (Z.to_nat n)).

(** The loop of [split5]; [n] never exceeds [len(s)] and the width of the
    last rune of [s[:n]] never exceeds [n]. *)
Fixpoint split5_loop (iterations : nat) (s : string) (n : nat)
  (splits : list (string * string)) : list (string * string) :=
  match iterations with
  | O => splits
  | S iterations' =>
      let '(_, size) := utf8.DecodeLastRuneInString (strings.slice_to n s) in
      let n := (n - size)%nat in
      if (n =? 0)%nat then splits
      else split5_loop iterations' s n
             (push splits (strings.slice_to n s, strings.slice_from n s))
  end.

Definition split5 (s : string) : list (string * string) :=
  split5_loop 5 s (String.length s) [].

Definition partsOfSpeech : list string :=
  ["NOUN"; "ADJF"; "ADJS"; "COMP"; "VERB"; "INFN"; "PRTF"; "PRTS"; "GRND";
   "NUMR"; "ADVB"; "NPRO"; "PRED"; "PREP"; "CONJ"; "PRCL"; "INTJ"].
Definition numbers : list string := ["sing"; "plur"].
Definition cases : list string :=
  ["nomn"; "gent"; "datv"; "accs"; "ablt"; "loct"; "voct"; "gen2"; "acc2";
   "loc2"].
Definition persons : list string := ["1per"; "2per"; "3per"].
Definition tenses : list string := ["pres"; "past"; "futr"].

(** The [case] lists of the [switch] that fall through to [return s]. *)
Definition features : list string :=
  (partsOfSpeech ++ numbers ++ cases ++ persons ++ tenses)%list.

Definition emptyUnlessFeature (s : string) : string :=
  if s =? "loc1" then "loct"
  else if s =? "gen1" then "gent"
  else if existsb (String.eqb s) features then s
  else "".

(** [rFeature.ReplaceAllStringFunc(tag, f)] for [rFeature = [^ ,]+]: every
    maximal run of bytes other than space and comma is replaced by its
    image.  ([token] is the run read so far.) *)
Definition is_separator (c : ascii) : bool :=
  Ascii.eqb c " " || Ascii.eqb c ",".

Definition flush (f : string -> string) (token : string) : string :=
  match token with "" => "" | _ => f token end.

Fixpoint ReplaceAllStringFunc (f : string -> string) (s token : string) : string :=
  match s with
  | "" => flush f token
  | String c s' =>
      if is_separator c
      then flush f token ++ String c (ReplaceAllStringFunc f s' "")
      else ReplaceAllStringFunc f s' (token ++ String c "")
  end.

Definition similarityFeatures (tag : string) : string :=
  ReplaceAllStringFunc emptyUnlessFeature tag "".

(** ** morph.go: the process-wide state *)

Record item : Type := { key : string; values : list (list byte) }.

(** Modelled from the spec: the automaton type [dawg] and its two lookups
    are declared in a file that is not among the sources.  A loaded,
    immutable automaton is represented by what the analyzers observe of
    it: the exact lookup of its [Dict] ("exactValue(key) -> integer,
    0/absent if no match") and the approximate lookup [similarItems]
    ("approximateMatches(query) -> ordered list of (matchedKey,
    payloads)"), whose result order is the traversal order. *)
Record dictionary : Type := { stored : string -> option Z }.

Definition find (d : dictionary) (k : string) : Z :=
  match stored d k with
  | Some v => v
  | None => 0%Z
  end.

Record dawg : Type := {
  Dict : dictionary;
  similarItems : string -> list item
}.

(** The package variables.  A nil [*dawg] is [None]; a nil slice is [[]]. *)
Record globals : Type := {
  prefixes : list string;
  suffixes : list string;
  tags : list string;
  paradigms : list (list Z);
  wordsDAWG : option dawg;
  probDAWG : option dawg;
  predictionDAWGs : list (option dawg)
}.

Definition zero_globals : globals :=
  {| prefixes := []; suffixes := []; tags := []; paradigms := [];
     wordsDAWG := None; probDAWG := None; predictionDAWGs := [] |}.

Definition set_prefixes (v : list string) (g : globals) : globals :=
  {| prefixes := v; suffixes := suffixes g; tags := tags g;
     paradigms := paradigms g; wordsDAWG := wordsDAWG g;
     probDAWG := probDAWG g; predictionDAWGs := predictionDAWGs g |}.
Definition set_suffixes (v : list string) (g : globals) : globals :=
  {| prefixes := prefixes g; suffixes := v; tags := tags g;
     paradigms := paradigms g; wordsDAWG := wordsDAWG g;
     probDAWG := probDAWG g; predictionDAWGs := predictionDAWGs g |}.
Definition set_tags (v : list string) (g : globals) : globals :=
  {| prefixes := prefixes g; suffixes := suffixes g; tags := v;
     paradigms := paradigms g; wordsDAWG := wordsDAWG g;
     probDAWG := probDAWG g; predictionDAWGs := predictionDAWGs g |}.
Definition set_paradigms (v : list (list Z)) (g : globals) : globals :=
  {| prefixes := prefixes g; suffixes := suffixes g; tags := tags g;
     paradigms := v; wordsDAWG := wordsDAWG g;
     probDAWG := probDAWG g; predictionDAWGs := predictionDAWGs g |}.
Definition set_wordsDAWG (v : option dawg) (g : globals) : globals :=
  {| prefixes := prefixes g; suffixes := suffixes g; tags := tags g;
     paradigms := paradigms g; wordsDAWG := v;
     probDAWG := probDAWG g; predictionDAWGs := predictionDAWGs g |}.
Definition set_probDAWG (v : option dawg) (g : globals) : globals :=
  {| prefixes := prefixes g; suffixes := suffixes g; tags := tags g;
     paradigms := paradigms g; wordsDAWG := wordsDAWG g;
     probDAWG := v; predictionDAWGs := predictionDAWGs g |}.
Definition set_predictionDAWGs (v : list (option dawg)) (g : globals) : globals :=
  {| prefixes := prefixes g; suffixes := suffixes g; tags := tags g;
     paradigms := paradigms g; wordsDAWG := wordsDAWG g;
     probDAWG := probDAWG g; predictionDAWGs := v |}.

(** [l[i]] for an [int] index. *)
Definition at_int {A : Type} (l : list A) (i : Z) : result A :=
  if (i <? 0)%Z then Panic index_out_of_range else at_index l (Z.to_nat i).

(** A method call through a [*dawg]. *)
Definition deref (d : option dawg) : result dawg :=
  match d with
  | Some d => Ok d
  | None => Panic nil_dereference
  end.

(** ** morph.go: [type parse] and its [sort.Interface] methods *)

Module parse.

Record t : Type := {
  words : list string;
  norms : list string;
  tags : list string;
  probs : list Q
}.

Definition Len (p : t) : nat := List.length (words p).

Definition Qgt_bool (a b : Q) : bool := negb (Qle_bool a b).

Definition Less (p : t) (i j : nat) : result bool :=
  a <- at_index (probs p) i ;;
  b <- at_index (probs p) j ;;
  Ok (Qgt_bool a b).

(** [l[i], l[j] = l[j], l[i]] *)
Definition swap {A : Type} (l : list A) (i j : nat) : result (list A) :=
  a <- at_index l i ;;
  b <- at_index l j ;;
  Ok (update (update l i b) j a).

Definition Swap (p : t) (i j : nat) : result t :=
  ws <- swap (words p) i j ;;
  ns <- swap (norms p) i j ;;
  ts <- swap (tags p) i j ;;
  ps <- swap (probs p) i j ;;
  Ok {| words := ws; norms := ns; tags := ts; probs := ps |}.

Definition Interface : gosort.Interface t :=
  {| gosort.Len := Len; gosort.Less := Less; gosort.Swap := Swap |}.

End parse.

(** The three slices an analyzer returns: [(words, norms, tags)]. *)
Definition analyses : Type := (list string * list string * list string)%type.

(** ** morph.go: [prefixSuffixTag] and [Parse] *)

Section Analyzer.

Variable st : globals.

Definition prefixSuffixTag (para : list Z) (i : Z)
  : result (string * string * string) :=
  let n := (Z.of_nat (List.length para) / 3)%Z in
  suffixIndex <- at_int para i ;;
  tagIndex <- at_int para (i + n) ;;
  prefixIndex <- at_int para (i + 2 * n) ;;
  p <- at_int (prefixes st) prefixIndex ;;
  s <- at_int (suffixes st) suffixIndex ;;
  t <- at_int (tags st) tagIndex ;;
  Ok (p, s, t).

(** The block shared by [Parse] and the suffix-prediction strategy of
    [XParse]:
    [norm := key; if index != 0 { stem := TrimPrefix(norm, prefix);
     stem = TrimSuffix(stem, suffix); pr, su, _ := prefixSuffixTag(para, 0);
     norm = pr + stem + su }]. *)
Definition normalForm (para : list Z) (index : Z) (prefix suffix key : string)
  : result string :=
  let norm := key in
  if negb (index =? 0)%Z then
    let stem := strings.TrimPrefix norm prefix in
    let stem := strings.TrimSuffix stem suffix in
    '(pr, su, _) <- prefixSuffixTag para 0 ;;
    Ok (pr ++ stem ++ su)
  else Ok norm.

(** [float64(probDAWG.Dict.find(word+":"+tag)) / 1e6].  The weight is
    kept as an exact rational: on the values an automaton stores (below
    [2^31]) the conversion is exact and the division is strictly
    monotone, so every comparison of two weights, and of a weight with 0,
    is the comparison of the rationals. *)
Definition weight (pd : dawg) (word tag : string) : Q :=
  (inject_Z (find (Dict pd) (word ++ ":" ++ tag)) / 1000000)%Q.

(** The body of the inner loop of [Parse], for one payload [v] of the item
    with key [k].  The state is the four slices and [hasNonzeroProb]. *)
Definition Parse_payload (pd : dawg) (word k : string) (v : list byte)
  (acc : parse.t * bool) : result (parse.t * bool) :=
  let '(p, hasNonzeroProb) := acc in
  paraNum <- binary.BigEndian_Uint16 v ;;
  para <- at_int (paradigms st) paraNum ;;
  v2 <- binary.bytes_from 2 v ;;
  index <- binary.BigEndian_Uint16 v2 ;;
  '(prefix, suffix, tag) <- prefixSuffixTag para index ;;
  norm <- normalForm para index prefix suffix k ;;
  let prob := weight pd word tag in
  Ok ({| parse.words := push (parse.words p) (k);
         parse.norms := push (parse.norms p) (norm);
         parse.tags := push (parse.tags p) (tag);
         parse.probs := push (parse.probs p) (prob) |},
      if parse.Qgt_bool prob 0 then true else hasNonzeroProb).

Definition Parse_item (pd : dawg) (word : string) (it : item)
  (acc : parse.t * bool) : result (parse.t * bool) :=
  for_range (Parse_payload pd word (key it)) (values it) acc.

Definition empty_parse : parse.t :=
  {| parse.words := []; parse.norms := []; parse.tags := []; parse.probs := [] |}.

(** The two nested loops of [Parse]: the candidate set in traversal order
    with its weights, and [hasNonzeroProb]. *)
Definition Parse_collect (pd wd : dawg) (word : string)
  : result (parse.t * bool) :=
  for_range (Parse_item pd word) (similarItems wd word) (empty_parse, false).

Definition Parse (word : string) : result analyses :=
  match probDAWG st with
  | None => Panic "not initialized; call Init or InitWith"
  | Some pd =>
      wd <- deref (wordsDAWG st) ;;
      '(p, hasNonzeroProb) <- Parse_collect pd wd word ;;
      p <- (if hasNonzeroProb : bool
            then gosort.Stable parse.Interface p else Ok p) ;;
      Ok (parse.words p, parse.norms p, parse.tags p)
  end.

End Analyzer.

(** ** extended.go: [XParse]

    [strings.ToLower] maps every rune through the Unicode tables of the
    Go library; it is a parameter of the development.  Each strategy of
    the cascade is a definition of its own, named after the analyzer the
    source comment gives; a strategy that can return from [XParse] yields
    [Some] result. *)

Section Extended.

Variable ToLower : string -> string.
Variable st : globals.

(** What [XParse] calls itself on. *)
Variable self : string -> result analyses.

(** [for i := range words { words[i] += suffix; norms[i] += suffix }] *)
Definition reattach_at (suffix : string) (i : nat)
  (acc : list string * list string) : result (list string * list string) :=
  let '(words, norms) := acc in
  w <- at_index words i ;;
  let words := update words i (w ++ suffix) in
  n <- at_index norms i ;;
  let norms := update norms i (n ++ suffix) in
  Ok (words, norms).

Definition reattach (suffix : string) (words norms : list string)
  : result (list string * list string) :=
  for_range (reattach_at suffix) (seq 0 (List.length words)) (words, norms).

Fixpoint HyphenSeparatedParticleAnalyzer (word : string)
  (particles : list string) : result (option analyses) :=
  match particles with
  | [] => Ok None
  | suffix :: particles' =>
      if negb (strings.HasSuffix word suffix)
      then HyphenSeparatedParticleAnalyzer word particles'
      else
        let unsuffixed := strings.TrimSuffix word suffix in
        '(words, norms, tags) <- self unsuffixed ;;
        if (0 <? List.length words)%nat then
          '(words, norms) <- reattach suffix words norms ;;
          Ok (Some (words, norms, tags))
        else HyphenSeparatedParticleAnalyzer word particles'
  end.

(** [for i, tag := range tags { ... return ... }] of the adverb rule. *)
Fixpoint firstDativeAdjective (words : list string)
  (indexed : list (nat * string)) : result (option analyses) :=
  match indexed with
  | [] => Ok None
  | (i, tag) :: indexed' =>
      if negb (strings.HasPrefix tag "ADJF")
         || negb (strings.Contains tag "sing,datv")
      then firstDativeAdjective words indexed'
      else
        wi <- at_index words i ;;
        let w := "по-" ++ wi in
        Ok (Some ([w], [w], ["ADVB"]))
  end.

Definition HyphenAdverbAnalyzer (word : string) (nRunes : nat)
  : result (option analyses) :=
  if (5 <=? nRunes)%nat && strings.HasPrefix word "по-" then
    rest <- strings.from 5 word ;;
    '(words, _, tags) <- self rest ;;
    firstDativeAdjective words (enumerate tags)
  else Ok None.

(** The loop shared by the known-prefix and the unknown-prefix strategy:
    [for i, tag := range ts { if !productive(tag) { continue }; ... }]. *)
Definition keepProductive (prefix : string) (ws ns ts : list string)
  (acc : analyses) : result analyses :=
  for_range
    (fun '(i, tag) '(words, norms, tags) =>
       if negb (productive tag) then Ok (words, norms, tags)
       else
         w <- at_index ws i ;;
         n <- at_index ns i ;;
         t <- at_index ts i ;;
         Ok (push words (prefix ++ w), push norms (prefix ++ n),
             push tags (t)))
    (enumerate ts) acc.

Definition KnownPrefixAnalyzer_step (word prefix : string) (acc : analyses)
  : result analyses :=
  if negb (strings.HasPrefix word prefix) then Ok acc
  else
    let unprefixed := strings.TrimPrefix word prefix in
    if (utf8.RuneCountInString unprefixed <? 3)%nat then Ok acc
    else
      '(ws, ns, ts) <- self unprefixed ;;
      keepProductive prefix ws ns ts acc.

Definition KnownPrefixAnalyzer (word : string) (acc : analyses)
  : result analyses :=
  for_range (KnownPrefixAnalyzer_step word) knownPrefixes acc.

(** The body of the inner loop of the compound strategy, for the left
    candidate [i] and the right candidate [j]:
    [if leftFeat != rightFeatures[j] { continue }; words = append(...)]. *)
Definition agreement (lwords lnorms rwords rnorms rightFeatures : list string)
  (i : nat) (tag leftFeat : string) (j : nat) (acc : analyses)
  : result analyses :=
  let '(words, norms, tags) := acc in
  rf <- at_index rightFeatures j ;;
  if negb (leftFeat =? rf) then Ok acc
  else
    lw <- at_index lwords i ;;
    rw <- at_index rwords j ;;
    ln <- at_index lnorms i ;;
    rn <- at_index rnorms j ;;
    Ok (push words (lw ++ "-" ++ rw), push norms (ln ++ "-" ++ rn),
        push tags tag).

(** [for i, tag := range rtags { words = append(words, left+"-"+rwords[i]); ... }] *)
Definition fixedLeft (left : string) (rwords rnorms : list string)
  (it : nat * string) (acc : analyses) : result analyses :=
  let '(i, tag) := it in
  let '(words, norms, tags) := acc in
  rw <- at_index rwords i ;;
  rn <- at_index rnorms i ;;
  Ok (push words (left ++ "-" ++ rw), push norms (left ++ "-" ++ rn),
      push tags tag).

Definition HyphenatedWordsAnalyzer (word : string) (acc : analyses)
  : result analyses :=
  let parts := strings.SplitN word "-" 2 in
  left <- at_index parts 0 ;;
  right <- at_index parts 1 ;;
  '(lwords, lnorms, ltags) <- self left ;;
  '(rwords, rnorms, rtags) <- self right ;;
  let rightFeatures := map similarityFeatures rtags in
  acc <- for_range
           (fun '(i, tag) acc =>
              let leftFeat := similarityFeatures tag in
              for_range
                (agreement lwords lnorms rwords rnorms rightFeatures
                   i tag leftFeat)
                (seq 0 (List.length rtags)) acc)
           (enumerate ltags) acc ;;
  for_range (fixedLeft left rwords rnorms) (enumerate rtags) acc.

Definition UnknownPrefixAnalyzer (word : string) (acc : analyses)
  : result analyses :=
  for_range
    (fun split acc =>
       prefix <- at_index split 0 ;;
       unprefixed <- at_index split 1 ;;
       '(ws, ns, ts) <- Parse st unprefixed ;;
       keepProductive prefix ws ns ts acc)
    (wordSplits word 3 5) acc.

(** [for i, t := range tags { if t == tag && words[i] == word &&
    norms[i] == norm { continue sloop } }]: is the triple already there? *)
Fixpoint collected (tag word norm : string) (words norms : list string)
  (indexed : list (nat * string)) : result bool :=
  match indexed with
  | [] => Ok false
  | (i, t) :: indexed' =>
      if t =? tag then
        w <- at_index words i ;;
        if w =? word then
          n <- at_index norms i ;;
          if n =? norm then Ok true
          else collected tag word norm words norms indexed'
        else collected tag word norm words norms indexed'
      else collected tag word norm words norms indexed'
  end.

(** [for _, v := range it.values { ... }] of the suffix prediction; the
    state is the three slices and [totalCount].  [continue sloop] leaves
    the loop over the values of the item. *)
Fixpoint predict_values (wordStart k : string) (vs : list (list byte))
  (acc : analyses * Z) : result (analyses * Z) :=
  match vs with
  | [] => Ok acc
  | v :: vs' =>
      let '((words, norms, tags), totalCount) := acc in
      count <- binary.BigEndian_Uint16 v ;;
      v2 <- binary.bytes_from 2 v ;;
      paraNum <- binary.BigEndian_Uint16 v2 ;;
      para <- at_int (paradigms st) paraNum ;;
      v4 <- binary.bytes_from 4 v ;;
      index <- binary.BigEndian_Uint16 v4 ;;
      '(prefix, suffix, tag) <- prefixSuffixTag st para index ;;
      if negb (productive tag) then predict_values wordStart k vs' acc
      else
        let totalCount := (totalCount + count)%Z in
        let word := wordStart ++ k in
        norm <- normalForm st para index prefix suffix word ;;
        dup <- collected tag word norm words norms (enumerate tags) ;;
        if dup : bool then Ok ((words, norms, tags), totalCount)
        else predict_values wordStart k vs'
               ((push words (word), push norms (norm),
                 push tags (tag)), totalCount)
  end.

(** [for i := len(splits) - 1; i >= 0; i-- { ...; if totalCount > 1 { break } }],
    over the splits in the order the loop visits them. *)
Fixpoint predict_splits (d : option dawg) (visited : list (string * string))
  (acc : analyses) (totalCount : Z) : result analyses :=
  match visited with
  | [] => Ok acc
  | (wordStart, wordEnd) :: visited' =>
      dw <- deref d ;;
      '(acc, totalCount) <-
        for_range (fun it => predict_values wordStart (key it) (values it))
          (similarItems dw wordEnd) (acc, totalCount) ;;
      if (1 <? totalCount)%Z then Ok acc
      else predict_splits d visited' acc totalCount
  end.

Definition KnownSuffixAnalyzer (word : string) (acc : analyses)
  : result analyses :=
  let splits := split5 word in
  for_range
    (fun '(id, prefix) acc =>
       if negb (strings.HasPrefix word prefix) then Ok acc
       else
         d <- at_index (predictionDAWGs st) id ;;
         predict_splits d (rev splits) acc 0)
    (enumerate (prefixes st)) acc.

Definition XParse_body (word : string) : result analyses :=
  let word := ToLower word in
  '(words, norms, tags) <- Parse st word ;;
  if (0 <? List.length words)%nat then Ok (words, norms, tags)
  else
    let containsHyphen := negb (strings.IndexByte word "-" =? -1)%Z in
    r <- (if containsHyphen
          then HyphenSeparatedParticleAnalyzer word particlesAfterHyphen
          else Ok None) ;;
    match r with
    | Some res => Ok res
    | None =>
        let nRunes := utf8.RuneCountInString word in
        r <- HyphenAdverbAnalyzer word nRunes ;;
        match r with
        | Some res => Ok res
        | None =>
            '(words, norms, tags) <-
              KnownPrefixAnalyzer word (words, norms, tags) ;;
            if (0 <? List.length words)%nat then Ok (words, norms, tags)
            else
              let compound :=
                containsHyphen && (strings.Count word "-" =? 1)%Z
                && negb (strings.HasPrefix word "-")
                && negb (strings.HasSuffix word "-") in
              '(words, norms, tags) <-
                (if compound
                 then HyphenatedWordsAnalyzer word (words, norms, tags)
                 else Ok (words, norms, tags)) ;;
              if compound && (0 <? List.length words)%nat
              then Ok (words, norms, tags)
              else
                acc <- UnknownPrefixAnalyzer word (words, norms, tags) ;;
                if (4 <=? nRunes)%nat then KnownSuffixAnalyzer word acc
                else Ok acc
        end
    end.

End Extended.

Section Recursion.

Variable ToLower : string -> string.
Variable st : globals.

(** [XParse] calls itself on strictly shorter words only, so it is the
    iterate of its body taken as many times as the lowercased word has
    bytes (plus one); [XParse_unfold] is its defining equation. *)
Fixpoint XParse_fuel (fuel : nat) (word : string) : result analyses :=
  match fuel with
  | O => OutOfFuel
  | S fuel' => XParse_body ToLower st (XParse_fuel fuel') word
  end.

Definition XParse (word : string) : result analyses :=
  XParse_fuel (S (String.length (ToLower word))) word.

End Recursion.

(** ** morph.go: loading the dictionaries

    The operating system, the JSON decoder and the interpreter that
    [dataPath] runs are outside the package: an [environment] gives the
    outcome of each of their calls.  A Go [error] value is [Some e], the
    nil error is [None]. *)

Record os_error : Type := { notExist : bool; message : string }.

Inductive error : Type :=
| ErrAlreadyInitialized
| Foreign (e : os_error).

Definition os_IsNotExist (e : error) : bool :=
  match e with
  | Foreign e => notExist e
  | ErrAlreadyInitialized => false
  end.

(** Modelled from the spec: [newDAWG] is declared with the automaton type,
    outside the sources; it reads one automaton file and gives either an
    error (and no automaton) or a loaded automaton. *)
Record environment : Type := {
  os_Open : string -> os_error + list byte;
  json_Decode : list byte -> os_error + list string;
  newDAWG : string -> os_error + dawg;
  python_Run : os_error + string;
  filepath_Join : string -> string -> string
}.

Definition io_EOF : os_error := {| notExist := false; message := "EOF" |}.
Definition io_ErrUnexpectedEOF : os_error :=
  {| notExist := false; message := "unexpected EOF" |}.

(** [io.ReadFull] on what is left of a file. *)
Definition ReadFull (n : nat) (r : list byte)
  : os_error + (list byte * list byte) :=
  if (n <=? List.length r)%nat then inr (firstn n r, skipn n r)
  else if (List.length r =? 0)%nat then inl io_EOF
  else inl io_ErrUnexpectedEOF.

Fixpoint uint16s (b : list byte) : list Z :=
  match b with
  | b0 :: b1 :: b' => binary.LittleEndian_Uint16 b0 b1 :: uint16s b'
  | _ => []
  end.

(** [binary.Read(f, binary.LittleEndian, &x)] for [x] a [uint16] and for
    [x] a slice of [n] [uint16]. *)
Definition Read_uint16 (r : list byte) : os_error + (Z * list byte) :=
  match ReadFull 2 r with
  | inl e => inl e
  | inr (b, r') => inr (hd 0%Z (uint16s b), r')
  end.

Definition Read_uint16s (n : nat) (r : list byte)
  : os_error + (list Z * list byte) :=
  match ReadFull (2 * n) r with
  | inl e => inl e
  | inr (b, r') => inr (uint16s b, r')
  end.

Section Loading.

Variable env : environment.

Definition loadStringArray (fn : string) : list string * option error :=
  match os_Open env fn with
  | inl e => ([], Some (Foreign e))
  | inr f =>
      match json_Decode env f with
      | inl e => ([], Some (Foreign e))
      | inr ss => (ss, None)
      end
  end.

(** [for i := 0; i < int(paraCount); i++ { ... }], [count] iterations
    left; every iteration appends to the package variable. *)
Fixpoint loadParadigms_loop (count : nat) (r : list byte) (g : globals)
  : globals * option error :=
  match count with
  | O => (g, None)
  | S count' =>
      match Read_uint16 r with
      | inl e => (g, Some (Foreign e))
      | inr (paraLen, r) =>
          match Read_uint16s (Z.to_nat paraLen) r with
          | inl e => (g, Some (Foreign e))
          | inr (para, r) =>
              loadParadigms_loop count' r
                (set_paradigms (push (paradigms g) para) g)
          end
      end
  end.

Definition loadParadigms (fn : string) (g : globals) : globals * option error :=
  match os_Open env fn with
  | inl e => (g, Some (Foreign e))
  | inr f =>
      match Read_uint16 f with
      | inl e => (g, Some (Foreign e))
      | inr (paraCount, r) =>
          loadParadigms_loop (Z.to_nat paraCount) r (set_paradigms [] g)
      end
  end.

(** [fmt.Sprintf("prediction-suffixes-%d.dawg", i)] *)
Definition predictionName (i : nat) : string :=
  "prediction-suffixes-" ++ NilEmpty.string_of_uint (Nat.to_uint i) ++ ".dawg".

(** [for i := 0; i < len(prefixes); i++ { ... }], over the indices. *)
Fixpoint loadPredictions (dir : string) (indices : list nat) (g : globals)
  : globals * option error :=
  match indices with
  | [] => (g, None)
  | i :: indices' =>
      let path := filepath_Join env dir (predictionName i) in
      match newDAWG env path with
      | inl e => (g, Some (Foreign e))
      | inr d =>
          loadPredictions dir indices'
            (set_predictionDAWGs (push (predictionDAWGs g) (Some d)) g)
      end
  end.

Definition defaultPrefixes : list string := [""; "по"; "наи"].

Definition InitWith (dir : string) (g : globals) : globals * option error :=
  match probDAWG g with
  | Some _ => (g, Some ErrAlreadyInitialized)
  | None =>
    let prefixesPath := filepath_Join env dir "paradigm-prefixes.json" in
    let suffixesPath := filepath_Join env dir "suffixes.json" in
    let tagsPath := filepath_Join env dir "gramtab-opencorpora-int.json" in
    let paradigmsPath := filepath_Join env dir "paradigms.array" in
    let dawgPath := filepath_Join env dir "words.dawg" in
    let probPath := filepath_Join env dir "p_t_given_w.intdawg" in
    let '(v, err) := loadStringArray tagsPath in
    let g := set_tags v g in
    match err with Some e => (g, Some e) | None =>
    let '(v, err) := loadStringArray prefixesPath in
    let g := set_prefixes v g in
    match (match err with
           | Some e => if negb (os_IsNotExist e) then inl e
                       else inr (set_prefixes defaultPrefixes g)
           | None => inr g
           end) with
    | inl e => (g, Some e)
    | inr g =>
    let '(v, err) := loadStringArray suffixesPath in
    let g := set_suffixes v g in
    match err with Some e => (g, Some e) | None =>
    let '(g, err) := loadParadigms paradigmsPath g in
    match err with Some e => (g, Some e) | None =>
    match newDAWG env dawgPath with
    | inl e => (set_wordsDAWG None g, Some (Foreign e))
    | inr d =>
    let g := set_wordsDAWG (Some d) g in
    match newDAWG env probPath with
    | inl e => (set_probDAWG None g, Some (Foreign e))
    | inr d =>
    let g := set_probDAWG (Some d) g in
    let g := set_predictionDAWGs [] g in
    loadPredictions dir (seq 0 (List.length (prefixes g))) g
    end end end end end end
  end.

Definition dataPath : string * option error :=
  match python_Run env with
  | inl e => ("", Some (Foreign e))
  | inr out =>
      let dir := strings.TrimRight out (String "013" (String "010" "")) in
      (filepath_Join env dir "data", None)
  end.

Definition Init (g : globals) : globals * option error :=
  match probDAWG g with
  | Some _ => (g, Some ErrAlreadyInitialized)
  | None =>
      let '(dir, err) := dataPath in
      match err with
      | Some e => (g, Some e)
      | None => InitWith dir g
      end
  end.

End Loading.

(** ** A small dictionary

    A loaded state with a handful of entries, in the format of the
    compiled dictionaries; the examples below run the analyzers on it. *)

Module Demo.

(** A lowercasing that agrees with [strings.ToLower] on text whose only
    cased letters are ASCII. *)
Definition lower_byte (c : ascii) : ascii :=
  let n := nat_of_ascii c in
  if ((65 <=? n) && (n <=? 90))%nat then ascii_of_nat (n + 32) else c.

Fixpoint ToLower (s : string) : string :=
  match s with
  | "" => ""
  | String c s' => String (lower_byte c) (ToLower s')
  end.

Definition byte_of_nat (n : nat) : byte :=
  match Byte.of_N (N.of_nat (n mod 256)) with
  | Some b => b
  | None => Byte.x00
  end.

Definition u16 (n : nat) : list byte :=
  [byte_of_nat (n / 256); byte_of_nat n].

(** A payload of the lexical automaton and one of a prediction automaton. *)
Definition form (paraNum index : nat) : list byte :=
  (u16 paraNum ++ u16 index)%list.
Definition guess (count paraNum index : nat) : list byte :=
  (u16 count ++ u16 paraNum ++ u16 index)%list.

Fixpoint items_of (table : list (string * list item)) (q : string) : list item :=
  match table with
  | [] => []
  | (k, its) :: table' => if k =? q then its else items_of table' q
  end.

Fixpoint value_of (table : list (string * Z)) (q : string) : option Z :=
  match table with
  | [] => None
  | (k, v) :: table' => if k =? q then Some v else value_of table' q
  end.

Definition entry (k : string) (vs : list (list byte)) : string * list item :=
  (k, [{| key := k; values := vs |}]).

Definition the_tags : list string :=
  ["NOUN,inan,femn sing,nomn"; "NOUN,inan,femn sing,gent";
   "NOUN,inan,femn sing,datv"; "CONJ"; "ADVB,Ques"; "PRCL"; "ADVB";
   "ADJF,Qual masc,sing,nomn"; "ADJF,Qual masc,sing,datv";
   "NOUN,anim,femn sing,nomn"; "VERB,impf,tran sing,impr,excl";
   "INFN,impf,tran"; "NOUN,inan,masc sing,nomn"; "INFN,impf,intr"].

Definition the_suffixes : list string :=
  ["а"; "и"; "е"; ""; "ый"; "ому"; "еть"; "ать"].

Definition the_paradigms : list (list Z) :=
  [[0; 1; 2; 0; 1; 2; 0; 0; 0];   (* кошка, кошки, кошке *)
   [3; 3; 0]; [3; 4; 0]; [3; 5; 0];   (* как *)
   [3; 6; 0];                         (* как-то *)
   [4; 5; 7; 8; 0; 0];                (* западный, западному *)
   [6; 1; 11; 10; 0; 0];              (* смотреть, смотри *)
   [0; 9; 0];                         (* кошка, animate *)
   [3; 12; 0];                        (* код, pdf *)
   [7; 13; 0]]%Z.                     (* -ать *)

Definition lexicon : dawg :=
  {| Dict := {| stored := fun _ => None |};
     similarItems := items_of
       [entry "кошка" [form 7 0; form 0 0];
        entry "кошки" [form 0 1];
        entry "кошке" [form 0 2];
        entry "как" [form 1 0; form 2 0; form 3 0];
        entry "как-то" [form 4 0];
        entry "западный" [form 5 0];
        entry "западному" [form 5 1];
        entry "смотреть" [form 6 0];
        entry "смотри" [form 6 1];
        entry "код" [form 8 0];
        entry "pdf" [form 8 0]] |}.

Definition probabilities : dawg :=
  {| Dict := {| stored := value_of
       [("кошка:NOUN,anim,femn sing,nomn", 300000%Z);
        ("кошка:NOUN,inan,femn sing,nomn", 700000%Z)] |};
     similarItems := fun _ => [] |}.

Definition prediction (table : list (string * list item)) : dawg :=
  {| Dict := {| stored := fun _ => None |}; similarItems := items_of table |}.

Definition loaded : globals :=
  {| prefixes := [""; "по"; "наи"];
     suffixes := the_suffixes;
     tags := the_tags;
     paradigms := the_paradigms;
     wordsDAWG := Some lexicon;
     probDAWG := Some probabilities;
     predictionDAWGs :=
       [Some (prediction [entry "вкать" [guess 3 9 0]]);
        Some (prediction []); Some (prediction [])] |}.

End Demo.

(** ** Rows: the four slices of a [parse] read as one list

    [Swap] moves the four fields in lockstep, so sorting a [parse] whose
    slices have one length is sorting its rows. *)

Definition row : Type := (string * string * string * Q)%type.

Definition word_of (r : row) : string := fst (fst (fst r)).
Definition norm_of (r : row) : string := snd (fst (fst r)).
Definition tag_of (r : row) : string := snd (fst r).
Definition prob_of (r : row) : Q := snd r.

Definition rows (p : parse.t) : list row :=
  combine (combine (combine (parse.words p) (parse.norms p)) (parse.tags p))
    (parse.probs p).

Definition of_rows (l : list row) : parse.t :=
  {| parse.words := map word_of l; parse.norms := map norm_of l;
     parse.tags := map tag_of l; parse.probs := map prob_of l |}.

Definition aligned4 (p : parse.t) : Prop :=
  List.length (parse.norms p) = List.length (parse.words p)
  /\ List.length (parse.tags p) = List.length (parse.words p)
  /\ List.length (parse.probs p) = List.length (parse.words p).

(** [Less] on two rows, and the test "has weight [q]". *)
Definition less_row (a b : row) : bool := parse.Qgt_bool (prob_of a) (prob_of b).
Definition has_weight (q : Q) (r : row) : bool := Qeq_bool (prob_of r) q.

(** One run of [sift] on the rows: [x] moves towards the front past every
    row that it is [Less] than.  [sorted] is the part before [x], last
    row first. *)
Fixpoint bubble (x : row) (sorted : list row) : list row :=
  match sorted with
  | [] => [x]
  | y :: sorted' =>
      if less_row x y then y :: bubble x sorted' else x :: sorted
  end.

(** The rows after [insertionSort], last row first. *)
Definition stable_rev (l : list row) : list row :=
  fold_left (fun sorted x => bubble x sorted) l [].

Definition stable_rows (l : list row) : list row := rev (stable_rev l).

(** The three slices an analyzer returns have one length. *)
Definition aligned (r : analyses) : Prop :=
  let '(words, norms, tags) := r in
  List.length norms = List.length words /\ List.length tags = List.length words.

Definition ascending : list row -> Prop :=
  StronglySorted (fun a b => (prob_of a <= prob_of b)%Q).

(** The invariant of the two loops of [Parse]. *)
Definition Parse_invariant (pd : dawg) (word : string) (acc : parse.t * bool)
  : Prop :=
  let '(p, h) := acc in
  aligned4 p
  /\ parse.probs p = map (weight pd word) (parse.tags p)
  /\ h = existsb (fun q => parse.Qgt_bool q 0) (parse.probs p).

(** ** Well-formed dictionary data

    The conditions under which no index of the analyzers leaves its
    table: every form of every paradigm names entries of the three affix
    and tag tables, every payload of an automaton is long enough and
    names a paradigm and one of its forms, and there is one prediction
    automaton per prefix. *)

Definition in_table {A : Type} (l : list A) (i : Z) : bool :=
  ((0 <=? i) && (i <? Z.of_nat (List.length l)))%Z.

Definition forms (para : list Z) : nat := (List.length para / 3)%nat.

Definition wf_paradigm (st : globals) (para : list Z) : bool :=
  forallb
    (fun i =>
       in_table (suffixes st) (nth i para 0%Z)
       && in_table (tags st) (nth (i + forms para) para 0%Z)
       && in_table (prefixes st) (nth (i + 2 * forms para) para 0%Z))
    (seq 0 (forms para)).

(** The big-endian 16-bit field of [v] at byte offset [off]. *)
Definition field (v : list byte) (off : nat) : Z :=
  Z.lor (binary.byte_val (nth (off + 1) v Byte.x00))
    (Z.shiftl (binary.byte_val (nth off v Byte.x00)) 8).

(** A payload whose paradigm number is at byte offset [off] and whose form
    index follows it. *)
Definition wf_payload (st : globals) (off : nat) (v : list byte) : bool :=
  (off + 4 <=? List.length v)%nat
  && match nth_error (paradigms st) (Z.to_nat (field v off)) with
     | Some para => (field v (off + 2) <? Z.of_nat (forms para))%Z
     | None => false
     end.

Definition wf_dawg (st : globals) (off : nat) (d : dawg) : Prop :=
  forall q it, In it (similarItems d q) ->
               forallb (wf_payload st off) (values it) = true.

Definition wf (st : globals) : Prop :=
  forallb (wf_paradigm st) (paradigms st) = true
  /\ probDAWG st <> None
  /\ (exists wd, wordsDAWG st = Some wd /\ wf_dawg st 0 wd)
  /\ (forall id, (id < List.length (prefixes st))%nat ->
                 exists d, nth_error (predictionDAWGs st) id = Some (Some d)
                           /\ wf_dawg st 2 d).

(** A call returns, and its three slices have one length. *)
Definition good (r : result analyses) : Prop :=
  exists a, r = Ok a /\ aligned a.

(** A strategy that may return from [XParse] returns, and what it returns
    is aligned. *)
Definition good_option (r : result (option analyses)) : Prop :=
  exists o, r = Ok o /\ forall a, o = Some a -> aligned a.

(** A tag contains a grammeme of the non-productive set. *)
Definition nonproductive (tag : string) : Prop :=
  exists g a b, In g nonproductiveGrammemes /\ tag = a ++ g ++ b.

(** The tags that a strategy has appended to the accumulated slices are
    all productive. *)
Definition appends_productive (acc acc' : analyses) : Prop :=
  exists new, snd acc' = (snd acc ++ new)%list
              /\ Forall (fun t => productive t = true) new.

(** Two strings, read from their last byte backwards, differ at a position
    that both have: neither is a suffix of a string that ends with the
    other.  (The arguments are the reversed byte lists.) *)
Fixpoint clash (l1 l2 : list ascii) : bool :=
  match l1, l2 with
  | c1 :: l1', c2 :: l2' => if Ascii.eqb c1 c2 then clash l1' l2' else true
  | _, _ => false
  end.

Definition reversed (s : string) : list ascii := rev (list_ascii_of_string s).

(** ** Candidates as triples

    An analysis is a triple [(word, norm, tag)]; [zip3] reads three
    aligned slices as the list of their triples and [extend] appends
    triples to the three slices. *)

Definition triple : Type := (string * string * string)%type.

Definition zip3 (ws ns ts : list string) : list triple :=
  combine (combine ws ns) ts.

Definition extend (acc : analyses) (new : list triple) : analyses :=
  let '(words, norms, tags) := acc in
  ((words ++ map (fun t : triple => fst (fst t)) new)%list,
   (norms ++ map (fun t : triple => snd (fst t)) new)%list,
   (tags ++ map (fun t : triple => snd t) new)%list).

(** Two candidates are compatible when their feature signatures are the
    same string. *)
Definition compatible (lr : triple * triple) : bool :=
  similarityFeatures (snd (fst lr)) =? similarityFeatures (snd (snd lr)).

Definition agreementCompound (lr : triple * triple) : triple :=
  let '((lw, ln, lt), (rw, rn, _)) := lr in
  (lw ++ "-" ++ rw, ln ++ "-" ++ rn, lt).

Definition fixedLeftCompound (left : string) (r : triple) : triple :=
  let '(rw, rn, rt) := r in (left ++ "-" ++ rw, left ++ "-" ++ rn, rt).

(** A token of a tag: no space and no comma in it. *)
Fixpoint separator_free (s : string) : bool :=
  match s with
  | "" => true
  | String c s' => negb (is_separator c) && separator_free s'
  end.

(** ** The load steps of [InitWith], in the order of the source *)

Inductive step : Type :=
| LoadTags | LoadPrefixes | LoadSuffixes | LoadParadigms
| LoadWords | LoadProbabilities | LoadPredictions.

Definition step_index (s : step) : nat :=
  match s with
  | LoadTags => 0 | LoadPrefixes => 1 | LoadSuffixes => 2
  | LoadParadigms => 3 | LoadWords => 4 | LoadProbabilities => 5
  | LoadPredictions => 6
  end.

(** The package variable that a step assigns is the same in [g'] as in [g]. *)
Definition untouched (s : step) (g g' : globals) : Prop :=
  match s with
  | LoadTags => tags g' = tags g
  | LoadPrefixes => prefixes g' = prefixes g
  | LoadSuffixes => suffixes g' = suffixes g
  | LoadParadigms => paradigms g' = paradigms g
  | LoadWords => wordsDAWG g' = wordsDAWG g
  | LoadProbabilities => probDAWG g' = probDAWG g
  | LoadPredictions => predictionDAWGs g' = predictionDAWGs g
  end.

(** The load of a step has returned the error [e]: the step is the one at
    which [InitWith] stops. *)
Definition fails (env : environment) (dir : string) (s : step) (g' : globals)
  (e : error) : Prop :=
  match s with
  | LoadTags =>
      exists v, loadStringArray env
                  (filepath_Join env dir "gramtab-opencorpora-int.json")
                = (v, Some e)
  | LoadPrefixes =>
      exists v, loadStringArray env
                  (filepath_Join env dir "paradigm-prefixes.json")
                = (v, Some e)
                /\ os_IsNotExist e = false
  | LoadSuffixes =>
      exists v, loadStringArray env (filepath_Join env dir "suffixes.json")
                = (v, Some e)
  | LoadParadigms =>
      exists g0 g1, loadParadigms env (filepath_Join env dir "paradigms.array")
                      g0 = (g1, Some e)
  | LoadWords =>
      exists fe, newDAWG env (filepath_Join env dir "words.dawg") = inl fe
                 /\ e = Foreign fe
  | LoadProbabilities =>
      exists fe, newDAWG env (filepath_Join env dir "p_t_given_w.intdawg")
                 = inl fe
                 /\ e = Foreign fe
  | LoadPredictions =>
      exists i fe, (i < List.length (prefixes g'))%nat
                   /\ newDAWG env (filepath_Join env dir (predictionName i))
                      = inl fe
                   /\ e = Foreign fe
  end.

(** The load of a step has succeeded and the package variable of the step
    holds in [g'] what was loaded (for the prefixes: the loaded table, or
    the three default prefixes where the file does not exist). *)
Definition assigned (env : environment) (dir : string) (s : step)
  (g' : globals) : Prop :=
  match s with
  | LoadTags =>
      loadStringArray env (filepath_Join env dir "gramtab-opencorpora-int.json")
      = (tags g', None)
  | LoadPrefixes =>
      loadStringArray env (filepath_Join env dir "paradigm-prefixes.json")
      = (prefixes g', None)
      \/ (exists v e,
            loadStringArray env (filepath_Join env dir "paradigm-prefixes.json")
            = (v, Some e)
            /\ os_IsNotExist e = true /\ prefixes g' = defaultPrefixes)
  | LoadSuffixes =>
      loadStringArray env (filepath_Join env dir "suffixes.json")
      = (suffixes g', None)
  | LoadParadigms =>
      exists g0 g1, loadParadigms env (filepath_Join env dir "paradigms.array")
                      g0 = (g1, None)
                    /\ paradigms g' = paradigms g1
  | LoadWords =>
      exists d, newDAWG env (filepath_Join env dir "words.dawg") = inr d
                /\ wordsDAWG g' = Some d
  | LoadProbabilities =>
      exists d, newDAWG env (filepath_Join env dir "p_t_given_w.intdawg") = inr d
                /\ probDAWG g' = Some d
  | LoadPredictions =>
      exists ds, predictionDAWGs g' = map Some ds
                 /\ List.length ds = List.length (prefixes g')
                 /\ forall i d, nth_error ds i = Some d ->
                      newDAWG env (filepath_Join env dir (predictionName i))
                      = inr d
  end.

(** ** Two directories for the examples

    [Files.partial] has the tag table only; [Files.complete] has every
    resource (an empty paradigm array, and one automaton for every
    automaton file). *)

Module Files.

Definition join (dir name : string) : string := dir ++ "/" ++ name.

Definition missing : os_error :=
  {| notExist := true; message := "no such file or directory" |}.

Definition partial : environment :=
  {| os_Open := fun path =>
       if path =? "data/gramtab-opencorpora-int.json" then inr []
       else inl missing;
     json_Decode := fun _ => inr Demo.the_tags;
     newDAWG := fun _ => inl missing;
     python_Run := inl missing;
     filepath_Join := join |}.

Definition complete : environment :=
  {| os_Open := fun path =>
       if path =? "data/paradigms.array" then inr [Byte.x00; Byte.x00]
       else if path =? "data/suffixes.json" then inr [Byte.x01]
       else if path =? "data/gramtab-opencorpora-int.json" then inr [Byte.x02]
       else inl missing;
     json_Decode := fun f =>
       match f with
       | [Byte.x01] => inr Demo.the_suffixes
       | _ => inr Demo.the_tags
       end;
     newDAWG := fun _ => inr Demo.lexicon;
     python_Run := inr ("/usr/lib/python3/pymorphy2_dicts_ru"
                          ++ String "010" "");
     filepath_Join := join |}.

End Files.

(** ** The keys of the matched items, one per payload record *)

Definition matchedKeys (items : list item) : list string :=
  flat_map (fun it => map (fun _ => key it) (values it)) items.

(** ** Sorted tables *)

(** Every element is [less] than every later one. *)
Fixpoint ordered {A : Type} (less : A -> A -> bool) (l : list A) : bool :=
  match l with
  | [] => true
  | a :: l' => forallb (less a) l' && ordered less l'
  end.

(** The adverb rule accepts a tag that starts with ["ADJF"] and contains
    ["sing,datv"]. *)
Definition dativeAdjective (tag : string) : bool :=
  strings.HasPrefix tag "ADJF" && strings.Contains tag "sing,datv".

(** ** The format of the paradigm file

    What [loadParadigms] reads: a little-endian [uint16] count, then for
    every paradigm a little-endian [uint16] length and as many
    little-endian [uint16] entries. *)

Definition byte_of_Z (z : Z) : byte :=
  match Byte.of_N (Z.to_N (z mod 256)) with
  | Some b => b
  | None => Byte.x00
  end.

(** [binary.LittleEndian.PutUint16]: [b[0] = byte(v); b[1] = byte(v >> 8)]. *)
Definition LittleEndian_PutUint16 (v : Z) : list byte :=
  [byte_of_Z v; byte_of_Z (Z.shiftr v 8)].

Definition paradigm_bytes (para : list Z) : list byte :=
  (LittleEndian_PutUint16 (Z.of_nat (List.length para))
   ++ flat_map LittleEndian_PutUint16 para)%list.

Definition paradigms_file (ps : list (list Z)) : list byte :=
  (LittleEndian_PutUint16 (Z.of_nat (List.length ps))
   ++ flat_map paradigm_bytes ps)%list.

Definition is_uint16 (z : Z) : Prop := (0 <= z < 65536)%Z.

Definition encodable (ps : list (list Z)) : Prop :=
  is_uint16 (Z.of_nat (List.length ps))
  /\ Forall (fun para => is_uint16 (Z.of_nat (List.length para))
                         /\ Forall is_uint16 para) ps.

(** An environment whose every file holds the paradigms [ps]. *)
Definition paradigms_only (ps : list (list Z)) : environment :=
  {| os_Open := fun _ => inr (paradigms_file ps);
     json_Decode := fun _ => inr [];
     newDAWG := fun _ => inl io_EOF;
     python_Run := inl io_EOF;
     filepath_Join := fun dir name => dir ++ "/" ++ name |}.

(** ** The prefix strategies, as list operations *)

(** The analyses a call has returned, as triples (none when it did not
    return). *)
Definition triples (r : result analyses) : list triple :=
  match r with
  | Ok (ws, ns, ts) => zip3 ws ns ts
  | _ => []
  end.

(** [(prefix+w, prefix+n, t)] *)
Definition prefixed (prefix : string) (t : triple) : triple :=
  let '(w, n, tag) := t in (prefix ++ w, prefix ++ n, tag).

Definition productiveTriple (t : triple) : bool := productive (snd t).

(** What the known-prefix strategy appends for one known prefix. *)
Definition knownPrefixAnalyses (self : string -> result analyses)
  (word prefix : string) : list triple :=
  if strings.HasPrefix word prefix
     && (3 <=? utf8.RuneCountInString (strings.TrimPrefix word prefix))%nat
  then map (prefixed prefix)
         (filter productiveTriple
            (triples (self (strings.TrimPrefix word prefix))))
  else [].

(** What the unknown-prefix strategy appends for one split of the word. *)
Definition unknownPrefixAnalyses (st : globals) (split : list string)
  : list triple :=
  map (prefixed (nth 0 split ""))
    (filter productiveTriple (triples (Parse st (nth 1 split "")))).

(** The triples of three slices. *)
Definition analysesTriples (a : analyses) : list triple :=
  let '(ws, ns, ts) := a in zip3 ws ns ts.

(** [acc'] is [acc] with new triples appended, all different and none of
    them in [acc]. *)
Definition appends_new (acc acc' : analyses) : Prop :=
  exists new, acc' = extend acc new
              /\ NoDup new
              /\ Forall (fun t => ~ In t (analysesTriples acc)) new.

(** A byte of the cutset of [dataPath]: carriage return or line feed. *)
Definition is_newline (c : ascii) : bool :=
  Ascii.eqb c "013" || Ascii.eqb c "010".

(** An environment in which every resource is there but the second
    prediction automaton. *)
Definition without_prediction_1 : environment :=
  {| os_Open := os_Open Files.complete;
     json_Decode := json_Decode Files.complete;
     newDAWG := fun path =>
       if path =? "data/prediction-suffixes-1.dawg" then inl Files.missing
       else inr Demo.lexicon;
     python_Run := python_Run Files.complete;
     filepath_Join := Files.join |}.

(** * Properties *)

(** ** The [result] monad and the loops *)

Lemma bind_Ok_inv {A B : Type} (m : result A) (k : A -> result B) (b : B) :
  bind m k = Ok b -> exists a, m = Ok a /\ k a = Ok b.
Proof. destruct m; simpl; intros H; try discriminate; eauto. Qed.

Lemma for_range_app {A S : Type} (body : A -> S -> result S) (l1 l2 : list A)
  (s : S) :
  for_range body (l1 ++ l2)%list s
  = bind (for_range body l1 s) (for_range body l2).
Proof.
  revert s; induction l1 as [|x l1 IH]; intros s; simpl; [reflexivity|].
  destruct (body x s); simpl; auto.
Qed.

(** An invariant of the state is kept by a loop whose body keeps it and
    does not fail. *)
Lemma for_range_invariant {A S : Type} (P : S -> Prop) (Q : A -> Prop)
  (body : A -> S -> result S) (l : list A) :
  (forall x s, Q x -> P s -> exists s', body x s = Ok s' /\ P s') ->
  Forall Q l ->
  forall s, P s -> exists s', for_range body l s = Ok s' /\ P s'.
Proof.
  intros Hbody HQ; induction HQ as [|x l Hx _ IH]; intros s Hs; simpl.
  - eauto.
  - destruct (Hbody x s Hx Hs) as (s1 & -> & Hs1); simpl; auto.
Qed.

(** The partial form: the invariant holds of every state that the loop
    returns. *)
Lemma for_range_preserves {A S : Type} (P : S -> Prop)
  (body : A -> S -> result S) (l : list A) :
  (forall x s s', In x l -> P s -> body x s = Ok s' -> P s') ->
  forall s s', P s -> for_range body l s = Ok s' -> P s'.
Proof.
  induction l as [|x l IH]; intros Hbody s s' Hs H; simpl in H.
  - congruence.
  - apply bind_Ok_inv in H as (s1 & H1 & H2).
    apply (IH (fun y t t' Hy => Hbody y t t' (or_intror Hy)) s1 s'); auto.
    eapply Hbody; eauto; now left.
Qed.

Lemma for_range_ext {A S : Type} (f g : A -> S -> result S) (l : list A) :
  (forall x s, In x l -> f x s = g x s) ->
  forall s, for_range f l s = for_range g l s.
Proof.
  induction l as [|x l IH]; intros H s; simpl; [reflexivity|].
  rewrite (H x s) by now left.
  destruct (g x s); simpl; auto.
  apply IH; intros; apply H; now right.
Qed.

Lemma at_index_Ok {A : Type} (l : list A) (i : nat) :
  (i < List.length l)%nat -> exists a, at_index l i = Ok a /\ nth_error l i = Some a.
Proof.
  intros H; unfold at_index.
  destruct (nth_error l i) eqn:E; eauto.
  apply nth_error_None in E; lia.
Qed.

Lemma at_index_inv {A : Type} (l : list A) (i : nat) (a : A) :
  at_index l i = Ok a -> nth_error l i = Some a.
Proof. unfold at_index; destruct (nth_error l i); congruence. Qed.

Lemma length_push {A : Type} (l : list A) (x : A) :
  List.length (push l x) = S (List.length l).
Proof. unfold push; rewrite length_app; simpl; lia. Qed.

Lemma length_update {A : Type} (l : list A) (i : nat) (x : A) :
  List.length (update l i x) = List.length l.
Proof.
  revert i; induction l as [|y l IH]; intros [|i]; simpl; auto.
Qed.

Lemma In_enumerate {A : Type} (l : list A) (i : nat) (x : A) :
  In (i, x) (enumerate l) -> nth_error l i = Some x.
Proof.
  unfold enumerate.
  assert (G : forall k, In (i, x) (combine (seq k (List.length l)) l) ->
                        (k <= i)%nat /\ nth_error l (i - k) = Some x).
  { induction l as [|y l IH]; intros k; simpl; [tauto|].
    intros [H|H].
    - inversion H; subst. rewrite Nat.sub_diag; auto.
    - apply IH in H as [H1 H2]. split; [lia|].
      replace (i - k)%nat with (S (i - S k)) by lia. exact H2. }
  intros H; apply G in H as [_ H]. now rewrite Nat.sub_0_r in H.
Qed.

(** ** Facts on strings *)

Module strings_facts.
Import strings.

Lemma length_append (a b : string) :
  String.length (a ++ b) = (String.length a + String.length b)%nat.
Proof. induction a; simpl; auto. Qed.

Lemma append_assoc (a b c : string) : (a ++ b) ++ c = a ++ (b ++ c).
Proof. induction a; simpl; congruence. Qed.

Lemma append_nil_r (a : string) : a ++ "" = a.
Proof. induction a; simpl; congruence. Qed.

Lemma substring_all (s : string) : substring 0 (String.length s) s = s.
Proof. induction s; simpl; congruence. Qed.

Lemma substring_0_0 (s : string) : substring 0 0 s = "".
Proof. destruct s; reflexivity. Qed.

Lemma slice_to_append (a b : string) : slice_to (String.length a) (a ++ b) = a.
Proof.
  unfold slice_to; induction a; simpl; [apply substring_0_0|congruence].
Qed.

Lemma substring_skip (a b : string) (m : nat) :
  substring (String.length a) m (a ++ b) = substring 0 m b.
Proof. induction a; simpl; auto. Qed.

Lemma slice_from_append (a b : string) :
  slice_from (String.length a) (a ++ b) = b.
Proof.
  unfold slice_from. rewrite length_append, substring_skip.
  replace (String.length a + String.length b - String.length a)%nat
    with (String.length b) by lia.
  apply substring_all.
Qed.

Lemma slice_split (n : nat) (s : string) :
  (n <= String.length s)%nat -> slice_to n s ++ slice_from n s = s.
Proof.
  unfold slice_to, slice_from. revert n; induction s as [|c s IH]; intros n Hn.
  - simpl in Hn. assert (n = 0%nat) by lia; subst; reflexivity.
  - destruct n as [|n]; simpl.
    + f_equal. apply substring_all.
    + f_equal. apply IH. simpl in Hn; lia.
Qed.

Lemma length_slice_to (n : nat) (s : string) :
  (n <= String.length s)%nat -> String.length (slice_to n s) = n.
Proof.
  unfold slice_to. revert n; induction s as [|c s IH]; intros [|n] Hn;
    simpl in *; auto; try lia.
  f_equal; apply IH; lia.
Qed.

Lemma append_inv_head (a b c : string) : a ++ b = a ++ c -> b = c.
Proof. induction a; simpl; intros H; auto. inversion H; auto. Qed.

Lemma append_inv_length (a b c d : string) :
  String.length a = String.length c -> a ++ b = c ++ d -> a = c /\ b = d.
Proof.
  revert c; induction a as [|x a IH]; intros [|y c] Hl H; simpl in *;
    try discriminate; auto.
  inversion H; subst. destruct (IH c) as [-> ->]; auto.
Qed.

Lemma HasPrefix_true (s p : string) :
  HasPrefix s p = true -> s = p ++ TrimPrefix s p.
Proof.
  intros H. unfold TrimPrefix. rewrite H.
  unfold HasPrefix in H. apply andb_true_iff in H as [Hl He].
  apply Nat.leb_le in Hl. apply String.eqb_eq in He.
  rewrite <- He at 1. symmetry; now apply slice_split.
Qed.

Lemma HasPrefix_append (p b : string) : HasPrefix (p ++ b) p = true.
Proof.
  unfold HasPrefix. rewrite slice_to_append, String.eqb_refl, length_append.
  rewrite andb_true_r. apply Nat.leb_le; lia.
Qed.

Lemma TrimPrefix_append (p b : string) : TrimPrefix (p ++ b) p = b.
Proof. unfold TrimPrefix. now rewrite HasPrefix_append, slice_from_append. Qed.

Lemma HasPrefix_iff (s p : string) :
  HasPrefix s p = true <-> exists b, s = p ++ b.
Proof.
  split.
  - intros H; eexists; now apply HasPrefix_true.
  - intros [b ->]; apply HasPrefix_append.
Qed.

Lemma HasSuffix_true (s q : string) :
  HasSuffix s q = true -> s = TrimSuffix s q ++ q.
Proof.
  intros H. unfold TrimSuffix. rewrite H.
  unfold HasSuffix in H. apply andb_true_iff in H as [Hl He].
  apply Nat.leb_le in Hl. apply String.eqb_eq in He.
  rewrite <- He at 2. symmetry; apply slice_split; lia.
Qed.

Lemma HasSuffix_append (a q : string) : HasSuffix (a ++ q) q = true.
Proof.
  unfold HasSuffix. rewrite length_append.
  replace (String.length a + String.length q - String.length q)%nat
    with (String.length a) by lia.
  rewrite slice_from_append, String.eqb_refl, andb_true_r.
  apply Nat.leb_le; lia.
Qed.

Lemma TrimSuffix_append (a q : string) : TrimSuffix (a ++ q) q = a.
Proof.
  unfold TrimSuffix. rewrite HasSuffix_append, length_append.
  replace (String.length a + String.length q - String.length q)%nat
    with (String.length a) by lia.
  apply slice_to_append.
Qed.

Lemma HasSuffix_iff (s q : string) :
  HasSuffix s q = true <-> exists a, s = a ++ q.
Proof.
  split.
  - intros H; eexists; now apply HasSuffix_true.
  - intros [a ->]; apply HasSuffix_append.
Qed.

End strings_facts.

(** ** Paradigm decoding and the normal form *)

Lemma prefixSuffixTag_Ok (st : globals) (para : list Z) (i si ti pi : Z)
  (prefix suffix tag : string) :
  at_int para i = Ok si ->
  at_int para (i + Z.of_nat (List.length para) / 3) = Ok ti ->
  at_int para (i + 2 * (Z.of_nat (List.length para) / 3)) = Ok pi ->
  at_int (prefixes st) pi = Ok prefix ->
  at_int (suffixes st) si = Ok suffix ->
  at_int (tags st) ti = Ok tag ->
  prefixSuffixTag st para i = Ok (prefix, suffix, tag).
Proof.
  intros H1 H2 H3 H4 H5 H6. unfold prefixSuffixTag.
  rewrite H1; cbn [bind]. rewrite H2; cbn [bind]. rewrite H3; cbn [bind].
  rewrite H4; cbn [bind]. rewrite H5; cbn [bind]. rewrite H6; reflexivity.
Qed.

(** What one successful iteration of the inner loop of [Parse] appends. *)
Lemma Parse_payload_inv (st : globals) (pd : dawg) (word k : string)
  (v : list byte) (p p' : parse.t) (h h' : bool) :
  Parse_payload st pd word k v (p, h) = Ok (p', h') ->
  exists norm tag,
    p' = {| parse.words := push (parse.words p) k;
            parse.norms := push (parse.norms p) norm;
            parse.tags := push (parse.tags p) tag;
            parse.probs := push (parse.probs p) (weight pd word tag) |}
    /\ h' = (if parse.Qgt_bool (weight pd word tag) 0 then true else h).
Proof.
  unfold Parse_payload. intros H.
  apply bind_Ok_inv in H as (paraNum & _ & H).
  apply bind_Ok_inv in H as (para & _ & H).
  apply bind_Ok_inv in H as (v2 & _ & H).
  apply bind_Ok_inv in H as (index & _ & H).
  apply bind_Ok_inv in H as ([[prefix suffix] tag] & _ & H).
  apply bind_Ok_inv in H as (norm & _ & H).
  inversion H; subst. now exists norm, tag.
Qed.

(** C4. Every payload that decodes to paradigm [para] and form index [i]
    makes [Parse] emit the matched key, the tag [tags[para[i+n]]] for
    [n = len(para)/3], and as normal form the key itself when [i = 0] and
    otherwise form 0's prefix, then the key without form [i]'s prefix and
    suffix, then form 0's suffix. *)
Theorem payload_decoding (st : globals) (pd : dawg) (word k : string)
  (v v2 : list byte) (p : parse.t) (h : bool) (paraNum i : Z) (para : list Z)
  (si ti pi s0 t0 p0 : Z) (prefix suffix tag pr su tag0 : string) :
  binary.BigEndian_Uint16 v = Ok paraNum ->
  at_int (paradigms st) paraNum = Ok para ->
  binary.bytes_from 2 v = Ok v2 ->
  binary.BigEndian_Uint16 v2 = Ok i ->
  let n := (Z.of_nat (List.length para) / 3)%Z in
  at_int para i = Ok si ->
  at_int para (i + n) = Ok ti ->
  at_int para (i + 2 * n) = Ok pi ->
  at_int (prefixes st) pi = Ok prefix ->
  at_int (suffixes st) si = Ok suffix ->
  at_int (tags st) ti = Ok tag ->
  at_int para 0 = Ok s0 ->
  at_int para (0 + n) = Ok t0 ->
  at_int para (0 + 2 * n) = Ok p0 ->
  at_int (prefixes st) p0 = Ok pr ->
  at_int (suffixes st) s0 = Ok su ->
  at_int (tags st) t0 = Ok tag0 ->
  let stem := strings.TrimSuffix (strings.TrimPrefix k prefix) suffix in
  let norm := if (i =? 0)%Z then k else pr ++ stem ++ su in
  Parse_payload st pd word k v (p, h)
  = Ok ({| parse.words := push (parse.words p) k;
           parse.norms := push (parse.norms p) norm;
           parse.tags := push (parse.tags p) tag;
           parse.probs := push (parse.probs p) (weight pd word tag) |},
        if parse.Qgt_bool (weight pd word tag) 0 then true else h).
Proof.
  intros Hv Hpara Hv2 Hi n Hsi Hti Hpi Hp Hs Ht Hs0 Ht0 Hp0 Hpr Hsu Htag0
    stem norm.
  unfold Parse_payload. rewrite Hv; cbn [bind]. rewrite Hpara; cbn [bind].
  rewrite Hv2; cbn [bind]. rewrite Hi; cbn [bind].
  rewrite (prefixSuffixTag_Ok st para i Hsi Hti Hpi Hp Hs Ht); cbn [bind].
  unfold normalForm, norm, stem.
  destruct (i =? 0)%Z; cbn [bind negb]; [reflexivity|].
  rewrite (prefixSuffixTag_Ok st para 0 Hs0 Ht0 Hp0 Hpr Hsu Htag0).
  reflexivity.
Qed.

Lemma payload_decoding_witness :
  Parse_payload Demo.loaded Demo.probabilities "кошке" "кошке"
    (Demo.form 0 2) (empty_parse, false)
  = Ok ({| parse.words := ["кошке"]; parse.norms := ["кошка"];
           parse.tags := ["NOUN,inan,femn sing,datv"];
           parse.probs := [weight Demo.probabilities "кошке"
                             "NOUN,inan,femn sing,datv"] |}, false).
Proof.
  exact (@payload_decoding Demo.loaded Demo.probabilities "кошке" "кошке"
           (Demo.form 0 2) [Byte.x00; Byte.x02] empty_parse false
           0%Z 2%Z [0; 1; 2; 0; 1; 2; 0; 0; 0]%Z
           2%Z 2%Z 0%Z 0%Z 0%Z 0%Z
           "" "е" "NOUN,inan,femn sing,datv" "" "а" "NOUN,inan,femn sing,nomn"
           eq_refl eq_refl eq_refl eq_refl eq_refl eq_refl eq_refl eq_refl
           eq_refl eq_refl eq_refl eq_refl eq_refl eq_refl eq_refl eq_refl).
Defined.

(** ** [sort.Stable] on a [parse] *)

Lemma of_rows_rows (p : parse.t) : aligned4 p -> of_rows (rows p) = p.
Proof.
  destruct p as [ws ns ts ps]; unfold aligned4, rows, of_rows; simpl.
  intros (Hn & Ht & Hp).
  revert ns ts ps Hn Ht Hp.
  induction ws as [|w ws IH]; intros [|n ns] [|t ts] [|q ps] Hn Ht Hp;
    simpl in Hn, Ht, Hp; try discriminate; auto.
  specialize (IH ns ts ps ltac:(lia) ltac:(lia) ltac:(lia)).
  injection IH as H1 H2 H3 H4.
  cbn [combine map]. rewrite H1, H2, H3, H4. reflexivity.
Qed.

Lemma rows_of_rows (l : list row) : rows (of_rows l) = l.
Proof.
  unfold rows, of_rows; simpl. induction l as [|[[[w n] t] q] l IH]; simpl.
  - reflexivity.
  - now rewrite IH.
Qed.

Lemma aligned4_of_rows (l : list row) : aligned4 (of_rows l).
Proof. unfold aligned4, of_rows; simpl. now rewrite !length_map. Qed.

Lemma swap_adjacent {A : Type} (pre post : list A) (x y : A) :
  parse.swap (pre ++ y :: x :: post)%list (S (List.length pre)) (List.length pre)
  = Ok (pre ++ x :: y :: post)%list.
Proof.
  unfold parse.swap, at_index.
  replace (nth_error (pre ++ y :: x :: post)%list (S (List.length pre)))
    with (Some x).
  2:{ symmetry. rewrite nth_error_app2 by lia.
      replace (S (List.length pre) - List.length pre)%nat with 1%nat by lia.
      reflexivity. }
  replace (nth_error (pre ++ y :: x :: post)%list (List.length pre))
    with (Some y).
  2:{ symmetry. rewrite nth_error_app2 by lia.
      now rewrite Nat.sub_diag. }
  cbn [bind]. f_equal.
  induction pre as [|z pre IH]; simpl; [reflexivity|]. now rewrite IH.
Qed.

Lemma update_map {A B : Type} (f : A -> B) (l : list A) (i : nat) (x : A) :
  update (map f l) i (f x) = map f (update l i x).
Proof.
  revert i; induction l as [|y l IH]; intros [|i]; simpl; auto.
  now rewrite IH.
Qed.

Lemma swap_map {A B : Type} (f : A -> B) (l l' : list A) (i j : nat) :
  parse.swap l i j = Ok l' -> parse.swap (map f l) i j = Ok (map f l').
Proof.
  unfold parse.swap, at_index. rewrite !nth_error_map.
  destruct (nth_error l i) as [a|]; [|discriminate].
  destruct (nth_error l j) as [b|]; [|discriminate].
  simpl. intros H; injection H as <-. now rewrite !update_map.
Qed.

Lemma Swap_of_rows (l l' : list row) (i j : nat) :
  parse.swap l i j = Ok l' -> parse.Swap (of_rows l) i j = Ok (of_rows l').
Proof.
  intros H. unfold parse.Swap, of_rows; simpl.
  rewrite (swap_map word_of _ _ _ H); cbn [bind].
  rewrite (swap_map norm_of _ _ _ H); cbn [bind].
  rewrite (swap_map tag_of _ _ _ H); cbn [bind].
  rewrite (swap_map prob_of _ _ _ H); cbn [bind].
  reflexivity.
Qed.

Lemma Swap_adjacent (pre post : list row) (x y : row) :
  parse.Swap (of_rows (pre ++ y :: x :: post)%list)
    (S (List.length pre)) (List.length pre)
  = Ok (of_rows (pre ++ x :: y :: post)%list).
Proof. apply Swap_of_rows, swap_adjacent. Qed.

Lemma Less_adjacent (pre post : list row) (x y : row) :
  parse.Less (of_rows (pre ++ y :: x :: post)%list)
    (S (List.length pre)) (List.length pre)
  = Ok (less_row x y).
Proof.
  unfold parse.Less, of_rows, at_index; cbn [parse.probs].
  rewrite !nth_error_map, !nth_error_app2 by lia.
  replace (S (List.length pre) - List.length pre)%nat with 1%nat by lia.
  rewrite Nat.sub_diag. reflexivity.
Qed.

Lemma sift_bubble (sorted : list row) (x : row) (post : list row) :
  gosort.sift parse.Interface (List.length sorted)
    (of_rows (rev sorted ++ x :: post)%list)
  = Ok (of_rows (rev (bubble x sorted) ++ post)%list).
Proof.
  revert post; induction sorted as [|y sorted IH]; intros post.
  - reflexivity.
  - cbn [List.length gosort.sift rev bubble].
    rewrite <- (length_rev sorted), <- app_assoc.
    cbn [gosort.Less gosort.Swap parse.Interface app].
    rewrite Less_adjacent; cbn [bind].
    destruct (less_row x y).
    + rewrite Swap_adjacent; cbn [bind].
      rewrite length_rev, IH. cbn [rev]. now rewrite <- app_assoc.
    + cbn [rev]. now rewrite <- !app_assoc.
Qed.

Lemma length_bubble (x : row) (sorted : list row) :
  List.length (bubble x sorted) = S (List.length sorted).
Proof.
  induction sorted as [|y sorted IH]; simpl; auto.
  destruct (less_row x y); simpl; auto.
Qed.

Lemma insertionSort_rows (rest sorted : list row) :
  for_range (gosort.sift parse.Interface)
    (seq (List.length sorted) (List.length rest))
    (of_rows (rev sorted ++ rest)%list)
  = Ok (of_rows (rev (fold_left (fun s x => bubble x s) rest sorted))).
Proof.
  revert sorted; induction rest as [|x rest IH]; intros sorted.
  - simpl. now rewrite app_nil_r.
  - cbn [List.length seq for_range fold_left].
    rewrite sift_bubble; cbn [bind].
    rewrite <- (length_bubble x sorted). apply IH.
Qed.

(** [sort.Stable] on a [parse] with rows [l] leaves the rows
    [stable_rows l]. *)
Lemma Stable_rows (l : list row) :
  gosort.Stable parse.Interface (of_rows l) = Ok (of_rows (stable_rows l)).
Proof.
  unfold gosort.Stable, gosort.insertionSort, stable_rows, stable_rev.
  cbn [gosort.Len parse.Interface]. unfold parse.Len, of_rows at 1.
  cbn [parse.words]. rewrite length_map.
  destruct l as [|x l]; [reflexivity|].
  cbn [List.length]. rewrite Nat.sub_succ, Nat.sub_0_r.
  exact (insertionSort_rows l [x]).
Qed.

Lemma less_row_true (x y : row) :
  less_row x y = true -> (prob_of y < prob_of x)%Q.
Proof.
  unfold less_row, parse.Qgt_bool. intros H.
  apply negb_true_iff in H. apply Qnot_le_lt. intros C.
  apply Qle_bool_iff in C. congruence.
Qed.

Lemma less_row_false (x y : row) :
  less_row x y = false -> (prob_of x <= prob_of y)%Q.
Proof.
  unfold less_row, parse.Qgt_bool. intros H.
  apply negb_false_iff in H. now apply Qle_bool_iff.
Qed.

Lemma bubble_Permutation (x : row) (sorted : list row) :
  Permutation (bubble x sorted) (x :: sorted).
Proof.
  induction sorted as [|y sorted IH]; simpl; auto.
  destruct (less_row x y); auto.
  rewrite IH. apply perm_swap.
Qed.

Lemma bubble_filter (q : Q) (x : row) (sorted : list row) :
  filter (has_weight q) (bubble x sorted) = filter (has_weight q) (x :: sorted).
Proof.
  induction sorted as [|y sorted IH]; [reflexivity|].
  cbn [bubble]. destruct (less_row x y) eqn:L; [|reflexivity].
  cbn [filter] in *. rewrite IH.
  destruct (has_weight q y) eqn:Hy, (has_weight q x) eqn:Hx; try reflexivity.
  exfalso. apply less_row_true in L.
  unfold has_weight in Hx, Hy. apply Qeq_bool_iff in Hx, Hy.
  rewrite Hx, Hy in L. now apply Qlt_irrefl in L.
Qed.

Lemma bubble_ascending (x : row) (sorted : list row) :
  ascending sorted -> ascending (bubble x sorted).
Proof.
  unfold ascending.
  induction sorted as [|y sorted IH]; intros H; simpl.
  - constructor; constructor.
  - inversion H as [|? ? Hs Hy]; subst.
    destruct (less_row x y) eqn:L.
    + constructor; auto.
      eapply Permutation_Forall; [symmetry; apply bubble_Permutation|].
      constructor; auto. now apply Qlt_le_weak, less_row_true.
    + apply less_row_false in L. constructor; auto.
      constructor; auto.
      eapply Forall_impl; [|exact Hy]. intros z Hz. simpl in Hz.
      eapply Qle_trans; eauto.
Qed.

Lemma filter_rev {A : Type} (f : A -> bool) (l : list A) :
  filter f (rev l) = rev (filter f l).
Proof.
  induction l as [|x l IH]; simpl; [reflexivity|].
  rewrite filter_app, IH; simpl. destruct (f x); simpl; auto.
  now rewrite app_nil_r.
Qed.

Lemma StronglySorted_rev {A : Type} (R : A -> A -> Prop) (l : list A) :
  StronglySorted R l -> StronglySorted (fun a b => R b a) (rev l).
Proof.
  induction 1 as [|x l Hs IH Hx]; simpl; [constructor|].
  assert (G : forall l1 : list A,
             StronglySorted (fun a b => R b a) l1 ->
             Forall (fun y => R x y) l1 ->
             StronglySorted (fun a b => R b a) (l1 ++ [x])%list).
  { induction l1 as [|y l1 IH1]; intros H1 H2; simpl.
    - constructor; constructor.
    - inversion H1; subst. inversion H2; subst. constructor; auto.
      apply Forall_app; split; auto. }
  apply G; auto. now apply Forall_rev.
Qed.

Lemma stable_fold (l sorted : list row) :
  let s' := fold_left (fun s x => bubble x s) l sorted in
  Permutation s' (rev l ++ sorted)%list
  /\ (forall q, filter (has_weight q) s'
                = filter (has_weight q) (rev l ++ sorted)%list)
  /\ (ascending sorted -> ascending s').
Proof.
  revert sorted; induction l as [|x l IH]; intros sorted; cbn [fold_left rev].
  - simpl; auto.
  - destruct (IH (bubble x sorted)) as (P & F & S).
    rewrite <- !app_assoc. cbn [app]. repeat split.
    + rewrite P. apply Permutation_app_head, bubble_Permutation.
    + intros q. rewrite F, !filter_app. f_equal. apply bubble_filter.
    + intros H. now apply S, bubble_ascending.
Qed.

(** [stable_rows] is a stable sort of the rows by descending weight. *)
Lemma stable_rows_spec (l : list row) :
  Permutation (stable_rows l) l
  /\ StronglySorted (fun a b => (prob_of b <= prob_of a)%Q) (stable_rows l)
  /\ (forall q, filter (has_weight q) (stable_rows l) = filter (has_weight q) l).
Proof.
  unfold stable_rows, stable_rev.
  destruct (stable_fold l []) as (P & F & S). rewrite app_nil_r in *.
  repeat split.
  - rewrite <- Permutation_rev, P. symmetry; apply Permutation_rev.
  - apply StronglySorted_rev, S. constructor.
  - intros q. now rewrite filter_rev, F, filter_rev, rev_involutive.
Qed.

(** ** [Parse]: the candidate set and its ranking *)

Lemma Parse_payload_invariant (st : globals) (pd : dawg) (word k : string)
  (v : list byte) (acc acc' : parse.t * bool) :
  Parse_invariant pd word acc ->
  Parse_payload st pd word k v acc = Ok acc' ->
  Parse_invariant pd word acc'.
Proof.
  destruct acc as [p h], acc' as [p' h']. intros (A & W & E) H.
  apply Parse_payload_inv in H as (norm & tag & -> & ->).
  destruct A as (An & At & Ap).
  unfold Parse_invariant, aligned4; cbn [parse.words parse.norms parse.tags
                                         parse.probs].
  rewrite !length_push. repeat split; try congruence.
  - unfold push. now rewrite map_app, W.
  - unfold push. rewrite existsb_app, <- E. simpl.
    destruct (parse.Qgt_bool (weight pd word tag) 0), h; reflexivity.
Qed.

Lemma Parse_collect_invariant (st : globals) (pd wd : dawg) (word : string)
  (acc : parse.t * bool) :
  Parse_collect st pd wd word = Ok acc -> Parse_invariant pd word acc.
Proof.
  unfold Parse_collect.
  apply for_range_preserves with (P := Parse_invariant pd word).
  - intros it s s' _ Hs. unfold Parse_item.
    apply for_range_preserves with (P := Parse_invariant pd word); auto.
    intros v t t' _. apply Parse_payload_invariant.
  - unfold Parse_invariant, aligned4; simpl; auto.
Qed.

Lemma Qgt_bool_true (a b : Q) : parse.Qgt_bool a b = true <-> (b < a)%Q.
Proof.
  unfold parse.Qgt_bool. rewrite negb_true_iff. split.
  - intros H. apply Qnot_le_lt. intros C. apply Qle_bool_iff in C. congruence.
  - intros H. destruct (Qle_bool a b) eqn:E; auto.
    apply Qle_bool_iff in E. exfalso. eapply Qlt_not_le; eauto.
Qed.

Lemma rows_weights (pd : dawg) (word : string) (l : list row) :
  map prob_of l = map (weight pd word) (map tag_of l) ->
  Forall (fun r => prob_of r = weight pd word (tag_of r)) l.
Proof.
  induction l as [|r l IH]; simpl; intros H; constructor.
  - now injection H.
  - apply IH. now injection H.
Qed.

Lemma existsb_positive (l : list row) :
  existsb (fun q => parse.Qgt_bool q 0) (map prob_of l) = true
  <-> Exists (fun r => (0 < prob_of r)%Q) l.
Proof.
  rewrite existsb_exists, Exists_exists. split.
  - intros (q & Hin & Hq). apply in_map_iff in Hin as (r & <- & Hr).
    exists r. split; auto. now apply Qgt_bool_true.
  - intros (r & Hr & Hq). exists (prob_of r). split.
    + now apply in_map.
    + now apply Qgt_bool_true.
Qed.

(** C2. The weight of a candidate is the value that the probability
    index stores for [word + ":" + tag], divided by 1e6, and 0 when the
    index has no such key.  If some weight is strictly positive, [Parse]
    returns the candidates stably sorted by descending weight: a
    permutation of the traversal order, weights non-increasing, candidates
    of equal weight in their traversal order.  If no weight is strictly
    positive (in particular if every weight is zero), [Parse] returns the
    traversal order unchanged. *)
Theorem Parse_ranking (st : globals) (pd wd : dawg) (word : string)
  (p : parse.t) (h : bool) :
  probDAWG st = Some pd ->
  wordsDAWG st = Some wd ->
  Parse_collect st pd wd word = Ok (p, h) ->
  let l := rows p in
  Forall (fun r =>
            match stored (Dict pd) (word ++ ":" ++ tag_of r) with
            | Some v => prob_of r = (inject_Z v / 1000000)%Q
            | None => prob_of r = (inject_Z 0 / 1000000)%Q
                      /\ (prob_of r == 0)%Q
            end) l
  /\ (Exists (fun r => (0 < prob_of r)%Q) l ->
      exists l',
        Parse st word = Ok (map word_of l', map norm_of l', map tag_of l')
        /\ Permutation l' l
        /\ StronglySorted (fun a b => (prob_of b <= prob_of a)%Q) l'
        /\ (forall q, filter (has_weight q) l' = filter (has_weight q) l))
  /\ (Forall (fun r => (prob_of r <= 0)%Q) l ->
      Parse st word = Ok (parse.words p, parse.norms p, parse.tags p)).
Proof.
  intros Hpd Hwd Hc l.
  destruct (@Parse_collect_invariant _ _ _ _ _ Hc) as (A & W & E).
  pose proof (of_rows_rows A) as Hp. fold l in Hp.
  assert (Hh : h = true <-> Exists (fun r => (0 < prob_of r)%Q) l).
  { rewrite E, <- Hp. apply existsb_positive. }
  assert (HP : Parse st word
               = bind (if h then gosort.Stable parse.Interface p else Ok p)
                   (fun p => Ok (parse.words p, parse.norms p, parse.tags p))).
  { unfold Parse. rewrite Hpd, Hwd; cbn [deref bind]. now rewrite Hc. }
  split; [|split].
  - assert (F : Forall (fun r => prob_of r = weight pd word (tag_of r)) l).
    { apply rows_weights. rewrite <- Hp in W. exact W. }
    eapply Forall_impl; [|exact F]. intros r Hr. cbn beta in Hr.
    unfold weight, find in Hr.
    destruct (stored (Dict pd) (word ++ ":" ++ tag_of r)); [exact Hr|].
    split; [exact Hr|]. rewrite Hr. reflexivity.
  - intros Hex. apply Hh in Hex.
    exists (stable_rows l).
    destruct (stable_rows_spec l) as (P & S & F).
    repeat split; auto.
    rewrite HP, Hex, <- Hp, Stable_rows. reflexivity.
  - intros Hall. rewrite HP.
    destruct h; [|reflexivity].
    exfalso. destruct Hh as [Hh _]. specialize (Hh eq_refl).
    apply Exists_exists in Hh as (r & Hr & Hq).
    rewrite Forall_forall in Hall. specialize (Hall r Hr).
    eapply Qlt_not_le; eauto.
Qed.

(** On the small dictionary: the index stores 300000 for the animate
    reading of "кошка" and 700000 for the inanimate one, the traversal
    finds the animate reading first, and [Parse] returns the inanimate
    one first. *)
Lemma Parse_ranking_witness :
  let anim := ("кошка", "кошка", "NOUN,anim,femn sing,nomn",
               (inject_Z 300000 / 1000000)%Q) in
  let inan := ("кошка", "кошка", "NOUN,inan,femn sing,nomn",
               (inject_Z 700000 / 1000000)%Q) in
  Parse_collect Demo.loaded Demo.probabilities Demo.lexicon "кошка"
  = Ok (of_rows [anim; inan], true)
  /\ Exists (fun r => (0 < prob_of r)%Q) [anim; inan]
  /\ Parse Demo.loaded "кошка"
     = Ok (["кошка"; "кошка"], ["кошка"; "кошка"],
           ["NOUN,inan,femn sing,nomn"; "NOUN,anim,femn sing,nomn"]).
Proof.
  intros anim inan.
  assert (Hc : Parse_collect Demo.loaded Demo.probabilities Demo.lexicon
                 "кошка" = Ok (of_rows [anim; inan], true)) by reflexivity.
  assert (Hex : Exists (fun r => (0 < prob_of r)%Q) [anim; inan]).
  { constructor. vm_compute. reflexivity. }
  split; [exact Hc|]. split; [exact Hex|].
  destruct (@Parse_ranking Demo.loaded Demo.probabilities Demo.lexicon
              "кошка" (of_rows [anim; inan]) true eq_refl eq_refl Hc)
    as (_ & Hsorted & _).
  rewrite rows_of_rows in Hsorted.
  destruct (Hsorted Hex) as (l' & HP & Hperm & Hs & _).
  apply Permutation_sym, Permutation_length_2_inv in Hperm.
  destruct Hperm as [-> | ->].
  - exfalso. inversion Hs as [|? ? _ Hf]; subst.
    inversion Hf as [|? ? Hle _]; subst.
    apply Qle_bool_iff in Hle. vm_compute in Hle. discriminate Hle.
  - exact HP.
Defined.

(** ** Splitting at a separator *)

Module split_facts.
Import strings strings_facts.

Lemma slice_to_0 (s : string) : slice_to 0 s = "".
Proof. apply substring_0_0. Qed.

Lemma slice_to_S (n : nat) (c : ascii) (s : string) :
  slice_to (S n) (String c s) = String c (slice_to n s).
Proof. reflexivity. Qed.

Lemma slice_from_S (n : nat) (c : ascii) (s : string) :
  slice_from (S n) (String c s) = slice_from n s.
Proof. reflexivity. Qed.

Lemma Index_bounds (s sep : string) : (-1 <= Index s sep)%Z.
Proof.
  induction s as [|c s IH]; simpl.
  - destruct (HasPrefix "" sep); lia.
  - destruct (HasPrefix (String c s) sep); [lia|].
    destruct (Index s sep <? 0)%Z eqn:E; [lia|]. apply Z.ltb_ge in E. lia.
Qed.

Lemma Index_eq (s sep : string) :
  Index s sep
  = if HasPrefix s sep then 0%Z
    else match s with
         | "" => (-1)%Z
         | String _ s' =>
             if (Index s' sep <? 0)%Z then (-1)%Z else (Index s' sep + 1)%Z
         end.
Proof. destruct s; reflexivity. Qed.

(** The string splits around the occurrence that [Index] finds. *)
Lemma Index_split (s sep : string) :
  (0 <= Index s sep)%Z ->
  s = slice_to (Z.to_nat (Index s sep)) s ++ sep
      ++ slice_from (Z.to_nat (Index s sep) + String.length sep) s.
Proof.
  induction s as [|c s IH]; rewrite Index_eq;
    destruct (HasPrefix _ sep) eqn:P; try lia.
  - intros _. cbn [Z.to_nat Nat.add]. rewrite slice_to_0.
    pose proof (HasPrefix_true _ _ P) as H. unfold TrimPrefix in H.
    now rewrite P in H.
  - intros _. cbn [Z.to_nat Nat.add]. rewrite slice_to_0.
    pose proof (HasPrefix_true _ _ P) as H. unfold TrimPrefix in H.
    now rewrite P in H.
  - destruct (Index s sep <? 0)%Z eqn:E; [lia|]. intros _.
    apply Z.ltb_ge in E. specialize (IH E).
    replace (Z.to_nat (Index s sep + 1)) with (S (Z.to_nat (Index s sep)))
      by lia.
    cbn [Nat.add]. rewrite slice_to_S, slice_from_S. cbn [append].
    f_equal. exact IH.
Qed.

Lemma Index_IndexByte (s : string) (c : ascii) :
  Index s (String c "") = IndexByte s c.
Proof.
  induction s as [|b s IH]; [reflexivity|].
  cbn [Index IndexByte]. rewrite IH.
  unfold HasPrefix. cbn [String.length Nat.leb andb slice_to substring].
  rewrite substring_0_0. cbn [String.eqb].
  destruct (Ascii.eqb b c); reflexivity.
Qed.

(** [SplitN(s, sep, 2)] has one part, or two parts around [sep]. *)
Lemma SplitN_2 (s sep : string) :
  SplitN s sep 2 = [s]
  \/ exists l r, SplitN s sep 2 = [l; r] /\ s = l ++ sep ++ r.
Proof.
  unfold SplitN.
  destruct (Nat.min 2 (String.length s + 1) - 1)%nat as [|k] eqn:K.
  - now left.
  - assert (k = 0%nat) by lia. subst k. cbn [SplitN_loop].
    destruct (Index s sep <? 0)%Z eqn:E; [now left|].
    apply Z.ltb_ge in E. right. do 2 eexists. split; [reflexivity|].
    now apply Index_split.
Qed.

Lemma SplitN_hyphen (s : string) :
  IndexByte s "-" <> (-1)%Z ->
  exists l r, SplitN s "-" 2 = [l; r] /\ s = l ++ "-" ++ r.
Proof.
  intros H. destruct (SplitN_2 s "-") as [E|(l & r & E & Hs)]; [|eauto].
  exfalso. revert E. unfold SplitN. destruct s as [|c s]; [now simpl in H|].
  replace (Nat.min 2 (String.length (String c s) + 1) - 1)%nat with 1%nat
    by (cbn [String.length]; lia).
  cbn [SplitN_loop]. rewrite Index_IndexByte.
  pose proof (Index_bounds (String c s) "-") as B.
  rewrite Index_IndexByte in B.
  destruct (IndexByte (String c s) "-" <? 0)%Z eqn:L; [|discriminate].
  apply Z.ltb_lt in L. lia.
Qed.

End split_facts.

(** ** The recursion of [XParse]

    Two facts on [strings.ToLower] are assumed, both consequences of its
    rune-by-rune definition: a lowercased string is well-formed UTF-8
    made of lowercase runes, so what stands on either side of a hyphen in
    it, and what follows one of the known prefixes in it, is left
    unchanged by a second lowercasing. *)

Lemma particles_start_with_hyphen :
  Forall (fun p => exists x, p = "-" ++ x) particlesAfterHyphen.
Proof. repeat constructor; eexists; reflexivity. Qed.

Lemma knownPrefixes_not_empty :
  Forall (fun p => (0 < String.length p)%nat) knownPrefixes.
Proof.
  apply Forall_forall. intros p Hp.
  assert (H : forallb (fun p => (0 <? String.length p)%nat) knownPrefixes = true)
    by (vm_compute; reflexivity).
  rewrite forallb_forall in H. apply Nat.ltb_lt. now apply H.
Qed.

Lemma knownPrefixes_sorted :
  knownPrefixes = gosort.Slice knownPrefixes_less knownPrefixes_literal.
Proof. vm_compute. reflexivity. Qed.

Section XParse_equation.

Variable ToLower : string -> string.
Hypothesis ToLower_hyphen : forall s a b : string,
  ToLower s = a ++ "-" ++ b -> ToLower a = a /\ ToLower b = b.
Hypothesis ToLower_knownPrefix : forall s p b : string,
  In p knownPrefixes -> ToLower s = p ++ b -> ToLower b = b.
Variable st : globals.

Section Extensionality.

Variables r1 r2 : string -> result analyses.
Variable input : string.
Hypothesis agree : forall s : string,
  ToLower s = s ->
  (String.length s < String.length (ToLower input))%nat ->
  r1 s = r2 s.

Import strings strings_facts split_facts.

Lemma particle_ext (l : list string) :
  Forall (fun p => exists x, p = "-" ++ x) l ->
  HyphenSeparatedParticleAnalyzer r1 (ToLower input) l
  = HyphenSeparatedParticleAnalyzer r2 (ToLower input) l.
Proof.
  induction 1 as [|p l (x & ->) _ IH]; cbn [HyphenSeparatedParticleAnalyzer].
  - reflexivity.
  - destruct (HasSuffix (ToLower input) ("-" ++ x)) eqn:E; cbn [negb]; auto.
    pose proof (HasSuffix_true _ _ E) as Hw.
    rewrite agree.
    + destruct (r2 _) as [[[ws ns] ts]| |]; cbn [bind]; auto.
      destruct (0 <? List.length ws)%nat; auto.
    + exact (proj1 (@ToLower_hyphen _ _ _ Hw)).
    + rewrite Hw at 2. rewrite length_append. simpl. lia.
Qed.

Lemma adverb_ext (nRunes : nat) :
  HyphenAdverbAnalyzer r1 (ToLower input) nRunes
  = HyphenAdverbAnalyzer r2 (ToLower input) nRunes.
Proof.
  unfold HyphenAdverbAnalyzer.
  destruct ((5 <=? nRunes)%nat && HasPrefix (ToLower input) "по-") eqn:C; auto.
  apply andb_true_iff in C as [_ C].
  pose proof (HasPrefix_true _ _ C) as Hw.
  unfold from.
  destruct (5 <=? String.length (ToLower input))%nat; cbn [bind]; auto.
  assert (Hr : slice_from 5 (ToLower input) = TrimPrefix (ToLower input) "по-").
  { unfold TrimPrefix. now rewrite C. }
  rewrite Hr, agree; auto.
  - exact (proj2 (@ToLower_hyphen input "по" _ Hw)).
  - rewrite Hw at 2. rewrite length_append. simpl. lia.
Qed.

Lemma knownPrefix_ext (acc : analyses) :
  KnownPrefixAnalyzer r1 (ToLower input) acc
  = KnownPrefixAnalyzer r2 (ToLower input) acc.
Proof.
  unfold KnownPrefixAnalyzer. apply for_range_ext.
  intros p a Hp. unfold KnownPrefixAnalyzer_step.
  destruct (HasPrefix (ToLower input) p) eqn:C; cbn [negb]; auto.
  destruct (utf8.RuneCountInString _ <? 3)%nat; auto.
  pose proof (HasPrefix_true _ _ C) as Hw.
  rewrite agree; auto.
  - eapply ToLower_knownPrefix; eauto.
  - pose proof knownPrefixes_not_empty as NE. rewrite Forall_forall in NE.
    specialize (NE p Hp). rewrite Hw at 2. rewrite length_append. lia.
Qed.

Lemma hyphenated_ext (acc : analyses) :
  HyphenatedWordsAnalyzer r1 (ToLower input) acc
  = HyphenatedWordsAnalyzer r2 (ToLower input) acc.
Proof.
  unfold HyphenatedWordsAnalyzer.
  destruct (SplitN_2 (ToLower input) "-") as [E|(l & r & E & Hw)]; rewrite E.
  - reflexivity.
  - cbn [at_index nth_error bind].
    destruct (@ToLower_hyphen _ _ _ Hw) as [Hl Hr].
    assert (Ll : (String.length l < String.length (ToLower input))%nat).
    { rewrite Hw, !length_append. simpl. lia. }
    assert (Lr : (String.length r < String.length (ToLower input))%nat).
    { rewrite Hw, !length_append. simpl. lia. }
    rewrite (agree Hl Ll), (agree Hr Lr). reflexivity.
Qed.

Lemma XParse_body_ext :
  XParse_body ToLower st r1 input = XParse_body ToLower st r2 input.
Proof.
  unfold XParse_body.
  destruct (Parse st (ToLower input)) as [[[ws ns] ts]| |]; cbn [bind];
    [|reflexivity|reflexivity].
  destruct (0 <? List.length ws)%nat; [reflexivity|].
  rewrite (particle_ext particles_start_with_hyphen), adverb_ext.
  destruct (if negb _ then _ else _) as [[res|]| |]; cbn [bind];
    [reflexivity| |reflexivity|reflexivity].
  destruct (HyphenAdverbAnalyzer r2 _ _) as [[res|]| |]; cbn [bind];
    [reflexivity| |reflexivity|reflexivity].
  rewrite knownPrefix_ext.
  destruct (KnownPrefixAnalyzer r2 _ _) as [[[ws' ns'] ts']| |]; cbn [bind];
    [|reflexivity|reflexivity].
  destruct (0 <? List.length ws')%nat; [reflexivity|].
  rewrite hyphenated_ext. reflexivity.
Qed.

End Extensionality.

Lemma XParse_fuel_stable (fuel1 fuel2 : nat) (word : string) :
  (String.length (ToLower word) < fuel1)%nat ->
  (String.length (ToLower word) < fuel2)%nat ->
  XParse_fuel ToLower st fuel1 word = XParse_fuel ToLower st fuel2 word.
Proof.
  revert fuel2 word; induction fuel1 as [|fuel1 IH]; intros fuel2 word H1 H2;
    [lia|].
  destruct fuel2 as [|fuel2]; [lia|]. cbn [XParse_fuel].
  apply XParse_body_ext. intros s Hs Hl. apply IH; rewrite Hs; lia.
Qed.

(** The defining equation of [XParse]: the body, calling [XParse]. *)
Lemma XParse_unfold (word : string) :
  XParse ToLower st word = XParse_body ToLower st (XParse ToLower st) word.
Proof.
  unfold XParse at 1. cbn [XParse_fuel].
  apply XParse_body_ext. intros s Hs Hl. unfold XParse.
  apply XParse_fuel_stable; rewrite Hs; lia.
Qed.

(** [XParse] is the only function that satisfies its equation. *)
Lemma XParse_unique (f : string -> result analyses) :
  (forall word, f word = XParse_body ToLower st f word) ->
  forall word, f word = XParse ToLower st word.
Proof.
  intros Hf word.
  remember (String.length (ToLower word)) as n eqn:Hn.
  revert word Hn. induction n as [n IH] using lt_wf_ind. intros word Hn.
  rewrite Hf, XParse_unfold. apply XParse_body_ext.
  intros s Hs Hl. apply (IH (String.length (ToLower s))); auto.
  rewrite Hs. lia.
Qed.

End XParse_equation.

(** ** Dictionary precedence *)

(** C1. When the dictionary analyzer finds the lowercased word, [XParse]
    returns exactly what [Parse] returns for the lowercased word, whatever
    the fallback strategies would do: the body does not depend on the
    function it would call on the parts of the word. *)
Theorem dictionary_precedence (ToLower : string -> string) (st : globals)
  (w : string) (words norms tags : list string) :
  Parse st (ToLower w) = Ok (words, norms, tags) ->
  (0 < List.length words)%nat ->
  XParse ToLower st w = Parse st (ToLower w)
  /\ forall self, XParse_body ToLower st self w = Parse st (ToLower w).
Proof.
  intros HP Hlen.
  assert (G : forall self, XParse_body ToLower st self w = Parse st (ToLower w)).
  { intros self. unfold XParse_body. rewrite HP; cbn [bind].
    apply Nat.ltb_lt in Hlen. now rewrite Hlen. }
  split; [|exact G]. unfold XParse. cbn [XParse_fuel]. apply G.
Qed.

Lemma dictionary_precedence_witness :
  Parse Demo.loaded (Demo.ToLower "PDF")
  = Ok (["pdf"], ["pdf"], ["NOUN,inan,masc sing,nomn"])
  /\ XParse Demo.ToLower Demo.loaded "PDF"
     = Parse Demo.loaded (Demo.ToLower "PDF")
  /\ forall self,
       XParse_body Demo.ToLower Demo.loaded self "PDF"
       = Parse Demo.loaded (Demo.ToLower "PDF").
Proof.
  split; [reflexivity|].
  exact (@dictionary_precedence Demo.ToLower Demo.loaded "PDF"
           ["pdf"] ["pdf"] ["NOUN,inan,masc sing,nomn"]
           eq_refl (Nat.lt_0_succ 0)).
Defined.

(** ** Decoding well-formed data never leaves a table *)

Lemma at_index_nth {A : Type} (l : list A) (i : nat) (d : A) :
  (i < List.length l)%nat -> at_index l i = Ok (nth i l d).
Proof.
  intros H. unfold at_index. now rewrite (nth_error_nth' l d H).
Qed.

Lemma at_int_nth {A : Type} (l : list A) (i : Z) (d : A) :
  (0 <= i < Z.of_nat (List.length l))%Z ->
  at_int l i = Ok (nth (Z.to_nat i) l d).
Proof.
  intros H. unfold at_int.
  destruct (i <? 0)%Z eqn:E; [apply Z.ltb_lt in E; lia|].
  apply at_index_nth. lia.
Qed.

Lemma in_table_at_int {A : Type} (l : list A) (i : Z) (d : A) :
  in_table l i = true -> at_int l i = Ok (nth (Z.to_nat i) l d).
Proof.
  unfold in_table. intros H. apply andb_true_iff in H as [H1 H2].
  apply at_int_nth. apply Z.leb_le in H1. apply Z.ltb_lt in H2. lia.
Qed.

Lemma byte_val_nonneg (b : byte) : (0 <= binary.byte_val b)%Z.
Proof. unfold binary.byte_val. lia. Qed.

Lemma field_nonneg (v : list byte) (off : nat) : (0 <= field v off)%Z.
Proof.
  unfold field. apply Z.lor_nonneg. split.
  - apply byte_val_nonneg.
  - apply Z.shiftl_nonneg, byte_val_nonneg.
Qed.

Lemma Uint16_field (v : list byte) (off : nat) :
  (off + 2 <= List.length v)%nat ->
  binary.bytes_from off v = Ok (skipn off v)
  /\ binary.BigEndian_Uint16 (skipn off v) = Ok (field v off).
Proof.
  intros H. split.
  - unfold binary.bytes_from.
    destruct (off <=? List.length v)%nat eqn:E; auto.
    apply Nat.leb_gt in E. lia.
  - unfold binary.BigEndian_Uint16, field.
    rewrite (at_index_nth _ Byte.x00), (at_index_nth _ Byte.x00);
      try (rewrite length_skipn; lia).
    cbn [bind]. rewrite !nth_skipn. now rewrite Nat.add_0_r.
Qed.

Lemma forms_bound (para : list Z) : (3 * forms para <= List.length para)%nat.
Proof. unfold forms. apply Nat.Div0.mul_div_le. Qed.

Lemma forms_Z (para : list Z) :
  (Z.of_nat (List.length para) / 3)%Z = Z.of_nat (forms para).
Proof. unfold forms. now rewrite Nat2Z.inj_div. Qed.

Lemma prefixSuffixTag_wf (st : globals) (para : list Z) (i : Z) :
  wf_paradigm st para = true ->
  (0 <= i < Z.of_nat (forms para))%Z ->
  exists p s t, prefixSuffixTag st para i = Ok (p, s, t).
Proof.
  intros W Hi. unfold wf_paradigm in W. rewrite forallb_forall in W.
  specialize (W (Z.to_nat i)). rewrite in_seq in W.
  specialize (W ltac:(lia)).
  apply andb_true_iff in W as [W Wp]. apply andb_true_iff in W as [Ws Wt].
  pose proof (forms_bound para) as B.
  unfold prefixSuffixTag. rewrite forms_Z.
  rewrite (at_int_nth para 0%Z) by lia. cbn [bind].
  rewrite (at_int_nth para 0%Z) by lia. cbn [bind].
  rewrite (at_int_nth para 0%Z) by lia. cbn [bind].
  replace (Z.to_nat (i + Z.of_nat (forms para)))
    with (Z.to_nat i + forms para)%nat by lia.
  replace (Z.to_nat (i + 2 * Z.of_nat (forms para)))
    with (Z.to_nat i + 2 * forms para)%nat by lia.
  rewrite (in_table_at_int _ _ "" Wp). cbn [bind].
  rewrite (in_table_at_int _ _ "" Ws). cbn [bind].
  rewrite (in_table_at_int _ _ "" Wt). cbn [bind].
  eauto.
Qed.

(** The fields of a well-formed payload decode to a paradigm of the table
    and one of its forms. *)
Lemma payload_wf (st : globals) (off : nat) (v : list byte) :
  forallb (wf_paradigm st) (paradigms st) = true ->
  wf_payload st off v = true ->
  exists para,
    at_int (paradigms st) (field v off) = Ok para
    /\ wf_paradigm st para = true
    /\ (0 <= field v (off + 2) < Z.of_nat (forms para))%Z
    /\ (off + 4 <= List.length v)%nat.
Proof.
  intros Wp W. unfold wf_payload in W.
  apply andb_true_iff in W as [L W]. apply Nat.leb_le in L.
  destruct (nth_error (paradigms st) (Z.to_nat (field v off))) as [para|] eqn:E;
    [|discriminate].
  exists para. repeat split; auto.
  - unfold at_int, at_index.
    pose proof (field_nonneg v off) as N.
    destruct (field v off <? 0)%Z eqn:C; [apply Z.ltb_lt in C; lia|].
    now rewrite E.
  - rewrite forallb_forall in Wp. apply Wp. eapply nth_error_In; eauto.
  - apply field_nonneg.
  - now apply Z.ltb_lt.
Qed.

Lemma normalForm_wf (st : globals) (para : list Z) (i : Z)
  (prefix suffix k : string) :
  wf_paradigm st para = true ->
  (0 <= i < Z.of_nat (forms para))%Z ->
  exists norm, normalForm st para i prefix suffix k = Ok norm.
Proof.
  intros W Hi. unfold normalForm.
  destruct (i =? 0)%Z; cbn [negb]; [eauto|].
  destruct (@prefixSuffixTag_wf st para 0%Z W ltac:(lia)) as (p & s & t & ->).
  cbn [bind]. eauto.
Qed.

(** ** [Parse] returns aligned slices *)

Lemma Parse_payload_Ok (st : globals) (pd : dawg) (word k : string)
  (v : list byte) (acc : parse.t * bool) :
  forallb (wf_paradigm st) (paradigms st) = true ->
  wf_payload st 0 v = true ->
  exists acc', Parse_payload st pd word k v acc = Ok acc'.
Proof.
  intros Wp Wv. destruct acc as [p h].
  destruct (@payload_wf st 0%nat v Wp Wv) as (para & Hpara & Wpara & Hi & L).
  destruct (@Uint16_field v 0%nat ltac:(lia)) as [_ H0].
  destruct (@Uint16_field v 2%nat ltac:(lia)) as [H2 H2'].
  cbn [skipn] in H0. cbn [Nat.add] in Hi.
  unfold Parse_payload. rewrite H0; cbn [bind]. rewrite Hpara; cbn [bind].
  rewrite H2; cbn [bind]. rewrite H2'; cbn [bind].
  destruct (@prefixSuffixTag_wf st para _ Wpara Hi) as (pr & su & t & ->).
  cbn [bind].
  destruct (@normalForm_wf st para _ pr su k Wpara Hi) as (norm & ->).
  cbn [bind]. eauto.
Qed.

Lemma Parse_collect_Ok (st : globals) (pd wd : dawg) (word : string) :
  forallb (wf_paradigm st) (paradigms st) = true ->
  wf_dawg st 0 wd ->
  exists acc, Parse_collect st pd wd word = Ok acc.
Proof.
  intros Wp Wd. unfold Parse_collect.
  destruct (@for_range_invariant item (parse.t * bool) (fun _ => True)
              (fun it => forallb (wf_payload st 0) (values it) = true)
              (Parse_item st pd word) (similarItems wd word))
    with (s := (empty_parse, false)) as (acc & H & _); eauto.
  - intros it s Hit _. unfold Parse_item.
    destruct (@for_range_invariant (list byte) (parse.t * bool) (fun _ => True)
                (fun v => wf_payload st 0 v = true)
                (Parse_payload st pd word (key it)) (values it))
      with (s := s) as (acc & H & _); eauto.
    + intros v t Hv _.
      destruct (@Parse_payload_Ok st pd word (key it) v t Wp Hv) as (t' & ->).
      eauto.
    + apply Forall_forall. rewrite forallb_forall in Hit. exact Hit.
  - apply Forall_forall. intros it Hin. eapply Wd; eauto.
Qed.

Lemma Parse_aligned (st : globals) (word : string) (a : analyses) :
  Parse st word = Ok a -> aligned a.
Proof.
  unfold Parse. destruct (probDAWG st) as [pd|]; [|discriminate].
  intros H. apply bind_Ok_inv in H as (wd & _ & H).
  apply bind_Ok_inv in H as ([p h] & Hc & H).
  apply bind_Ok_inv in H as (p' & Hs & H). inversion H; subst; clear H.
  destruct (@Parse_collect_invariant _ _ _ _ _ Hc) as (A & _ & _).
  assert (A' : aligned4 p').
  { destruct h.
    - rewrite <- (of_rows_rows A), Stable_rows in Hs. inversion Hs.
      apply aligned4_of_rows.
    - now inversion Hs; subst. }
  destruct A' as (An & At & _). now split.
Qed.

Lemma Parse_good (st : globals) (word : string) :
  wf st -> good (Parse st word).
Proof.
  intros (Wp & Hpd & (wd & Hwd & Wd) & _).
  destruct (Parse st word) as [a| |] eqn:E.
  - exists a. split; auto. eapply Parse_aligned; eauto.
  - exfalso. revert E. unfold Parse.
    destruct (probDAWG st) as [pd|]; [|congruence].
    rewrite Hwd; cbn [deref bind].
    destruct (@Parse_collect_Ok st pd wd word Wp Wd) as ([p h] & Hc).
    rewrite Hc; cbn [bind].
    destruct (@Parse_collect_invariant _ _ _ _ _ Hc) as (A & _ & _).
    destruct h; [|discriminate].
    rewrite <- (of_rows_rows A), Stable_rows. discriminate.
  - exfalso. revert E. unfold Parse.
    destruct (probDAWG st) as [pd|]; [|congruence].
    rewrite Hwd; cbn [deref bind].
    destruct (@Parse_collect_Ok st pd wd word Wp Wd) as ([p h] & Hc).
    rewrite Hc; cbn [bind].
    destruct (@Parse_collect_invariant _ _ _ _ _ Hc) as (A & _ & _).
    destruct h; [|discriminate].
    rewrite <- (of_rows_rows A), Stable_rows. discriminate.
Qed.

(** ** The strategies of [XParse] return aligned slices *)

Lemma at_index_middle {A : Type} (pre post : list A) (x : A) :
  at_index (pre ++ x :: post)%list (List.length pre) = Ok x.
Proof.
  unfold at_index. rewrite nth_error_app2 by lia.
  now rewrite Nat.sub_diag.
Qed.

Lemma update_middle {A : Type} (pre post : list A) (x y : A) :
  update (pre ++ x :: post)%list (List.length pre) y = (pre ++ y :: post)%list.
Proof. induction pre as [|z pre IH]; simpl; congruence. Qed.

Lemma reattach_loop (suffix : string) (rw : list string) :
  forall dw dn rn : list string,
    List.length dw = List.length dn ->
    List.length rw = List.length rn ->
    for_range (reattach_at suffix) (seq (List.length dw) (List.length rw))
      ((dw ++ rw)%list, (dn ++ rn)%list)
    = Ok ((dw ++ map (fun w => (w ++ suffix)%string) rw)%list,
          (dn ++ map (fun n => (n ++ suffix)%string) rn)%list).
Proof.
  induction rw as [|x rw IH]; intros dw dn [|y rn] Hd Hr; try discriminate.
  - reflexivity.
  - cbn [List.length seq for_range map]. unfold reattach_at at 1.
    rewrite at_index_middle; cbn [bind]. rewrite update_middle.
    rewrite Hd, at_index_middle; cbn [bind]. rewrite update_middle.
    specialize (IH (dw ++ [(x ++ suffix)%string])%list
                   (dn ++ [(y ++ suffix)%string])%list rn).
    rewrite !length_app in IH. cbn [List.length] in IH.
    rewrite <- !app_assoc in IH. cbn [app] in IH.
    rewrite <- Hd. replace (S (List.length dw)) with (List.length dw + 1)%nat
      by lia.
    apply IH; simpl in *; lia.
Qed.

(** On aligned slices the loop that puts the particle back appends it to
    every word and every normal form. *)
Lemma reattach_map (suffix : string) (ws ns : list string) :
  List.length ns = List.length ws ->
  reattach suffix ws ns
  = Ok (map (fun w => w ++ suffix) ws, map (fun n => n ++ suffix) ns).
Proof.
  intros H. unfold reattach.
  exact (@reattach_loop suffix ws [] [] ns eq_refl (eq_sym H)).
Qed.

Lemma enumerate_bound {A : Type} (l : list A) :
  Forall (fun it => (fst it < List.length l)%nat /\ nth_error l (fst it) = Some (snd it))
    (enumerate l).
Proof.
  apply Forall_forall. intros [i x] H. apply In_enumerate in H.
  simpl. split; auto. apply nth_error_Some. congruence.
Qed.

Section Strategies.

Variable st : globals.
Variable self : string -> result analyses.
Hypothesis self_good : forall s, good (self s).

Lemma particle_good (word : string) (l : list string) :
  good_option (HyphenSeparatedParticleAnalyzer self word l).
Proof.
  induction l as [|suffix l IH]; cbn [HyphenSeparatedParticleAnalyzer].
  - exists None. split; [reflexivity|discriminate].
  - destruct (strings.HasSuffix word suffix); cbn [negb]; auto.
    destruct (self_good (strings.TrimSuffix word suffix))
      as ([[ws ns] ts] & -> & An & At).
    cbn [bind]. destruct (0 <? List.length ws)%nat; auto.
    rewrite (reattach_map suffix ws ns An); cbn [bind].
    eexists; split; [reflexivity|]. intros a Ha. inversion Ha; subst.
    unfold aligned. now rewrite !length_map.
Qed.

Lemma firstDativeAdjective_good (ws : list string) (indexed : list (nat * string)) :
  Forall (fun it => (fst it < List.length ws)%nat) indexed ->
  good_option (firstDativeAdjective ws indexed).
Proof.
  induction 1 as [|[i tag] indexed Hi _ IH]; cbn [firstDativeAdjective].
  - exists None. split; [reflexivity|discriminate].
  - destruct (negb _ || negb _); auto.
    simpl in Hi. destruct (at_index_Ok ws Hi) as (w & -> & _). cbn [bind].
    eexists; split; [reflexivity|]. intros a Ha. inversion Ha; subst.
    now split.
Qed.

Lemma adverb_good (word : string) (nRunes : nat) :
  good_option (HyphenAdverbAnalyzer self word nRunes).
Proof.
  unfold HyphenAdverbAnalyzer.
  destruct ((5 <=? nRunes)%nat && strings.HasPrefix word "по-") eqn:C.
  - apply andb_true_iff in C as [_ C].
    unfold strings.HasPrefix in C. apply andb_true_iff in C as [C _].
    unfold strings.from. cbn [String.length] in C. rewrite C; cbn [bind].
    destruct (self_good (strings.slice_from 5 word))
      as ([[ws ns] ts] & -> & An & At).
    cbn [bind]. apply firstDativeAdjective_good.
    eapply Forall_impl; [|apply enumerate_bound]. intros it [H _]. lia.
  - exists None. split; [reflexivity|discriminate].
Qed.

Lemma keepProductive_good (prefix : string) (ws ns ts : list string)
  (acc : analyses) :
  aligned (ws, ns, ts) -> aligned acc ->
  good (keepProductive prefix ws ns ts acc).
Proof.
  intros [An At] Hacc. unfold keepProductive, good.
  apply for_range_invariant
    with (Q := fun it : nat * string => (fst it < List.length ts)%nat); auto.
  - intros [i tag] [[words norms] tags] Hi [Hn Ht]. simpl in Hi.
    destruct (negb (productive tag)).
    + eexists; split; [reflexivity|]. now split.
    + destruct (@at_index_Ok _ ws i ltac:(lia)) as (w & -> & _).
      destruct (@at_index_Ok _ ns i ltac:(lia)) as (n & -> & _).
      destruct (@at_index_Ok _ ts i ltac:(lia)) as (t & -> & _).
      cbn [bind]. eexists; split; [reflexivity|].
      unfold aligned. rewrite !length_push. lia.
  - eapply Forall_impl; [|apply enumerate_bound]. intros it [H _]. exact H.
Qed.

Lemma KnownPrefixAnalyzer_good (word : string) (acc : analyses) :
  aligned acc -> good (KnownPrefixAnalyzer self word acc).
Proof.
  intros Hacc. unfold KnownPrefixAnalyzer, good.
  apply for_range_invariant with (Q := fun _ => True); auto.
  - intros prefix a _ Ha. unfold KnownPrefixAnalyzer_step.
    destruct (negb _); [eauto|].
    destruct (_ <? 3)%nat; [eauto|].
    destruct (self_good (strings.TrimPrefix word prefix))
      as ([[ws ns] ts] & -> & Hal).
    cbn [bind]. now apply keepProductive_good.
  - apply Forall_forall; auto.
Qed.

Lemma agreement_good (lwords lnorms rwords rnorms rtags : list string)
  (i : nat) (tag leftFeat : string) (acc : analyses) :
  (i < List.length lwords)%nat ->
  List.length lnorms = List.length lwords ->
  List.length rnorms = List.length rwords ->
  List.length rtags = List.length rwords ->
  aligned acc ->
  good (for_range
          (agreement lwords lnorms rwords rnorms
             (map similarityFeatures rtags) i tag leftFeat)
          (seq 0 (List.length rtags)) acc).
Proof.
  intros Hi Hln Hrn Hrt Hacc. unfold good.
  apply for_range_invariant
    with (Q := fun j : nat => (j < List.length rtags)%nat); auto.
  - intros j [[words norms] tags] Hj [Hn Ht]. unfold agreement.
    destruct (@at_index_Ok _ (map similarityFeatures rtags) j
                ltac:(rewrite length_map; lia)) as (rf & -> & _).
    cbn [bind]. destruct (negb (leftFeat =? rf)).
    + eexists; split; [reflexivity|]. now split.
    + destruct (@at_index_Ok _ lwords i ltac:(lia)) as (lw & -> & _).
      destruct (@at_index_Ok _ rwords j ltac:(lia)) as (rw & -> & _).
      destruct (@at_index_Ok _ lnorms i ltac:(lia)) as (ln & -> & _).
      destruct (@at_index_Ok _ rnorms j ltac:(lia)) as (rn & -> & _).
      cbn [bind]. eexists; split; [reflexivity|].
      unfold aligned. rewrite !length_push. lia.
  - apply Forall_forall. intros j Hj. apply in_seq in Hj. lia.
Qed.

Lemma fixedLeft_good (left : string) (rwords rnorms rtags : list string)
  (acc : analyses) :
  List.length rnorms = List.length rwords ->
  List.length rtags = List.length rwords ->
  aligned acc ->
  good (for_range (fixedLeft left rwords rnorms) (enumerate rtags) acc).
Proof.
  intros Hrn Hrt Hacc. unfold good.
  apply for_range_invariant
    with (Q := fun it : nat * string => (fst it < List.length rtags)%nat); auto.
  - intros [i tag] [[words norms] tags] Hi [Hn Ht]. simpl in Hi.
    unfold fixedLeft.
    destruct (@at_index_Ok _ rwords i ltac:(lia)) as (rw & -> & _).
    destruct (@at_index_Ok _ rnorms i ltac:(lia)) as (rn & -> & _).
    cbn [bind]. eexists; split; [reflexivity|].
    unfold aligned. rewrite !length_push. lia.
  - eapply Forall_impl; [|apply enumerate_bound]. intros it [H _]. exact H.
Qed.

Lemma HyphenatedWordsAnalyzer_good (word : string) (acc : analyses) :
  strings.IndexByte word "-" <> (-1)%Z ->
  aligned acc ->
  good (HyphenatedWordsAnalyzer self word acc).
Proof.
  intros Hh Hacc. unfold HyphenatedWordsAnalyzer.
  destruct (split_facts.SplitN_hyphen word Hh) as (l & r & -> & _).
  cbn [at_index nth_error bind].
  destruct (self_good l) as ([[lwords lnorms] ltags] & -> & Hln & Hlt).
  destruct (self_good r) as ([[rwords rnorms] rtags] & -> & Hrn & Hrt).
  cbn [bind].
  match goal with
  | |- good (bind (for_range ?f ?l ?a) _) =>
      destruct (@for_range_invariant (nat * string) analyses aligned
                  (fun it => (fst it < List.length ltags)%nat) f l)
        with (s := a) as (acc1 & Hr & Hacc1); auto
  end.
  - intros [i tag] a Hi Ha. simpl in Hi.
    apply agreement_good; auto; lia.
  - eapply Forall_impl; [|apply enumerate_bound]. intros it [H _]. exact H.
  - rewrite Hr; cbn [bind]. now apply fixedLeft_good.
Qed.

Lemma wordSplits_pairs (s : string) (minRemainder maxPrefixLen : Z) :
  Forall (fun split => exists a b, split = [a; b])
    (wordSplits s minRemainder maxPrefixLen).
Proof.
  unfold wordSplits. destruct (_ <=? 0)%Z; [constructor|].
  apply Forall_forall. intros split H.
  apply in_map_iff in H as (i & <- & _). eauto.
Qed.

Hypothesis st_wf : wf st.

Lemma UnknownPrefixAnalyzer_good (word : string) (acc : analyses) :
  aligned acc -> good (UnknownPrefixAnalyzer st word acc).
Proof.
  intros Hacc. unfold UnknownPrefixAnalyzer, good.
  apply for_range_invariant
    with (Q := fun split : list string => exists a b, split = [a; b]); auto.
  - intros split a (x & y & ->) Ha. cbn [at_index nth_error bind].
    destruct (Parse_good y st_wf) as ([[ws ns] ts] & -> & Hal).
    cbn [bind]. now apply keepProductive_good.
  - apply wordSplits_pairs.
Qed.

Lemma collected_Ok (tag word norm : string) (words norms : list string)
  (indexed : list (nat * string)) :
  List.length norms = List.length words ->
  Forall (fun it => (fst it < List.length words)%nat) indexed ->
  exists b, collected tag word norm words norms indexed = Ok b.
Proof.
  intros Hn. induction 1 as [|[i t] indexed Hi _ IH]; cbn [collected].
  - eauto.
  - simpl in Hi. destruct (t =? tag); auto.
    destruct (@at_index_Ok _ words i Hi) as (w & -> & _). cbn [bind].
    destruct (w =? word); auto.
    destruct (@at_index_Ok _ norms i ltac:(lia)) as (n & -> & _). cbn [bind].
    destruct (n =? norm); eauto.
Qed.

Lemma predict_values_good (wordStart k : string) (vs : list (list byte)) :
  forallb (wf_payload st 2) vs = true ->
  forall acc : analyses * Z,
    aligned (fst acc) ->
    exists acc', predict_values st wordStart k vs acc = Ok acc'
                 /\ aligned (fst acc').
Proof.
  destruct st_wf as (Wp & _).
  induction vs as [|v vs IH]; intros Hvs [[[words norms] tags] total] Hacc;
    cbn [predict_values].
  - eauto.
  - cbn [forallb] in Hvs. apply andb_true_iff in Hvs as [Hv Hvs].
    specialize (IH Hvs).
    destruct (@payload_wf st 2%nat v Wp Hv) as (para & Hpara & Wpara & Hi & L).
    destruct (@Uint16_field v 0%nat ltac:(lia)) as [_ H0].
    destruct (@Uint16_field v 2%nat ltac:(lia)) as [H2 H2'].
    destruct (@Uint16_field v 4%nat ltac:(lia)) as [H4 H4'].
    cbn [skipn] in H0. cbn [Nat.add] in Hi.
    rewrite H0; cbn [bind]. rewrite H2; cbn [bind]. rewrite H2'; cbn [bind].
    rewrite Hpara; cbn [bind]. rewrite H4; cbn [bind]. rewrite H4'; cbn [bind].
    destruct (@prefixSuffixTag_wf st para _ Wpara Hi) as (pr & su & t & ->).
    cbn [bind]. destruct (negb (productive t)); [now apply IH|].
    destruct (@normalForm_wf st para _ pr su (wordStart ++ k) Wpara Hi)
      as (norm & ->).
    cbn [bind]. destruct Hacc as [Hn Ht]. cbn [fst] in Hn, Ht.
    destruct (@collected_Ok t (wordStart ++ k) norm words norms
                (enumerate tags) Hn) as (dup & ->).
    { eapply Forall_impl; [|apply enumerate_bound]. intros it [H _].
      cbn beta. lia. }
    cbn [bind]. destruct dup.
    + eexists; split; [reflexivity|]. now split.
    + apply IH. cbn [fst]. unfold aligned. rewrite !length_push. lia.
Qed.

Lemma predict_splits_good (d : dawg) (visited : list (string * string)) :
  wf_dawg st 2 d ->
  forall (acc : analyses) (total : Z),
    aligned acc -> good (predict_splits st (Some d) visited acc total).
Proof.
  intros Wd. induction visited as [|[wordStart wordEnd] visited IH];
    intros acc total Hacc; cbn [predict_splits deref bind].
  - exists acc; auto.
  - destruct (@for_range_invariant item (analyses * Z)
                (fun s => aligned (fst s))
                (fun it => forallb (wf_payload st 2) (values it) = true)
                (fun it => predict_values st wordStart (key it) (values it))
                (similarItems d wordEnd))
      with (s := (acc, total)) as ([acc1 total1] & -> & Hacc1); auto.
    + intros it s Hit Hs. now apply predict_values_good.
    + apply Forall_forall. intros it Hin. eapply Wd; eauto.
    + cbn [bind]. destruct (1 <? total1)%Z; [exists acc1; auto|].
      now apply IH.
Qed.

Lemma KnownSuffixAnalyzer_good (word : string) (acc : analyses) :
  aligned acc -> good (KnownSuffixAnalyzer st word acc).
Proof.
  intros Hacc. unfold KnownSuffixAnalyzer, good.
  apply for_range_invariant
    with (Q := fun it : nat * string =>
                 (fst it < List.length (prefixes st))%nat); auto.
  - intros [id prefix] a Hid Ha. simpl in Hid.
    destruct (negb _); [eauto|].
    destruct st_wf as (_ & _ & _ & Wpred).
    destruct (Wpred id Hid) as (d & Hd & Wd).
    unfold at_index. rewrite Hd; cbn [bind].
    now apply predict_splits_good.
  - eapply Forall_impl; [|apply enumerate_bound]. intros it [H _]. exact H.
Qed.

(** One unfolding of [XParse] returns aligned slices when the calls it
    makes do. *)
Lemma XParse_body_good (ToLower : string -> string) (word : string) :
  good (XParse_body ToLower st self word).
Proof.
  unfold XParse_body.
  destruct (Parse_good (ToLower word) st_wf) as ([[ws ns] ts] & -> & Hal).
  cbn [bind]. destruct (0 <? List.length ws)%nat; [eexists; eauto|].
  assert (Ha : good_option
                 (if negb (strings.IndexByte (ToLower word) "-" =? -1)%Z
                  then HyphenSeparatedParticleAnalyzer self (ToLower word)
                         particlesAfterHyphen
                  else Ok None)).
  { destruct (negb _); [apply particle_good|].
    exists None. split; [reflexivity|discriminate]. }
  destruct Ha as (oa & -> & Hoa). cbn [bind].
  destruct oa as [res|]; [exists res; auto|].
  destruct (adverb_good (ToLower word)
              (utf8.RuneCountInString (ToLower word))) as (ob & -> & Hob).
  cbn [bind]. destruct ob as [res|]; [exists res; auto|].
  destruct (@KnownPrefixAnalyzer_good (ToLower word) (ws, ns, ts) Hal)
    as ([[ws1 ns1] ts1] & -> & Hal1).
  cbn [bind]. destruct (0 <? List.length ws1)%nat; [eexists; eauto|].
  destruct (strings.IndexByte (ToLower word) "-" =? -1)%Z eqn:Hh; cbn [negb andb].
  - cbn [bind].
    destruct (@UnknownPrefixAnalyzer_good (ToLower word) _ Hal1)
      as (acc & -> & Hacc).
    cbn [bind]. destruct (4 <=? _)%nat; [|exists acc; auto].
    now apply KnownSuffixAnalyzer_good.
  - apply Z.eqb_neq in Hh.
    set (compound := ((strings.Count (ToLower word) "-" =? 1)%Z
                      && negb (strings.HasPrefix (ToLower word) "-")
                      && negb (strings.HasSuffix (ToLower word) "-"))).
    assert (Hd : exists acc,
               (if compound
                then HyphenatedWordsAnalyzer self (ToLower word) (ws1, ns1, ts1)
                else Ok (ws1, ns1, ts1)) = Ok acc /\ aligned acc).
    { destruct compound; [|eauto].
      now apply HyphenatedWordsAnalyzer_good. }
    destruct Hd as ([[ws2 ns2] ts2] & -> & Hal2). cbn [bind].
    destruct (compound && (0 <? List.length ws2)%nat); [eexists; eauto|].
    destruct (@UnknownPrefixAnalyzer_good (ToLower word) _ Hal2)
      as (acc & -> & Hacc).
    cbn [bind]. destruct (4 <=? _)%nat; [|exists acc; auto].
    now apply KnownSuffixAnalyzer_good.
Qed.

End Strategies.

(** ** [XParse] returns aligned slices *)

Section XParse_total.

Variable ToLower : string -> string.
Hypothesis ToLower_hyphen : forall s a b : string,
  ToLower s = a ++ "-" ++ b -> ToLower a = a /\ ToLower b = b.
Hypothesis ToLower_knownPrefix : forall s p b : string,
  In p knownPrefixes -> ToLower s = p ++ b -> ToLower b = b.
Variable st : globals.
Hypothesis st_wf : wf st.

Lemma XParse_good (word : string) : good (XParse ToLower st word).
Proof.
  remember (String.length (ToLower word)) as n eqn:Hn.
  revert word Hn. induction n as [n IH] using lt_wf_ind. intros word Hn.
  rewrite (@XParse_unfold ToLower ToLower_hyphen ToLower_knownPrefix st word).
  set (guarded := fun s =>
         if (ToLower s =? s) && (String.length s <? n)%nat
         then XParse ToLower st s else Ok ([], [], [])).
  rewrite (@XParse_body_ext ToLower ToLower_hyphen ToLower_knownPrefix st
             (XParse ToLower st) guarded word).
  - apply XParse_body_good; auto. intros s. unfold guarded.
    destruct (ToLower s =? s) eqn:E; cbn [andb].
    + destruct (String.length s <? n)%nat eqn:L.
      * apply Nat.ltb_lt in L. apply String.eqb_eq in E.
        apply (IH (String.length (ToLower s))); [rewrite E; lia|reflexivity].
      * eexists; split; [reflexivity|]. now split.
    + eexists; split; [reflexivity|]. now split.
  - intros s Hs Hl. unfold guarded.
    rewrite Hs, String.eqb_refl. cbn [andb].
    rewrite <- Hn in Hl. apply Nat.ltb_lt in Hl. now rewrite Hl.
Qed.

End XParse_total.

(** The lowercasing of the examples satisfies the two assumptions. *)

Lemma lower_byte_idempotent (c : ascii) :
  Demo.lower_byte (Demo.lower_byte c) = Demo.lower_byte c.
Proof.
  destruct c as [[] [] [] [] [] [] [] []]; reflexivity.
Qed.

Lemma Demo_ToLower_idempotent (s : string) :
  Demo.ToLower (Demo.ToLower s) = Demo.ToLower s.
Proof.
  induction s as [|c s IH]; simpl; [reflexivity|].
  now rewrite lower_byte_idempotent, IH.
Qed.

Lemma Demo_ToLower_append (a b : string) :
  Demo.ToLower (a ++ b) = Demo.ToLower a ++ Demo.ToLower b.
Proof. induction a as [|c a IH]; simpl; [reflexivity|]. now rewrite IH. Qed.

Lemma Demo_ToLower_length (s : string) :
  String.length (Demo.ToLower s) = String.length s.
Proof. induction s as [|c s IH]; simpl; congruence. Qed.

Lemma Demo_ToLower_parts (s a b : string) :
  Demo.ToLower s = a ++ b -> Demo.ToLower a = a /\ Demo.ToLower b = b.
Proof.
  intros H. pose proof (Demo_ToLower_idempotent s) as I.
  rewrite H, Demo_ToLower_append in I.
  apply strings_facts.append_inv_length in I; auto.
  apply Demo_ToLower_length.
Qed.

Lemma Demo_ToLower_hyphen (s a b : string) :
  Demo.ToLower s = a ++ "-" ++ b -> Demo.ToLower a = a /\ Demo.ToLower b = b.
Proof.
  intros H. destruct (Demo_ToLower_parts _ _ _ H) as [Ha Hb]. split; auto.
  change ("-" ++ b) with (String "-" b) in Hb. cbn [Demo.ToLower] in Hb.
  injection Hb as Hb. exact Hb.
Qed.

Lemma Demo_ToLower_knownPrefix (s p b : string) :
  In p knownPrefixes -> Demo.ToLower s = p ++ b -> Demo.ToLower b = b.
Proof. intros _ H. now destruct (Demo_ToLower_parts _ _ _ H). Qed.

(** The dictionary of the examples is well-formed. *)

Lemma items_of_In (table : list (string * list item)) (q : string) (it : item) :
  In it (Demo.items_of table q) -> exists k its, In (k, its) table /\ In it its.
Proof.
  induction table as [|[k its] table IH]; simpl; [tauto|].
  destruct (k =? q).
  - intros H. exists k, its. auto.
  - intros H. destruct (IH H) as (k' & its' & H1 & H2). exists k', its'. auto.
Qed.

Lemma table_wf (st : globals) (off : nat) (table : list (string * list item)) :
  forallb (fun e => forallb (fun it => forallb (wf_payload st off) (values it))
                      (snd e)) table = true ->
  wf_dawg st off (Demo.prediction table).
Proof.
  intros H q it Hin. apply items_of_In in Hin as (k & its & H1 & H2).
  rewrite forallb_forall in H. specialize (H _ H1). cbn [snd] in H.
  rewrite forallb_forall in H. now apply H.
Qed.

Lemma Demo_loaded_wf : wf Demo.loaded.
Proof.
  split; [vm_compute; reflexivity|]. split; [discriminate|]. split.
  - exists Demo.lexicon. split; [reflexivity|].
    intros q it Hin. apply items_of_In in Hin as (k & its & H1 & H2).
    assert (H : forallb
                  (fun e => forallb
                              (fun it => forallb (wf_payload Demo.loaded 0)
                                           (values it)) (snd e))
                  [Demo.entry "кошка" [Demo.form 7 0; Demo.form 0 0];
                   Demo.entry "кошки" [Demo.form 0 1];
                   Demo.entry "кошке" [Demo.form 0 2];
                   Demo.entry "как" [Demo.form 1 0; Demo.form 2 0; Demo.form 3 0];
                   Demo.entry "как-то" [Demo.form 4 0];
                   Demo.entry "западный" [Demo.form 5 0];
                   Demo.entry "западному" [Demo.form 5 1];
                   Demo.entry "смотреть" [Demo.form 6 0];
                   Demo.entry "смотри" [Demo.form 6 1];
                   Demo.entry "код" [Demo.form 8 0];
                   Demo.entry "pdf" [Demo.form 8 0]] = true)
      by (vm_compute; reflexivity).
    rewrite forallb_forall in H. specialize (H _ H1). cbn [snd] in H.
    rewrite forallb_forall in H. now apply H.
  - intros id Hid. cbn [Demo.loaded prefixes List.length] in Hid.
    destruct id as [|[|[|id]]]; try lia; eexists; (split; [reflexivity|]);
      apply table_wf; vm_compute; reflexivity.
Qed.

(** ** Whatever [XParse] returns is aligned

    This needs neither a well-formed dictionary nor the assumptions on
    [ToLower]: every strategy appends to the three slices together. *)

Ltac bind_inv H :=
  let x := fresh "x" in
  let E := fresh "E" in
  apply bind_Ok_inv in H as (x & E & H).

Lemma reattach_lengths (suffix : string) (ws ns ws' ns' : list string) :
  reattach suffix ws ns = Ok (ws', ns') ->
  List.length ws' = List.length ws /\ List.length ns' = List.length ns.
Proof.
  unfold reattach.
  apply for_range_preserves
    with (P := fun s : list string * list string =>
                 List.length (fst s) = List.length ws
                 /\ List.length (snd s) = List.length ns); [|simpl; auto].
  intros i [w n] [w' n'] _ [Hw Hn] H. unfold reattach_at in H.
  bind_inv H. bind_inv H. inversion H; subst. cbn [fst snd] in *.
  now rewrite !length_update.
Qed.

Section StrategiesPartial.

Variable st : globals.
Variable self : string -> result analyses.
Hypothesis self_aligned : forall s a, self s = Ok a -> aligned a.

Lemma particle_aligned (word : string) (l : list string) (a : analyses) :
  HyphenSeparatedParticleAnalyzer self word l = Ok (Some a) -> aligned a.
Proof.
  induction l as [|suffix l IH]; cbn [HyphenSeparatedParticleAnalyzer];
    [discriminate|].
  destruct (negb _); auto. intros H.
  apply bind_Ok_inv in H as ([[ws ns] ts] & E & H).
  destruct (0 <? List.length ws)%nat; auto.
  apply bind_Ok_inv in H as ([ws' ns'] & R & H). inversion H; subst.
  apply self_aligned in E as [En Et].
  apply reattach_lengths in R as [Rw Rn]. unfold aligned. lia.
Qed.

Lemma firstDativeAdjective_aligned (ws : list string)
  (indexed : list (nat * string)) (a : analyses) :
  firstDativeAdjective ws indexed = Ok (Some a) -> aligned a.
Proof.
  induction indexed as [|[i tag] indexed IH]; cbn [firstDativeAdjective];
    [discriminate|].
  destruct (negb _ || negb _); auto. intros H.
  bind_inv H. inversion H; subst. now split.
Qed.

Lemma adverb_aligned (word : string) (nRunes : nat) (a : analyses) :
  HyphenAdverbAnalyzer self word nRunes = Ok (Some a) -> aligned a.
Proof.
  unfold HyphenAdverbAnalyzer. destruct (_ && _); [|discriminate].
  intros H. bind_inv H.
  apply bind_Ok_inv in H as ([[ws ns] ts] & _ & H).
  eapply firstDativeAdjective_aligned; eauto.
Qed.

Lemma keepProductive_aligned (prefix : string) (ws ns ts : list string)
  (acc acc' : analyses) :
  aligned acc -> keepProductive prefix ws ns ts acc = Ok acc' -> aligned acc'.
Proof.
  unfold keepProductive. apply for_range_preserves.
  intros [i tag] [[words norms] tags] s' _ [Hn Ht] H.
  destruct (negb (productive tag)).
  - inversion H; subst. now split.
  - bind_inv H. bind_inv H. bind_inv H. inversion H; subst.
    unfold aligned. rewrite !length_push. lia.
Qed.

Lemma KnownPrefixAnalyzer_aligned (word : string) (acc acc' : analyses) :
  aligned acc -> KnownPrefixAnalyzer self word acc = Ok acc' -> aligned acc'.
Proof.
  unfold KnownPrefixAnalyzer. apply for_range_preserves.
  intros prefix a a' _ Ha H. unfold KnownPrefixAnalyzer_step in H.
  destruct (negb _); [now inversion H; subst|].
  destruct (_ <? 3)%nat; [now inversion H; subst|].
  apply bind_Ok_inv in H as ([[ws ns] ts] & _ & H).
  eapply keepProductive_aligned; eauto.
Qed.

Lemma agreement_aligned (lwords lnorms rwords rnorms rightFeatures : list string)
  (i : nat) (tag leftFeat : string) (j : nat) (acc acc' : analyses) :
  aligned acc ->
  agreement lwords lnorms rwords rnorms rightFeatures i tag leftFeat j acc
  = Ok acc' ->
  aligned acc'.
Proof.
  destruct acc as [[words norms] tags]. intros [Hn Ht] H.
  unfold agreement in H. bind_inv H.
  destruct (negb _); [inversion H; subst; now split|].
  bind_inv H. bind_inv H. bind_inv H. bind_inv H. inversion H; subst.
  unfold aligned. rewrite !length_push. lia.
Qed.

Lemma fixedLeft_aligned (left : string) (rwords rnorms : list string)
  (it : nat * string) (acc acc' : analyses) :
  aligned acc -> fixedLeft left rwords rnorms it acc = Ok acc' -> aligned acc'.
Proof.
  destruct it as [i tag], acc as [[words norms] tags]. intros [Hn Ht] H.
  unfold fixedLeft in H. bind_inv H. bind_inv H. inversion H; subst.
  unfold aligned. rewrite !length_push. lia.
Qed.

Lemma HyphenatedWordsAnalyzer_aligned (word : string) (acc acc' : analyses) :
  aligned acc -> HyphenatedWordsAnalyzer self word acc = Ok acc' -> aligned acc'.
Proof.
  intros Hacc H. unfold HyphenatedWordsAnalyzer in H.
  bind_inv H. bind_inv H.
  apply bind_Ok_inv in H as ([[lwords lnorms] ltags] & _ & H).
  apply bind_Ok_inv in H as ([[rwords rnorms] rtags] & _ & H).
  apply bind_Ok_inv in H as (acc1 & H1 & H).
  assert (Hacc1 : aligned acc1).
  { revert H1. apply for_range_preserves; auto.
    intros [i tag] a a' _ Ha. apply for_range_preserves; auto.
    intros j b b' _. apply agreement_aligned. }
  revert H. apply for_range_preserves; auto.
  intros it a a' _. apply fixedLeft_aligned.
Qed.

Lemma UnknownPrefixAnalyzer_aligned (word : string) (acc acc' : analyses) :
  aligned acc -> UnknownPrefixAnalyzer st word acc = Ok acc' -> aligned acc'.
Proof.
  unfold UnknownPrefixAnalyzer. apply for_range_preserves.
  intros split a a' _ Ha H. bind_inv H. bind_inv H.
  apply bind_Ok_inv in H as ([[ws ns] ts] & _ & H).
  eapply keepProductive_aligned; eauto.
Qed.

Lemma predict_values_aligned (wordStart k : string) (vs : list (list byte)) :
  forall acc acc' : analyses * Z,
    aligned (fst acc) ->
    predict_values st wordStart k vs acc = Ok acc' ->
    aligned (fst acc').
Proof.
  induction vs as [|v vs IH]; intros [[[words norms] tags] total] acc' Hacc H;
    cbn [predict_values] in H.
  - now inversion H; subst.
  - bind_inv H. bind_inv H. bind_inv H. bind_inv H. bind_inv H. bind_inv H.
    apply bind_Ok_inv in H as ([[pr su] t] & _ & H).
    destruct (negb (productive t)); [eapply IH; eauto|].
    bind_inv H. apply bind_Ok_inv in H as (dup & _ & H).
    destruct dup.
    + now inversion H; subst.
    + eapply IH; [|exact H]. destruct Hacc as [Hn Ht]. cbn [fst] in *.
      unfold aligned. rewrite !length_push. lia.
Qed.

Lemma predict_splits_aligned (d : option dawg)
  (visited : list (string * string)) :
  forall (acc : analyses) (total : Z) (acc' : analyses),
    aligned acc ->
    predict_splits st d visited acc total = Ok acc' -> aligned acc'.
Proof.
  induction visited as [|[wordStart wordEnd] visited IH];
    intros acc total acc' Hacc H; cbn [predict_splits] in H.
  - now inversion H; subst.
  - bind_inv H. apply bind_Ok_inv in H as ([acc1 total1] & H1 & H).
    assert (Hacc1 : aligned (fst (acc1, total1))).
    { revert H1.
      apply for_range_preserves with (P := fun s => aligned (fst s)); auto.
      intros it s s' _. apply predict_values_aligned. }
    destruct (1 <? total1)%Z; [now inversion H; subst|].
    eapply IH; eauto.
Qed.

Lemma KnownSuffixAnalyzer_aligned (word : string) (acc acc' : analyses) :
  aligned acc -> KnownSuffixAnalyzer st word acc = Ok acc' -> aligned acc'.
Proof.
  unfold KnownSuffixAnalyzer. apply for_range_preserves.
  intros [id prefix] a a' _ Ha H.
  destruct (negb _); [now inversion H; subst|].
  bind_inv H. eapply predict_splits_aligned; eauto.
Qed.

Lemma XParse_body_aligned (ToLower : string -> string) (word : string)
  (a : analyses) :
  XParse_body ToLower st self word = Ok a -> aligned a.
Proof.
  unfold XParse_body. intros H.
  apply bind_Ok_inv in H as ([[ws ns] ts] & HP & H).
  apply Parse_aligned in HP.
  destruct (0 <? List.length ws)%nat; [now inversion H; subst|].
  apply bind_Ok_inv in H as (oa & Ha & H).
  destruct oa as [res|].
  { inversion H; subst. destruct (negb _); [|discriminate].
    eapply particle_aligned; eauto. }
  apply bind_Ok_inv in H as (ob & Hb & H).
  destruct ob as [res|].
  { inversion H; subst. eapply adverb_aligned; eauto. }
  apply bind_Ok_inv in H as ([[ws1 ns1] ts1] & Hc & H).
  apply KnownPrefixAnalyzer_aligned in Hc; auto.
  destruct (0 <? List.length ws1)%nat; [now inversion H; subst|].
  apply bind_Ok_inv in H as ([[ws2 ns2] ts2] & Hd & H).
  assert (Hal2 : aligned (ws2, ns2, ts2)).
  { destruct (_ && _ && _ && _).
    - eapply HyphenatedWordsAnalyzer_aligned; [|exact Hd]. exact Hc.
    - now inversion Hd; subst. }
  destruct (_ && (0 <? List.length ws2)%nat); [now inversion H; subst|].
  apply bind_Ok_inv in H as (acc & He & H).
  apply UnknownPrefixAnalyzer_aligned in He; auto.
  destruct (4 <=? _)%nat.
  - eapply KnownSuffixAnalyzer_aligned; [|exact H]. exact He.
  - now inversion H; subst.
Qed.

End StrategiesPartial.

Lemma XParse_fuel_aligned (ToLower : string -> string) (st : globals)
  (fuel : nat) :
  forall word a, XParse_fuel ToLower st fuel word = Ok a -> aligned a.
Proof.
  induction fuel as [|fuel IH]; intros word a H; [discriminate|].
  cbn [XParse_fuel] in H. eapply XParse_body_aligned; eauto.
Qed.

(** ** Length invariant *)

(** What [Parse] returns are the fields of the candidates it has
    collected, one candidate per index, in some order. *)
Lemma Parse_candidates (st : globals) (pd wd : dawg) (word : string)
  (p : parse.t) (h : bool) :
  probDAWG st = Some pd ->
  wordsDAWG st = Some wd ->
  Parse_collect st pd wd word = Ok (p, h) ->
  exists l',
    Parse st word = Ok (map word_of l', map norm_of l', map tag_of l')
    /\ Permutation l' (rows p).
Proof.
  intros Hpd Hwd Hc.
  destruct (@Parse_collect_invariant _ _ _ _ _ Hc) as (A & _ & _).
  pose proof (of_rows_rows A) as Hp.
  unfold Parse. rewrite Hpd, Hwd; cbn [deref bind]. rewrite Hc; cbn [bind].
  destruct h.
  - exists (stable_rows (rows p)). split.
    + rewrite <- Hp at 1. rewrite Stable_rows. reflexivity.
    + apply stable_rows_spec.
  - exists (rows p). split; [|reflexivity].
    cbn [bind]. rewrite <- Hp at 1 2 3. reflexivity.
Qed.



(** ** Panics *)

(** C8, as the code has it: on a loaded, well-formed dictionary [XParse]
    returns three slices of one length for every input word and never
    panics; before initialization (the probability automaton is nil)
    [Parse] and [XParse] panic with the message of the guard in [Parse]. *)
Theorem XParse_returns_or_not_initialized (ToLower : string -> string)
  (ToLower_hyphen : forall s a b : string,
      ToLower s = a ++ "-" ++ b -> ToLower a = a /\ ToLower b = b)
  (ToLower_knownPrefix : forall s p b : string,
      In p knownPrefixes -> ToLower s = p ++ b -> ToLower b = b)
  (st : globals) (word : string) :
  (wf st -> good (XParse ToLower st word))
  /\ (probDAWG st = None ->
      Parse st word = Panic "not initialized; call Init or InitWith"
      /\ XParse ToLower st word = Panic "not initialized; call Init or InitWith").
Proof.
  split.
  - intros W.
    exact (@XParse_good ToLower ToLower_hyphen ToLower_knownPrefix st W word).
  - intros Hnil. split.
    + unfold Parse. now rewrite Hnil.
    + unfold XParse. cbn [XParse_fuel]. unfold XParse_body, Parse.
      now rewrite Hnil.
Qed.

Lemma XParse_returns_or_not_initialized_witness :
  good (XParse Demo.ToLower Demo.loaded "бутявкать")
  /\ XParse Demo.ToLower zero_globals "бутявкать"
     = Panic "not initialized; call Init or InitWith".
Proof.
  destruct (@XParse_returns_or_not_initialized Demo.ToLower
              Demo_ToLower_hyphen Demo_ToLower_knownPrefix
              Demo.loaded "бутявкать") as (H & _).
  destruct (@XParse_returns_or_not_initialized Demo.ToLower
              Demo_ToLower_hyphen Demo_ToLower_knownPrefix
              zero_globals "бутявкать") as (_ & H0).
  split; [exact (H Demo_loaded_wf)|exact (proj2 (H0 eq_refl))].
Defined.

(** C8 as stated fails: before initialization [XParse] panics. *)
Lemma XParse_panics_before_initialization :
  XParse Demo.ToLower zero_globals "кошка"
  = Panic "not initialized; call Init or InitWith"
  /\ ~ good (XParse Demo.ToLower zero_globals "кошка").
Proof.
  split; [reflexivity|]. intros (a & H & _). discriminate H.
Qed.

(** ** The productivity filter *)

Lemma Contains_iff (s substr : string) :
  strings.Contains s substr = true <-> exists a b, s = a ++ substr ++ b.
Proof.
  unfold strings.Contains. rewrite Z.leb_le. split.
  - intros H. do 2 eexists. now apply split_facts.Index_split.
  - intros (a & b & ->). induction a as [|c a IH].
    + rewrite split_facts.Index_eq. cbn [append].
      rewrite strings_facts.HasPrefix_append. lia.
    + rewrite split_facts.Index_eq.
      destruct (strings.HasPrefix _ substr); [lia|].
      cbn [append].
      destruct (strings.Index (a ++ substr ++ b) substr <? 0)%Z eqn:E; [|lia].
      apply Z.ltb_lt in E. lia.
Qed.

Lemma productive_iff (tag : string) :
  productive tag = true <-> ~ nonproductive tag.
Proof.
  unfold productive, nonproductive. rewrite forallb_forall. split.
  - intros H (g & a & b & Hg & E). specialize (H g Hg).
    apply negb_true_iff in H.
    assert (C : strings.Contains tag g = true) by (apply Contains_iff; eauto).
    congruence.
  - intros H g Hg. apply negb_true_iff.
    destruct (strings.Contains tag g) eqn:C; auto.
    apply Contains_iff in C as (a & b & E). exfalso. apply H. eauto 6.
Qed.

Lemma appends_productive_refl (acc : analyses) : appends_productive acc acc.
Proof. exists []. split; [now rewrite app_nil_r|constructor]. Qed.

Lemma appends_productive_trans (a b c : analyses) :
  appends_productive a b -> appends_productive b c -> appends_productive a c.
Proof.
  intros (n1 & E1 & F1) (n2 & E2 & F2). exists (n1 ++ n2)%list. split.
  - now rewrite E2, E1, app_assoc.
  - apply Forall_app; auto.
Qed.

Lemma appends_productive_push (words norms tags words' norms' : list string)
  (t : string) :
  productive t = true ->
  appends_productive (words, norms, tags) (words', norms', push tags t).
Proof. intros H. exists [t]. split; [reflexivity|]. now constructor. Qed.

Section ProductiveStrategies.

Variable st : globals.
Variable self : string -> result analyses.

Lemma keepProductive_productive (prefix : string) (ws ns ts : list string)
  (acc acc' : analyses) :
  keepProductive prefix ws ns ts acc = Ok acc' -> appends_productive acc acc'.
Proof.
  unfold keepProductive.
  apply for_range_preserves with (P := appends_productive acc);
    [|apply appends_productive_refl].
  intros [i tag] [[words norms] tags] s' Hin Hs H.
  apply In_enumerate in Hin.
  destruct (productive tag) eqn:Hp; cbn [negb] in H.
  - bind_inv H. bind_inv H. apply bind_Ok_inv in H as (t & Et & H).
    inversion H; subst. apply at_index_inv in Et.
    assert (t = tag) by congruence. subst t.
    eapply appends_productive_trans; [exact Hs|].
    now apply appends_productive_push.
  - now inversion H; subst.
Qed.

Lemma KnownPrefixAnalyzer_productive (word : string) (acc acc' : analyses) :
  KnownPrefixAnalyzer self word acc = Ok acc' -> appends_productive acc acc'.
Proof.
  unfold KnownPrefixAnalyzer.
  apply for_range_preserves with (P := appends_productive acc);
    [|apply appends_productive_refl].
  intros prefix a a' _ Ha H. unfold KnownPrefixAnalyzer_step in H.
  destruct (negb _); [now inversion H; subst|].
  destruct (_ <? 3)%nat; [now inversion H; subst|].
  apply bind_Ok_inv in H as ([[ws ns] ts] & _ & H).
  eapply appends_productive_trans; [exact Ha|].
  eapply keepProductive_productive; eauto.
Qed.

Lemma UnknownPrefixAnalyzer_productive (word : string) (acc acc' : analyses) :
  UnknownPrefixAnalyzer st word acc = Ok acc' -> appends_productive acc acc'.
Proof.
  unfold UnknownPrefixAnalyzer.
  apply for_range_preserves with (P := appends_productive acc);
    [|apply appends_productive_refl].
  intros split a a' _ Ha H. bind_inv H. bind_inv H.
  apply bind_Ok_inv in H as ([[ws ns] ts] & _ & H).
  eapply appends_productive_trans; [exact Ha|].
  eapply keepProductive_productive; eauto.
Qed.

Lemma predict_values_productive (wordStart k : string) (vs : list (list byte)) :
  forall acc acc' : analyses * Z,
    predict_values st wordStart k vs acc = Ok acc' ->
    appends_productive (fst acc) (fst acc').
Proof.
  induction vs as [|v vs IH]; intros [[[words norms] tags] total] acc' H;
    cbn [predict_values] in H.
  - inversion H; subst. apply appends_productive_refl.
  - bind_inv H. bind_inv H. bind_inv H. bind_inv H. bind_inv H. bind_inv H.
    apply bind_Ok_inv in H as ([[pr su] t] & _ & H).
    destruct (productive t) eqn:Hp; cbn [negb] in H; [|eapply IH; eauto].
    bind_inv H. apply bind_Ok_inv in H as (dup & _ & H).
    destruct dup.
    + inversion H; subst. apply appends_productive_refl.
    + apply IH in H. cbn [fst] in *.
      eapply appends_productive_trans; [|exact H].
      now apply appends_productive_push.
Qed.

Lemma predict_splits_productive (d : option dawg)
  (visited : list (string * string)) :
  forall (acc : analyses) (total : Z) (acc' : analyses),
    predict_splits st d visited acc total = Ok acc' ->
    appends_productive acc acc'.
Proof.
  induction visited as [|[wordStart wordEnd] visited IH];
    intros acc total acc' H; cbn [predict_splits] in H.
  - inversion H; subst. apply appends_productive_refl.
  - bind_inv H. apply bind_Ok_inv in H as ([acc1 total1] & H1 & H).
    assert (Hacc1 : appends_productive acc (fst (acc1, total1))).
    { revert H1.
      apply for_range_preserves
        with (P := fun s => appends_productive acc (fst s));
        [|apply appends_productive_refl].
      intros it s s' _ Hs Hv. apply predict_values_productive in Hv.
      eapply appends_productive_trans; eauto. }
    destruct (1 <? total1)%Z; [now inversion H; subst|].
    eapply appends_productive_trans; [exact Hacc1|]. eapply IH; eauto.
Qed.

Lemma KnownSuffixAnalyzer_productive (word : string) (acc acc' : analyses) :
  KnownSuffixAnalyzer st word acc = Ok acc' -> appends_productive acc acc'.
Proof.
  unfold KnownSuffixAnalyzer.
  apply for_range_preserves with (P := appends_productive acc);
    [|apply appends_productive_refl].
  intros [id prefix] a a' _ Ha H.
  destruct (negb _); [now inversion H; subst|].
  bind_inv H. eapply appends_productive_trans; [exact Ha|].
  eapply predict_splits_productive; eauto.
Qed.

End ProductiveStrategies.

Lemma aligned_empty (ws ns ts : list string) :
  aligned (ws, ns, ts) -> (0 <? List.length ws)%nat = false ->
  ws = [] /\ ns = [] /\ ts = [].
Proof.
  intros [Hn Ht] H. apply Nat.ltb_ge in H.
  destruct ws, ns, ts; simpl in *; auto; lia.
Qed.

(** C5. The known-prefix, the unknown-prefix and the suffix-prediction
    strategy append productive tags only, a productive tag being one that
    contains no grammeme of the non-productive set.  Hence whatever
    [XParse] returns is the dictionary result, the result of the particle,
    adverb or compound strategy, or carries productive tags only. *)
Theorem productivity_filter (ToLower : string -> string) (st : globals)
  (self : string -> result analyses) (input : string)
  (ws ns ts : list string) :
  let word := ToLower input in
  (forall acc acc', KnownPrefixAnalyzer self word acc = Ok acc' ->
                    appends_productive acc acc')
  /\ (forall acc acc', UnknownPrefixAnalyzer st word acc = Ok acc' ->
                       appends_productive acc acc')
  /\ (forall acc acc', KnownSuffixAnalyzer st word acc = Ok acc' ->
                       appends_productive acc acc')
  /\ (forall t, productive t = true <-> ~ nonproductive t)
  /\ (XParse_body ToLower st self input = Ok (ws, ns, ts) ->
      (Parse st word = Ok (ws, ns, ts) /\ (0 < List.length ws)%nat)
      \/ HyphenSeparatedParticleAnalyzer self word particlesAfterHyphen
         = Ok (Some (ws, ns, ts))
      \/ HyphenAdverbAnalyzer self word (utf8.RuneCountInString word)
         = Ok (Some (ws, ns, ts))
      \/ (HyphenatedWordsAnalyzer self word ([], [], []) = Ok (ws, ns, ts)
          /\ (0 < List.length ws)%nat)
      \/ Forall (fun t => ~ nonproductive t) ts).
Proof.
  intros word.
  split; [intros acc acc'; apply KnownPrefixAnalyzer_productive|].
  split; [intros acc acc'; apply UnknownPrefixAnalyzer_productive|].
  split; [intros acc acc'; apply KnownSuffixAnalyzer_productive|].
  split; [apply productive_iff|].
  unfold XParse_body. fold word. intros H.
  apply bind_Ok_inv in H as ([[w0 n0] t0] & HP & H).
  pose proof (@Parse_aligned _ _ _ HP) as A0.
  destruct (0 <? List.length w0)%nat eqn:L0.
  { inversion H; subst. left. split; auto. now apply Nat.ltb_lt. }
  destruct (aligned_empty A0 L0) as (-> & -> & ->).
  apply bind_Ok_inv in H as (oa & Ha & H).
  destruct oa as [res|].
  { inversion H; subst. right; left.
    destruct (negb _); [exact Ha|discriminate]. }
  apply bind_Ok_inv in H as (ob & Hb & H).
  destruct ob as [res|]; [inversion H; subst; auto|].
  apply bind_Ok_inv in H as ([[w1 n1] t1] & Hc & H).
  assert (A1 : aligned (w1, n1, t1))
    by (eapply KnownPrefixAnalyzer_aligned; [|exact Hc]; exact A0).
  apply KnownPrefixAnalyzer_productive in Hc as (new1 & E1 & F1).
  cbn [snd app] in E1. subst t1.
  destruct (0 <? List.length w1)%nat eqn:L1.
  { inversion H; subst. do 4 right.
    eapply Forall_impl; [|exact F1]. intros t. apply productive_iff. }
  destruct (aligned_empty A1 L1) as (-> & -> & ->).
  apply bind_Ok_inv in H as ([[w2 n2] t2] & Hd & H).
  destruct (_ && _ && _ && _) eqn:C.
  - assert (A2 : aligned (w2, n2, t2))
      by (eapply HyphenatedWordsAnalyzer_aligned; [|exact Hd]; exact A0).
    destruct (0 <? List.length w2)%nat eqn:L2; cbn [andb] in H.
    + inversion H; subst. do 3 right. left. split; auto. now apply Nat.ltb_lt.
    + destruct (aligned_empty A2 L2) as (-> & -> & ->).
      apply bind_Ok_inv in H as (acc & He & H).
      apply UnknownPrefixAnalyzer_productive in He as (new2 & E2 & F2).
      cbn [snd app] in E2.
      assert (G : appends_productive acc (ws, ns, ts)).
      { destruct (4 <=? _)%nat.
        - eapply KnownSuffixAnalyzer_productive; eauto.
        - inversion H; subst. apply appends_productive_refl. }
      destruct G as (new3 & E3 & F3). cbn [snd] in E3. subst ts.
      do 4 right. rewrite E2. apply Forall_app. split.
      * eapply Forall_impl; [|exact F2]. intros t. apply productive_iff.
      * eapply Forall_impl; [|exact F3]. intros t. apply productive_iff.
  - inversion Hd; subst. cbn [andb] in H.
    apply bind_Ok_inv in H as (acc & He & H).
    apply UnknownPrefixAnalyzer_productive in He as (new2 & E2 & F2).
    cbn [snd app] in E2.
    assert (G : appends_productive acc (ws, ns, ts)).
    { destruct (4 <=? _)%nat.
      - eapply KnownSuffixAnalyzer_productive; eauto.
      - inversion H; subst. apply appends_productive_refl. }
    destruct G as (new3 & E3 & F3). cbn [snd] in E3. subst ts.
    do 4 right. rewrite E2. apply Forall_app. split.
    * eapply Forall_impl; [|exact F2]. intros t. apply productive_iff.
    * eapply Forall_impl; [|exact F3]. intros t. apply productive_iff.
Qed.

Lemma productivity_filter_witness :
  (Parse Demo.loaded (Demo.ToLower "псевдокошка")
   = Ok (["псевдокошка"; "псевдокошка"], ["псевдокошка"; "псевдокошка"],
         ["NOUN,inan,femn sing,nomn"; "NOUN,anim,femn sing,nomn"])
   /\ (0 < 2)%nat)
  \/ HyphenSeparatedParticleAnalyzer (XParse Demo.ToLower Demo.loaded)
       (Demo.ToLower "псевдокошка") particlesAfterHyphen
     = Ok (Some (["псевдокошка"; "псевдокошка"],
                 ["псевдокошка"; "псевдокошка"],
                 ["NOUN,inan,femn sing,nomn"; "NOUN,anim,femn sing,nomn"]))
  \/ HyphenAdverbAnalyzer (XParse Demo.ToLower Demo.loaded)
       (Demo.ToLower "псевдокошка")
       (utf8.RuneCountInString (Demo.ToLower "псевдокошка"))
     = Ok (Some (["псевдокошка"; "псевдокошка"],
                 ["псевдокошка"; "псевдокошка"],
                 ["NOUN,inan,femn sing,nomn"; "NOUN,anim,femn sing,nomn"]))
  \/ (HyphenatedWordsAnalyzer (XParse Demo.ToLower Demo.loaded)
        (Demo.ToLower "псевдокошка") ([], [], [])
      = Ok (["псевдокошка"; "псевдокошка"], ["псевдокошка"; "псевдокошка"],
            ["NOUN,inan,femn sing,nomn"; "NOUN,anim,femn sing,nomn"])
      /\ (0 < 2)%nat)
  \/ Forall (fun t => ~ nonproductive t)
       ["NOUN,inan,femn sing,nomn"; "NOUN,anim,femn sing,nomn"].
Proof.
  assert (H : XParse_body Demo.ToLower Demo.loaded
                (XParse Demo.ToLower Demo.loaded) "псевдокошка"
              = Ok (["псевдокошка"; "псевдокошка"],
                    ["псевдокошка"; "псевдокошка"],
                    ["NOUN,inan,femn sing,nomn"; "NOUN,anim,femn sing,nomn"]))
    by (vm_compute; reflexivity).
  exact (proj2 (proj2 (proj2 (proj2
           (@productivity_filter Demo.ToLower Demo.loaded
              (XParse Demo.ToLower Demo.loaded) "псевдокошка" _ _ _)))) H).
Defined.

(** ** The particle after a hyphen *)

Lemma clash_common_prefix (l1 l2 r1 r2 : list ascii) :
  (l1 ++ r1 = l2 ++ r2)%list -> clash l1 l2 = false.
Proof.
  revert l2; induction l1 as [|c1 l1 IH]; intros [|c2 l2] H; simpl in *; auto.
  injection H as -> H. rewrite Ascii.eqb_refl. eauto.
Qed.

Lemma list_ascii_append (a b : string) :
  list_ascii_of_string (a ++ b)
  = (list_ascii_of_string a ++ list_ascii_of_string b)%list.
Proof. induction a as [|c a IH]; simpl; congruence. Qed.

(** A string that ends with [x] does not end with [q] when [x] and [q]
    clash. *)
Lemma HasSuffix_clash (a x q : string) :
  clash (reversed x) (reversed q) = true ->
  strings.HasSuffix (a ++ x) q = false.
Proof.
  intros C. destruct (strings.HasSuffix (a ++ x) q) eqn:E; auto.
  apply strings_facts.HasSuffix_true in E.
  apply (f_equal reversed) in E. unfold reversed in E.
  rewrite !list_ascii_append, !rev_app_distr in E.
  apply clash_common_prefix in E. unfold reversed in C. congruence.
Qed.

Lemma particles_clash (q q' : string) :
  In q particlesAfterHyphen -> In q' particlesAfterHyphen -> q' <> q ->
  clash (reversed q) (reversed q') = true.
Proof.
  intros Hq Hq' Hne.
  assert (H : forallb (fun a => forallb (fun b => String.eqb b a
                                                  || clash (reversed a) (reversed b))
                                  particlesAfterHyphen)
                particlesAfterHyphen = true) by (vm_compute; reflexivity).
  rewrite forallb_forall in H. specialize (H q Hq).
  rewrite forallb_forall in H. specialize (H q' Hq').
  apply orb_true_iff in H as [H|H]; auto.
  apply String.eqb_eq in H. contradiction.
Qed.

Lemma IndexByte_found (a b : string) (c : ascii) :
  strings.IndexByte (a ++ String c b) c <> (-1)%Z.
Proof.
  assert (G : (0 <= strings.IndexByte (a ++ String c b) c)%Z); [|lia].
  induction a as [|x a IH]; cbn [append strings.IndexByte].
  - rewrite Ascii.eqb_refl. lia.
  - destruct (Ascii.eqb x c); [lia|].
    destruct (strings.IndexByte (a ++ String c b) c <? 0)%Z eqn:E; [|lia].
    apply Z.ltb_lt in E. lia.
Qed.

(** The particle loop returns at the one particle the word ends with. *)
Lemma particle_hit (self : string -> result analyses) (lb q : string)
  (ws ns ts : list string) (l : list string) :
  (forall q', In q' l -> In q' particlesAfterHyphen) ->
  In q l -> In q particlesAfterHyphen ->
  self lb = Ok (ws, ns, ts) ->
  List.length ns = List.length ws ->
  (0 < List.length ws)%nat ->
  HyphenSeparatedParticleAnalyzer self (lb ++ q) l
  = Ok (Some (map (fun w => w ++ q) ws, map (fun n => n ++ q) ns, ts)).
Proof.
  intros Hsub Hin Hq Hself Hn Hlen.
  induction l as [|q' l IH]; [contradiction|].
  cbn [HyphenSeparatedParticleAnalyzer].
  destruct (string_dec q' q) as [->|Hne].
  - rewrite strings_facts.HasSuffix_append, strings_facts.TrimSuffix_append.
    cbn [negb]. rewrite Hself; cbn [bind].
    apply Nat.ltb_lt in Hlen. rewrite Hlen.
    now rewrite (reattach_map q ws ns Hn).
  - rewrite HasSuffix_clash.
    + cbn [negb]. apply IH.
      * intros q'' H. apply Hsub. now right.
      * destruct Hin as [H|H]; [contradiction|exact H].
    + apply particles_clash; auto. apply Hsub. now left.
Qed.

Lemma XParse_lowered (ToLower : string -> string) (st : globals) (w : string) :
  ToLower (ToLower w) = ToLower w ->
  XParse ToLower st (ToLower w) = XParse ToLower st w.
Proof.
  intros H. unfold XParse. rewrite H. cbn [XParse_fuel].
  unfold XParse_body. now rewrite H.
Qed.

(** C6, as the code has it: for a word [base + "-" + particle] with a
    known particle and an analyzable base, provided the dictionary
    analyzer does not find the whole (lowercased) word, [XParse] returns
    the analyses of [XParse(base)] with the literal ["-" + particle]
    appended to every word and every normal form, and the same tags.
    (Lowercasing is assumed to leave the particle and the hyphen in
    place, as it does for every lowercase particle.) *)
Theorem particle_strip (ToLower : string -> string)
  (ToLower_hyphen : forall s a b : string,
      ToLower s = a ++ "-" ++ b -> ToLower a = a /\ ToLower b = b)
  (ToLower_knownPrefix : forall s p b : string,
      In p knownPrefixes -> ToLower s = p ++ b -> ToLower b = b)
  (st : globals) (base particle : string) (ws ns ts : list string) :
  In ("-" ++ particle) particlesAfterHyphen ->
  ToLower (base ++ "-" ++ particle) = ToLower base ++ "-" ++ particle ->
  Parse st (ToLower base ++ "-" ++ particle) = Ok ([], [], []) ->
  XParse ToLower st base = Ok (ws, ns, ts) ->
  (0 < List.length ws)%nat ->
  XParse ToLower st (base ++ "-" ++ particle)
  = Ok (map (fun w => w ++ "-" ++ particle) ws,
        map (fun n => n ++ "-" ++ particle) ns, ts).
Proof.
  intros Hp Hlow HParse Hbase Hlen.
  rewrite (@XParse_unfold ToLower ToLower_hyphen ToLower_knownPrefix st).
  unfold XParse_body. rewrite Hlow, HParse. cbn [bind List.length Nat.ltb Nat.leb].
  assert (Hh : (strings.IndexByte (ToLower base ++ "-" ++ particle) "-" =? -1)%Z
               = false).
  { apply Z.eqb_neq. apply (IndexByte_found (ToLower base) particle "-"). }
  rewrite Hh. cbn [negb].
  destruct (@ToLower_hyphen _ _ _ Hlow) as [Hidem _].
  destruct (@XParse_fuel_aligned ToLower st _ _ _ Hbase) as [Hn _].
  assert (Hself : XParse ToLower st (ToLower base) = Ok (ws, ns, ts)).
  { rewrite (@XParse_lowered ToLower st base Hidem). exact Hbase. }
  rewrite (@particle_hit (XParse ToLower st) (ToLower base) ("-" ++ particle)
             ws ns ts particlesAfterHyphen (fun q H => H) Hp Hp Hself Hn Hlen).
  reflexivity.
Qed.

Lemma particle_strip_witness :
  XParse Demo.ToLower Demo.loaded ("смотри" ++ "-" ++ "ка")
  = Ok (map (fun w => w ++ "-" ++ "ка") ["смотри"],
        map (fun n => n ++ "-" ++ "ка") ["смотреть"],
        ["VERB,impf,tran sing,impr,excl"]).
Proof.
  apply (@particle_strip Demo.ToLower Demo_ToLower_hyphen
           Demo_ToLower_knownPrefix Demo.loaded "смотри" "ка").
  - simpl. tauto.
  - reflexivity.
  - reflexivity.
  - reflexivity.
  - simpl. lia.
Defined.

(** C6 as stated fails when the dictionary has the whole word: "как-то" is
    an entry of its own (an adverb), and the tags of "как" are others. *)
Lemma particle_roundtrip_counterexample :
  In ("-" ++ "то") particlesAfterHyphen
  /\ XParse Demo.ToLower Demo.loaded "как"
     = Ok (["как"; "как"; "как"], ["как"; "как"; "как"],
           ["CONJ"; "ADVB,Ques"; "PRCL"])
  /\ XParse Demo.ToLower Demo.loaded ("как" ++ "-" ++ "то")
     = Ok (["как-то"], ["как-то"], ["ADVB"])
  /\ ["ADVB"] <> ["CONJ"; "ADVB,Ques"; "PRCL"].
Proof.
  split; [simpl; tauto|]. split; [reflexivity|]. split; [reflexivity|].
  discriminate.
Qed.

(** ** Feature signatures and hyphenated compounds *)

Lemma ReplaceAllStringFunc_token (f : string -> string) (t s : string) :
  separator_free t = true ->
  forall token,
    ReplaceAllStringFunc f (t ++ s) token
    = ReplaceAllStringFunc f s (token ++ t).
Proof.
  induction t as [|c t IH]; cbn [separator_free append]; intros H token.
  - now rewrite strings_facts.append_nil_r.
  - apply andb_true_iff in H as [Hc Ht]. apply negb_true_iff in Hc.
    cbn [ReplaceAllStringFunc]. rewrite Hc, (IH Ht).
    now rewrite strings_facts.append_assoc.
Qed.

Lemma flush_emptyUnlessFeature (t : string) :
  flush emptyUnlessFeature t = emptyUnlessFeature t.
Proof. destruct t; reflexivity. Qed.

Lemma similarityFeatures_token (t : string) :
  separator_free t = true -> similarityFeatures t = emptyUnlessFeature t.
Proof.
  intros H. unfold similarityFeatures.
  rewrite <- (strings_facts.append_nil_r t) at 1.
  rewrite (ReplaceAllStringFunc_token _ _ "" H). cbn [append ReplaceAllStringFunc].
  apply flush_emptyUnlessFeature.
Qed.

Lemma similarityFeatures_separator (t : string) (c : ascii) (rest : string) :
  separator_free t = true -> is_separator c = true ->
  similarityFeatures (t ++ String c rest)
  = emptyUnlessFeature t ++ String c (similarityFeatures rest).
Proof.
  intros H Hc. unfold similarityFeatures.
  rewrite (ReplaceAllStringFunc_token _ _ _ H). cbn [append ReplaceAllStringFunc].
  now rewrite Hc, flush_emptyUnlessFeature.
Qed.

Lemma emptyUnlessFeature_cases (s : string) :
  (In s features -> emptyUnlessFeature s = s)
  /\ (~ In s features -> s <> "loc1" -> s <> "gen1" -> emptyUnlessFeature s = "").
Proof.
  unfold emptyUnlessFeature. split.
  - intros H.
    assert (N : forallb (fun f => negb (f =? "loc1") && negb (f =? "gen1"))
                  features = true) by (vm_compute; reflexivity).
    rewrite forallb_forall in N. specialize (N s H).
    apply andb_true_iff in N as [N1 N2].
    apply negb_true_iff in N1, N2. rewrite N1, N2.
    assert (E : existsb (String.eqb s) features = true).
    { apply existsb_exists. exists s. split; auto. apply String.eqb_refl. }
    now rewrite E.
  - intros H N1 N2. apply String.eqb_neq in N1, N2. rewrite N1, N2.
    destruct (existsb (String.eqb s) features) eqn:E; auto.
    apply existsb_exists in E as (f & Hf & Ef). apply String.eqb_eq in Ef.
    subst f. contradiction.
Qed.

Lemma extend_nil (acc : analyses) : extend acc [] = acc.
Proof. destruct acc as [[w n] t]. simpl. now rewrite !app_nil_r. Qed.

Lemma extend_app (acc : analyses) (l1 l2 : list triple) :
  extend (extend acc l1) l2 = extend acc (l1 ++ l2).
Proof.
  destruct acc as [[w n] t]. simpl. now rewrite !map_app, !app_assoc.
Qed.

Lemma at_index_map_middle {A B : Type} (f : A -> B) (pre post : list A) (x : A) :
  at_index (map f (pre ++ x :: post)%list) (List.length pre) = Ok (f x).
Proof.
  unfold at_index. rewrite nth_error_map, nth_error_app2 by lia.
  now rewrite Nat.sub_diag.
Qed.

Lemma zip3_projections (ws ns ts : list string) :
  aligned (ws, ns, ts) ->
  map (fun t : triple => fst (fst t)) (zip3 ws ns ts) = ws
  /\ map (fun t : triple => snd (fst t)) (zip3 ws ns ts) = ns
  /\ map (fun t : triple => snd t) (zip3 ws ns ts) = ts.
Proof.
  unfold zip3. intros [Hn Ht]. revert ns ts Hn Ht.
  induction ws as [|w ws IH]; intros [|n ns] [|t ts] Hn Ht;
    simpl in Hn, Ht; try discriminate; auto.
  destruct (IH ns ts ltac:(lia) ltac:(lia)) as (H1 & H2 & H3).
  cbn [combine map fst snd]. now rewrite H1, H2, H3.
Qed.

Section Compounds.

Variable L : list triple.
Let w3 := fun t : triple => fst (fst t).
Let n3 := fun t : triple => snd (fst t).
Let t3 := fun t : triple => snd t.

Lemma agreement_loop (l : triple) (i : nat) (Rrest : list triple) :
  nth_error (map w3 L) i = Some (w3 l) ->
  nth_error (map n3 L) i = Some (n3 l) ->
  forall (Rdone : list triple) (acc : analyses),
    for_range
      (agreement (map w3 L) (map n3 L)
         (map w3 (Rdone ++ Rrest)%list) (map n3 (Rdone ++ Rrest)%list)
         (map similarityFeatures (map t3 (Rdone ++ Rrest)%list)) i (t3 l)
         (similarityFeatures (t3 l)))
      (seq (List.length Rdone) (List.length Rrest)) acc
    = Ok (extend acc
            (map agreementCompound (filter compatible (map (pair l) Rrest)))).
Proof.
  intros Hw Hn.
  induction Rrest as [|r Rrest IH]; intros Rdone acc.
  - cbn. now rewrite extend_nil.
  - cbn [List.length seq for_range]. unfold agreement at 1.
    destruct acc as [[words norms] tags].
    rewrite map_map, at_index_map_middle. cbn [bind].
    cbn [map filter]. unfold compatible at 1. cbn [fst snd].
    fold (t3 l). fold (t3 r).
    specialize (IH (Rdone ++ [r])%list).
    rewrite <- app_assoc in IH. cbn [app] in IH.
    rewrite length_app in IH. cbn [List.length] in IH.
    replace (List.length Rdone + 1)%nat with (S (List.length Rdone)) in IH
      by lia.
    rewrite map_map in IH.
    destruct (similarityFeatures (t3 l) =? similarityFeatures (t3 r));
      cbn [negb].
    + unfold at_index at 1. rewrite Hw; cbn [bind].
      rewrite at_index_map_middle; cbn [bind].
      unfold at_index at 1. rewrite Hn; cbn [bind].
      rewrite at_index_map_middle; cbn [bind].
      rewrite IH. cbn [map].
      destruct l as [[lw ln] lt], r as [[rw rn] rt].
      unfold extend, push, w3, n3, t3.
      cbn [map fst snd agreementCompound]. now rewrite <- !app_assoc.
    + apply IH.
Qed.

End Compounds.

Lemma compound_loop (R Lrest : list triple) :
  forall (Ldone : list triple) (acc : analyses),
    for_range
      (fun '(i, tag) acc =>
         let leftFeat := similarityFeatures tag in
         for_range
           (agreement
              (map (fun t : triple => fst (fst t)) (Ldone ++ Lrest)%list)
              (map (fun t : triple => snd (fst t)) (Ldone ++ Lrest)%list)
              (map (fun t : triple => fst (fst t)) R)
              (map (fun t : triple => snd (fst t)) R)
              (map similarityFeatures (map (fun t : triple => snd t) R))
              i tag leftFeat)
           (seq 0 (List.length (map (fun t : triple => snd t) R))) acc)
      (combine (seq (List.length Ldone) (List.length Lrest))
         (map (fun t : triple => snd t) Lrest))
      acc
    = Ok (extend acc
            (map agreementCompound (filter compatible (list_prod Lrest R)))).
Proof.
  induction Lrest as [|l Lrest IH]; intros Ldone acc.
  - cbn. now rewrite extend_nil.
  - cbn [List.length seq map combine for_range list_prod].
    rewrite length_map.
    rewrite (@agreement_loop (Ldone ++ l :: Lrest)%list l (List.length Ldone)
               R) with (Rdone := []).
    + cbn [bind]. specialize (IH (Ldone ++ [l])%list).
      rewrite <- app_assoc in IH. cbn [app] in IH.
      rewrite length_app in IH. cbn [List.length] in IH.
      replace (List.length Ldone + 1)%nat with (S (List.length Ldone)) in IH
        by lia.
      rewrite length_map in IH. rewrite IH, extend_app.
      now rewrite filter_app, map_app.
    + rewrite nth_error_map, nth_error_app2 by lia.
      now rewrite Nat.sub_diag.
    + rewrite nth_error_map, nth_error_app2 by lia.
      now rewrite Nat.sub_diag.
Qed.

Lemma fixedLeft_loop (left : string) (Rrest : list triple) :
  forall (Rdone : list triple) (acc : analyses),
    for_range
      (fixedLeft left
         (map (fun t : triple => fst (fst t)) (Rdone ++ Rrest)%list)
         (map (fun t : triple => snd (fst t)) (Rdone ++ Rrest)%list))
      (combine (seq (List.length Rdone) (List.length Rrest))
         (map (fun t : triple => snd t) Rrest))
      acc
    = Ok (extend acc (map (fixedLeftCompound left) Rrest)).
Proof.
  induction Rrest as [|r Rrest IH]; intros Rdone acc.
  - cbn. now rewrite extend_nil.
  - cbn [List.length seq map combine for_range]. unfold fixedLeft at 1.
    destruct acc as [[words norms] tags].
    rewrite !at_index_map_middle. cbn [bind].
    specialize (IH (Rdone ++ [r])%list).
    rewrite <- app_assoc in IH. cbn [app] in IH.
    rewrite length_app in IH. cbn [List.length] in IH.
    replace (List.length Rdone + 1)%nat with (S (List.length Rdone)) in IH
      by lia.
    rewrite IH. destruct r as [[rw rn] rt].
    unfold extend, push. cbn [map fst snd fixedLeftCompound].
    now rewrite <- !app_assoc.
Qed.

(** The result of the compound strategy, once its two parts are analyzed. *)
Lemma HyphenatedWordsAnalyzer_result (self : string -> result analyses)
  (word left right : string) (lws lns lts rws rns rts : list string)
  (acc : analyses) :
  strings.SplitN word "-" 2 = [left; right] ->
  self left = Ok (lws, lns, lts) ->
  self right = Ok (rws, rns, rts) ->
  aligned (lws, lns, lts) ->
  aligned (rws, rns, rts) ->
  HyphenatedWordsAnalyzer self word acc
  = Ok (extend
          (extend acc
             (map agreementCompound
                (filter compatible
                   (list_prod (zip3 lws lns lts) (zip3 rws rns rts)))))
          (map (fixedLeftCompound left) (zip3 rws rns rts))).
Proof.
  intros HS Hl Hr Al Ar. unfold HyphenatedWordsAnalyzer.
  rewrite HS. cbn [at_index nth_error bind]. rewrite Hl, Hr. cbn [bind].
  destruct (zip3_projections Al) as (L1 & L2 & L3).
  destruct (zip3_projections Ar) as (R1 & R2 & R3).
  remember (zip3 lws lns lts) as L eqn:HL.
  remember (zip3 rws rns rts) as R eqn:HR.
  rewrite <- L1, <- L2, <- L3, <- R1, <- R2, <- R3.
  unfold enumerate. rewrite (length_map _ L).
  match goal with
  | |- bind ?x _ = _ =>
      assert (E : x = Ok (extend acc
                            (map agreementCompound
                               (filter compatible (list_prod L R)))))
        by exact (@compound_loop R L [] acc)
  end.
  rewrite E. cbn [bind]. rewrite (length_map _ R).
  exact (@fixedLeft_loop left R [] _).
Qed.

(** C7, as the code has it: the feature signature keeps every token of the
    [case] lists of the switch unchanged, rewrites the tokens "loc1" and
    "gen1" to "loct" and "gent", and replaces every other token by the
    empty string, the separators staying in place; and the compound
    strategy emits an agreement compound for a (left, right) pair exactly
    when the two signatures are the same string: its agreement compounds
    are those of the compatible pairs, in the order of the two loops,
    followed by one fixed-left compound per right candidate. *)
Theorem feature_signature (self : string -> result analyses)
  (word left right : string) (lws lns lts rws rns rts : list string)
  (acc : analyses) :
  (forall s, (In s features -> emptyUnlessFeature s = s)
             /\ (~ In s features -> s <> "loc1" -> s <> "gen1" ->
                 emptyUnlessFeature s = ""))
  /\ emptyUnlessFeature "loc1" = "loct"
  /\ emptyUnlessFeature "gen1" = "gent"
  /\ (forall t, separator_free t = true ->
                similarityFeatures t = emptyUnlessFeature t)
  /\ (forall t c rest, separator_free t = true -> is_separator c = true ->
        similarityFeatures (t ++ String c rest)
        = emptyUnlessFeature t ++ String c (similarityFeatures rest))
  /\ (strings.SplitN word "-" 2 = [left; right] ->
      self left = Ok (lws, lns, lts) ->
      self right = Ok (rws, rns, rts) ->
      aligned (lws, lns, lts) ->
      aligned (rws, rns, rts) ->
      HyphenatedWordsAnalyzer self word acc
      = Ok (extend
              (extend acc
                 (map agreementCompound
                    (filter compatible
                       (list_prod (zip3 lws lns lts) (zip3 rws rns rts)))))
              (map (fixedLeftCompound left) (zip3 rws rns rts)))).
Proof.
  split; [apply emptyUnlessFeature_cases|].
  split; [reflexivity|]. split; [reflexivity|].
  split; [apply similarityFeatures_token|].
  split; [apply similarityFeatures_separator|].
  apply HyphenatedWordsAnalyzer_result.
Qed.

Lemma feature_signature_witness :
  HyphenatedWordsAnalyzer (XParse Demo.ToLower Demo.loaded) "кошка-код"
    ([], [], [])
  = Ok (extend
          (extend ([], [], [])
             (map agreementCompound
                (filter compatible
                   (list_prod
                      (zip3 ["кошка"; "кошка"] ["кошка"; "кошка"]
                         ["NOUN,inan,femn sing,nomn";
                          "NOUN,anim,femn sing,nomn"])
                      (zip3 ["код"] ["код"] ["NOUN,inan,masc sing,nomn"])))))
          (map (fixedLeftCompound "кошка")
             (zip3 ["код"] ["код"] ["NOUN,inan,masc sing,nomn"]))).
Proof.
  apply (proj2 (proj2 (proj2 (proj2 (proj2
           (@feature_signature (XParse Demo.ToLower Demo.loaded)
              "кошка-код" "кошка" "код"
              ["кошка"; "кошка"] ["кошка"; "кошка"]
              ["NOUN,inan,femn sing,nomn"; "NOUN,anim,femn sing,nomn"]
              ["код"] ["код"] ["NOUN,inan,masc sing,nomn"]
              ([], [], []))))))).
  - reflexivity.
  - reflexivity.
  - reflexivity.
  - split; reflexivity.
  - split; reflexivity.
Defined.

(** C7 as stated fails on the token "loc1": the signature neither keeps it
    nor blanks it. *)
Lemma feature_signature_counterexample :
  separator_free "loc1" = true
  /\ similarityFeatures "loc1" = "loct"
  /\ similarityFeatures "loc1" <> "loc1"
  /\ similarityFeatures "loc1" <> ""
  /\ similarityFeatures "NOUN,inan,masc sing,loc1" = "NOUN,, sing,loct".
Proof.
  repeat split; try reflexivity; vm_compute; discriminate.
Qed.


(** ** Initialization *)

Lemma loadStringArray_error (env : environment) (fn : string)
  (v : list string) (e : error) :
  loadStringArray env fn = (v, Some e) -> v = [] /\ exists fe, e = Foreign fe.
Proof.
  unfold loadStringArray.
  destruct (os_Open env fn) as [fe|f].
  - intros H; inversion H; subst; eauto.
  - destruct (json_Decode env f) as [fe|ss]; intros H; inversion H; subst; eauto.
Qed.

(** [loadParadigms] assigns [paradigms] only. *)
Lemma loadParadigms_loop_fields (count : nat) :
  forall (r : list byte) (g g1 : globals) (err : option error),
    loadParadigms_loop count r g = (g1, err) ->
    (prefixes g1 = prefixes g /\ suffixes g1 = suffixes g /\ tags g1 = tags g
     /\ wordsDAWG g1 = wordsDAWG g /\ probDAWG g1 = probDAWG g
     /\ predictionDAWGs g1 = predictionDAWGs g)
    /\ (forall e, err = Some e -> exists fe, e = Foreign fe).
Proof.
  induction count as [|count IH]; intros r g g1 err H; cbn [loadParadigms_loop] in H.
  - inversion H; subst. split; [tauto|]. discriminate.
  - destruct (Read_uint16 r) as [fe|[paraLen r1]].
    { inversion H; subst. split; [tauto|]. intros e E. inversion E; eauto. }
    destruct (Read_uint16s (Z.to_nat paraLen) r1) as [fe|[para r2]].
    { inversion H; subst. split; [tauto|]. intros e E. inversion E; eauto. }
    apply IH in H as [F E]. split; [exact F|exact E].
Qed.

Lemma loadParadigms_fields (env : environment) (fn : string)
  (g g1 : globals) (err : option error) :
  loadParadigms env fn g = (g1, err) ->
  (prefixes g1 = prefixes g /\ suffixes g1 = suffixes g /\ tags g1 = tags g
   /\ wordsDAWG g1 = wordsDAWG g /\ probDAWG g1 = probDAWG g
   /\ predictionDAWGs g1 = predictionDAWGs g)
  /\ (forall e, err = Some e -> exists fe, e = Foreign fe).
Proof.
  unfold loadParadigms. destruct (os_Open env fn) as [fe|f].
  { intros H; inversion H; subst. split; [tauto|].
    intros e E. inversion E; eauto. }
  destruct (Read_uint16 f) as [fe|[paraCount r]].
  { intros H; inversion H; subst. split; [tauto|].
    intros e E. inversion E; eauto. }
  intros H. apply loadParadigms_loop_fields in H as [F E]. split; [exact F|exact E].
Qed.

(** The loop over the prediction automata assigns [predictionDAWGs] only. *)
Lemma loadPredictions_fields (env : environment) (dir : string)
  (indices : list nat) :
  forall (g g1 : globals) (err : option error),
    loadPredictions env dir indices g = (g1, err) ->
    (prefixes g1 = prefixes g /\ suffixes g1 = suffixes g /\ tags g1 = tags g
     /\ paradigms g1 = paradigms g /\ wordsDAWG g1 = wordsDAWG g
     /\ probDAWG g1 = probDAWG g)
    /\ (forall e, err = Some e -> exists fe, e = Foreign fe).
Proof.
  induction indices as [|i indices IH]; intros g g1 err H;
    cbn [loadPredictions] in H.
  - inversion H; subst. split; [tauto|]. discriminate.
  - destruct (newDAWG env _) as [fe|d].
    { inversion H; subst. split; [tauto|]. intros e E. inversion E; eauto. }
    apply IH in H as [F E]. split; [exact F|exact E].
Qed.

(** A successful [InitWith] leaves the probability automaton loaded. *)
Lemma InitWith_success (env : environment) (dir : string) (g g' : globals) :
  InitWith env dir g = (g', None) -> probDAWG g' <> None.
Proof.
  unfold InitWith. destruct (probDAWG g); [discriminate|].
  destruct (loadStringArray env _) as [v1 [e1|]]; [discriminate|].
  destruct (loadStringArray env _) as [v2 e2].
  destruct (match e2 with
            | Some e => if negb (os_IsNotExist e) then inl e else inr _
            | None => inr _
            end) as [e|g2]; [discriminate|].
  destruct (loadStringArray env _) as [v3 [e3|]]; [discriminate|].
  destruct (loadParadigms env _ _) as [g4 [e4|]]; [discriminate|].
  destruct (newDAWG env _) as [fe|wd]; [discriminate|].
  destruct (newDAWG env _) as [fe|pd]; [discriminate|].
  intros H. apply loadPredictions_fields in H as [(_ & _ & _ & _ & _ & P) _].
  rewrite P. discriminate.
Qed.

Lemma Init_success (env : environment) (g g' : globals) :
  Init env g = (g', None) -> probDAWG g' <> None.
Proof.
  unfold Init. destruct (probDAWG g); [discriminate|].
  destruct (dataPath env) as [dir [e|]]; [discriminate|].
  apply InitWith_success.
Qed.

(** C10. After a successful initialization, by [Init] or by [InitWith],
    every later call of either returns [ErrAlreadyInitialized] and leaves
    the package variables as they are, whatever the directory and the
    files then are. *)
Theorem already_initialized (env env' : environment) (dir dir' : string)
  (g g' : globals) :
  InitWith env dir g = (g', None) \/ Init env g = (g', None) ->
  InitWith env' dir' g' = (g', Some ErrAlreadyInitialized)
  /\ Init env' g' = (g', Some ErrAlreadyInitialized).
Proof.
  intros H.
  assert (P : probDAWG g' <> None).
  { destruct H as [H|H]; [eapply InitWith_success|eapply Init_success]; eauto. }
  unfold InitWith, Init. destruct (probDAWG g'); [auto|congruence].
Qed.

Lemma already_initialized_witness :
  let g' := fst (InitWith Files.complete "data" zero_globals) in
  InitWith Files.partial "elsewhere" g' = (g', Some ErrAlreadyInitialized)
  /\ Init Files.partial g' = (g', Some ErrAlreadyInitialized).
Proof.
  intros g'.
  apply (@already_initialized Files.complete Files.partial "data" "elsewhere"
           zero_globals g').
  left. reflexivity.
Defined.

Ltac later_steps :=
  let s := fresh "s" in
  let Hs := fresh "Hs" in
  intros s Hs; destruct s; cbn [step_index] in Hs; try lia;
  cbn [untouched]; try reflexivity.

Ltac earlier_steps :=
  let s := fresh "s" in
  let Hs := fresh "Hs" in
  intros s Hs; destruct s; cbn [step_index] in Hs; try lia;
  cbn [assigned].

(** An error of the loop over the prediction automata is the error of one
    of its automaton files. *)
Lemma loadPredictions_error (env : environment) (dir : string)
  (indices : list nat) :
  forall (g g1 : globals) (e : error),
    loadPredictions env dir indices g = (g1, Some e) ->
    exists i fe, In i indices
                 /\ newDAWG env (filepath_Join env dir (predictionName i))
                    = inl fe
                 /\ e = Foreign fe.
Proof.
  induction indices as [|i indices IH]; intros g g1 e H;
    cbn [loadPredictions] in H; cbv zeta in H.
  - discriminate.
  - destruct (newDAWG env (filepath_Join env dir (predictionName i)))
      as [fe|d] eqn:E.
    + inversion H; subst. exists i, fe.
      split; [now left|]. split; [exact E|reflexivity].
    + apply IH in H as (j & fe & Hj & Hn & He). exists j, fe.
      split; [now right|]. split; assumption.
Qed.

(** The steps of [InitWith] from the suffix table on, started in a state
    [g2] in which the tags and the prefixes are assigned and what the later
    steps assign is still as in [g]. *)
Lemma InitWith_tail (env : environment) (dir : string) (g g2 g' : globals)
  (e : error) :
  (let '(v, err) := loadStringArray env (filepath_Join env dir "suffixes.json") in
   let g3 := set_suffixes v g2 in
   match err with
   | Some e0 => (g3, Some e0)
   | None =>
       let '(g4, err0) :=
         loadParadigms env (filepath_Join env dir "paradigms.array") g3 in
       match err0 with
       | Some e0 => (g4, Some e0)
       | None =>
           match newDAWG env (filepath_Join env dir "words.dawg") with
           | inl e0 => (set_wordsDAWG None g4, Some (Foreign e0))
           | inr d =>
               let g5 := set_wordsDAWG (Some d) g4 in
               match newDAWG env (filepath_Join env dir "p_t_given_w.intdawg")
               with
               | inl e0 => (set_probDAWG None g5, Some (Foreign e0))
               | inr d0 =>
                   let g6 := set_probDAWG (Some d0) g5 in
                   let g7 := set_predictionDAWGs [] g6 in
                   loadPredictions env dir
                     (seq 0 (List.length (prefixes g7))) g7
               end
           end
       end
   end) = (g', Some e) ->
  assigned env dir LoadTags g2 ->
  assigned env dir LoadPrefixes g2 ->
  paradigms g2 = paradigms g ->
  wordsDAWG g2 = wordsDAWG g ->
  probDAWG g2 = probDAWG g ->
  predictionDAWGs g2 = predictionDAWGs g ->
  (exists fe, e = Foreign fe)
  /\ exists failing,
       fails env dir failing g' e
       /\ (forall s, (step_index s < step_index failing)%nat ->
                     assigned env dir s g')
       /\ (forall s, (step_index failing < step_index s)%nat ->
                     untouched s g g').
Proof.
  intros H Htags Hpref Fpa Fw Fpr Fpd. cbv zeta in H.
  cbn [assigned] in Htags, Hpref.
  destruct (loadStringArray env (filepath_Join env dir "suffixes.json"))
    as [v3 [e3|]] eqn:E3.
  { injection H as <- <-. split; [eapply loadStringArray_error; exact E3|].
    exists LoadSuffixes. split; [exists v3; exact E3|]. split.
    - earlier_steps; [exact Htags|exact Hpref].
    - later_steps; cbn; assumption. }
  destruct (loadParadigms env (filepath_Join env dir "paradigms.array")
              (set_suffixes v3 g2)) as [g4 [e4|]] eqn:E4.
  { injection H as <- <-.
    destruct (loadParadigms_fields _ _ _ E4)
      as [(P1 & P2 & P3 & F1 & F2 & F3) E].
    cbn in P1, P2, P3.
    split; [now apply E|]. exists LoadParadigms.
    split; [exists (set_suffixes v3 g2), g4; exact E4|]. split.
    - earlier_steps; [rewrite P3; exact Htags|rewrite P1; exact Hpref
                     |rewrite P2; exact E3].
    - later_steps; [rewrite F1|rewrite F2|rewrite F3]; cbn; assumption. }
  destruct (loadParadigms_fields _ _ _ E4)
    as [(P1 & P2 & P3 & F1 & F2 & F3) _].
  cbn in P1, P2, P3, F1, F2, F3.
  destruct (newDAWG env (filepath_Join env dir "words.dawg")) as [fe|wd] eqn:Ew.
  { injection H as <- <-. split; [eauto|]. exists LoadWords.
    split; [exists fe; split; [exact Ew|reflexivity]|]. split.
    - earlier_steps; cbn;
        [rewrite P3; exact Htags|rewrite P1; exact Hpref|rewrite P2; exact E3
        |exists (set_suffixes v3 g2), g4; split; [exact E4|reflexivity]].
    - later_steps; cbn; congruence. }
  destruct (newDAWG env (filepath_Join env dir "p_t_given_w.intdawg"))
    as [fe|pd] eqn:Ep.
  { injection H as <- <-. split; [eauto|]. exists LoadProbabilities.
    split; [exists fe; split; [exact Ep|reflexivity]|]. split.
    - earlier_steps; cbn;
        [rewrite P3; exact Htags|rewrite P1; exact Hpref|rewrite P2; exact E3
        |exists (set_suffixes v3 g2), g4; split; [exact E4|reflexivity]
        |exists wd; split; [exact Ew|reflexivity]].
    - later_steps; cbn; congruence. }
  destruct (loadPredictions_fields _ _ _ _ H)
    as [(Q1 & Q2 & Q3 & Q4 & Q5 & Q6) E].
  cbn in Q1, Q2, Q3, Q4, Q5, Q6.
  apply loadPredictions_error in H as (i & fe & Hi & Hn & He).
  apply in_seq in Hi. cbn in Hi.
  split; [now apply E|]. exists LoadPredictions.
  split; [exists i, fe; split; [rewrite Q1; lia|split; assumption]|]. split.
  - earlier_steps;
      [rewrite Q3, P3; exact Htags|rewrite Q1, P1; exact Hpref
      |rewrite Q2, P2; exact E3
      |exists (set_suffixes v3 g2), g4; split; [exact E4|exact Q4]
      |exists wd; split; [exact Ew|exact Q5]
      |exists pd; split; [exact Ep|exact Q6]].
  - later_steps.
Qed.

(** C9, as the code has it: a failed [InitWith] returns the error of the
    load that failed (or [ErrAlreadyInitialized], the state being then
    untouched), and the package variables that the load steps after the
    failing one assign are the same as before the call.  What the steps
    before the failing one have assigned stays assigned: there is no
    rollback. *)
Theorem failed_InitWith (env : environment) (dir : string) (g g' : globals)
  (e : error) :
  InitWith env dir g = (g', Some e) ->
  (e = ErrAlreadyInitialized /\ g' = g)
  \/ ((exists fe, e = Foreign fe)
      /\ exists failing,
           fails env dir failing g' e
           /\ (forall s, (step_index s < step_index failing)%nat ->
                         assigned env dir s g')
           /\ (forall s, (step_index failing < step_index s)%nat ->
                         untouched s g g')).
Proof.
  unfold InitWith. destruct (probDAWG g) eqn:Hp.
  { intros H; inversion H; subst. now left. }
  intros H. right. cbv zeta in H.
  destruct (loadStringArray env
              (filepath_Join env dir "gramtab-opencorpora-int.json"))
    as [v1 [e1|]] eqn:E1.
  { inversion H; subst. split; [eapply loadStringArray_error; exact E1|].
    exists LoadTags. split; [exists v1; exact E1|]. split.
    - earlier_steps.
    - later_steps. }
  destruct (loadStringArray env (filepath_Join env dir "paradigm-prefixes.json"))
    as [v2 e2] eqn:E2.
  destruct e2 as [e2|].
  - destruct (negb (os_IsNotExist e2)) eqn:N.
    + inversion H; subst. split; [eapply loadStringArray_error; exact E2|].
      exists LoadPrefixes.
      split; [exists v2; split; [exact E2|]|].
      { now destruct (os_IsNotExist e). }
      split.
      * earlier_steps. exact E1.
      * later_steps.
    + eapply InitWith_tail; [exact H|exact E1| | | | |]; try reflexivity.
      right. exists v2, e2. split; [exact E2|]. split; [|reflexivity].
      now destruct (os_IsNotExist e2).
  - eapply InitWith_tail; [exact H|exact E1| | | | |]; try reflexivity.
    left. exact E2.
Qed.

(** With the tag table present and the suffix table missing, the failing
    step is the load of the suffixes: the paradigms and the automata are as
    before the call, the tag table is the one of the file, and the prefixes
    are the three default ones. *)
Lemma failed_InitWith_witness :
  let g' := fst (InitWith Files.partial "data" zero_globals) in
  InitWith Files.partial "data" zero_globals = (g', Some (Foreign Files.missing))
  /\ paradigms g' = [] /\ wordsDAWG g' = None /\ probDAWG g' = None
  /\ predictionDAWGs g' = []
  /\ loadStringArray Files.partial "data/gramtab-opencorpora-int.json"
     = (tags g', None)
  /\ prefixes g' = defaultPrefixes.
Proof.
  intros g'. split; [reflexivity|].
  destruct (@failed_InitWith Files.partial "data" zero_globals g'
              (Foreign Files.missing) eq_refl) as [[H _]|[_ [failing (F & A & U)]]].
  - discriminate H.
  - assert (L : (step_index failing <= 2)%nat).
    { destruct failing; cbn [step_index]; try lia; exfalso.
      all: specialize (A LoadSuffixes ltac:(cbn; lia));
        vm_compute in A; discriminate A. }
    assert (G : (2 <= step_index failing)%nat).
    { destruct failing; cbn [step_index]; try lia; exfalso.
      - destruct F as (v & F). vm_compute in F. discriminate F.
      - destruct F as (v & _ & F). discriminate F. }
    split; [exact (U LoadParadigms ltac:(cbn; lia))|].
    split; [exact (U LoadWords ltac:(cbn; lia))|].
    split; [exact (U LoadProbabilities ltac:(cbn; lia))|].
    split; [exact (U LoadPredictions ltac:(cbn; lia))|].
    split; [exact (A LoadTags ltac:(cbn; lia))|].
    destruct (A LoadPrefixes ltac:(cbn; lia)) as [B|(v & e & _ & _ & B)].
    + vm_compute in B. discriminate B.
    + exact B.
Defined.

(** C9 as stated fails: with the tag table present and the suffix table
    missing, [InitWith] returns an error and leaves the tag table and the
    default prefixes assigned. *)
Lemma failed_InitWith_counterexample :
  snd (InitWith Files.partial "data" zero_globals) = Some (Foreign Files.missing)
  /\ tags (fst (InitWith Files.partial "data" zero_globals)) = Demo.the_tags
  /\ tags (fst (InitWith Files.partial "data" zero_globals)) <> tags zero_globals
  /\ prefixes (fst (InitWith Files.partial "data" zero_globals))
     <> prefixes zero_globals.
Proof.
  split; [reflexivity|]. split; [reflexivity|]. split; discriminate.
Qed.

(** * Further properties of the analyzers and of the loader *)

(** ** The recursion of [XParse] *)

(** X1. [XParse] satisfies the recursive definition of the source: it is
    its body applied to itself; it is the only function that does; and no
    larger recursion bound changes its result. *)
Theorem XParse_recursion (ToLower : string -> string)
  (ToLower_hyphen : forall s a b : string,
      ToLower s = a ++ "-" ++ b -> ToLower a = a /\ ToLower b = b)
  (ToLower_knownPrefix : forall s p b : string,
      In p knownPrefixes -> ToLower s = p ++ b -> ToLower b = b)
  (st : globals) :
  (forall word,
      XParse ToLower st word = XParse_body ToLower st (XParse ToLower st) word)
  /\ (forall f : string -> result analyses,
         (forall word, f word = XParse_body ToLower st f word) ->
         forall word, f word = XParse ToLower st word)
  /\ (forall fuel word,
         (String.length (ToLower word) < fuel)%nat ->
         XParse_fuel ToLower st fuel word = XParse ToLower st word).
Proof.
  split; [|split].
  - exact (@XParse_unfold ToLower ToLower_hyphen ToLower_knownPrefix st).
  - exact (@XParse_unique ToLower ToLower_hyphen ToLower_knownPrefix st).
  - intros fuel word H. unfold XParse.
    apply (@XParse_fuel_stable ToLower ToLower_hyphen ToLower_knownPrefix st);
      [exact H|lia].
Qed.

Lemma XParse_recursion_witness :
  XParse Demo.ToLower Demo.loaded "смотри-ка"
  = XParse_body Demo.ToLower Demo.loaded (XParse Demo.ToLower Demo.loaded)
      "смотри-ка"
  /\ XParse_fuel Demo.ToLower Demo.loaded 100 "смотри-ка"
     = XParse Demo.ToLower Demo.loaded "смотри-ка".
Proof.
  destruct (@XParse_recursion Demo.ToLower Demo_ToLower_hyphen
              Demo_ToLower_knownPrefix Demo.loaded) as (H1 & _ & H3).
  split; [exact (H1 "смотри-ка")|].
  apply (H3 100%nat "смотри-ка"). vm_compute. lia.
Defined.

(** X2. [XParse] reads its argument through [strings.ToLower] only: two
    words with one lowercasing get the same analyses. *)
Theorem XParse_case_insensitive (ToLower : string -> string) (st : globals)
  (w1 w2 : string) :
  ToLower w1 = ToLower w2 ->
  XParse ToLower st w1 = XParse ToLower st w2.
Proof.
  intros H. unfold XParse. rewrite H. cbn [XParse_fuel].
  unfold XParse_body. rewrite H. reflexivity.
Qed.

Lemma XParse_case_insensitive_witness :
  XParse Demo.ToLower Demo.loaded "PDF" = XParse Demo.ToLower Demo.loaded "Pdf".
Proof.
  apply (@XParse_case_insensitive Demo.ToLower Demo.loaded "PDF" "Pdf").
  reflexivity.
Defined.

(** ** The splits of a word *)

Lemma string_of_runes_app (l r : list Z) :
  utf8.string_of_runes (l ++ r)
  = utf8.string_of_runes l ++ utf8.string_of_runes r.
Proof.
  induction l as [|x l IH]; cbn [utf8.string_of_runes app].
  - reflexivity.
  - now rewrite IH, strings_facts.append_assoc.
Qed.

(** X3. [wordSplits(s, minRemainder, maxPrefixLen)] cuts the runes of [s]
    in two at every position from 1 to
    [min(maxPrefixLen, len(runes) - minRemainder)]: the left part has
    between 1 and [maxPrefixLen] runes, the right part at least
    [minRemainder], the two parts spell the runes of [s], and the splits
    come by growing left part.  ([minRemainder] is not negative: the
    source calls [wordSplits(word, 3, 5)] only.) *)
Theorem wordSplits_spec (s : string) (minRemainder maxPrefixLen : Z) :
  (0 <= minRemainder)%Z ->
  List.length (wordSplits s minRemainder maxPrefixLen)
  = Z.to_nat (Z.min maxPrefixLen
                (Z.of_nat (List.length (utf8.runes s)) - minRemainder))
  /\ forall i split,
       nth_error (wordSplits s minRemainder maxPrefixLen) i = Some split ->
       exists l r,
         utf8.runes s = (l ++ r)%list
         /\ split = [utf8.string_of_runes l; utf8.string_of_runes r]
         /\ List.length l = S i
         /\ (Z.of_nat (List.length l) <= maxPrefixLen)%Z
         /\ (minRemainder <= Z.of_nat (List.length r))%Z
         /\ utf8.string_of_runes l ++ utf8.string_of_runes r
            = utf8.string_of_runes (utf8.runes s).
Proof.
  intros Hmin. unfold wordSplits, min.
  set (rr := utf8.runes s).
  assert (M : (if (maxPrefixLen <? Z.of_nat (List.length rr) - minRemainder)%Z
               then maxPrefixLen
               else (Z.of_nat (List.length rr) - minRemainder)%Z)
              = Z.min maxPrefixLen (Z.of_nat (List.length rr) - minRemainder)).
  { destruct (Z.ltb_spec maxPrefixLen (Z.of_nat (List.length rr) - minRemainder));
      lia. }
  rewrite M. set (n := Z.min _ _).
  destruct (Z.leb_spec n 0) as [Hn|Hn].
  - split; [simpl; lia|]. intros [|i] split H; discriminate H.
  - split; [now rewrite length_map, length_seq|].
    intros i split H.
    rewrite nth_error_map in H.
    destruct (nth_error (seq 1 (Z.to_nat n)) i) as [k|] eqn:E; [|discriminate].
    assert (Hi : (i < List.length (seq 1 (Z.to_nat n)))%nat)
      by (apply nth_error_Some; congruence).
    rewrite length_seq in Hi.
    rewrite nth_error_seq in E.
    destruct (i <? Z.to_nat n)%nat eqn:L; [|apply Nat.ltb_ge in L; lia].
    injection E as <-. injection H as <-.
    exists (firstn (1 + i) rr), (skipn (1 + i) rr).
    assert (Hl : List.length (firstn (1 + i) rr) = S i).
    { rewrite length_firstn. subst n. lia. }
    split; [now rewrite firstn_skipn|]. split; [reflexivity|].
    split; [exact Hl|]. split; [rewrite Hl; subst n; lia|].
    split; [rewrite length_skipn; subst n; lia|].
    now rewrite <- string_of_runes_app, firstn_skipn.
Qed.

Lemma wordSplits_spec_witness :
  List.length (wordSplits "байткод" 3 5) = 4%nat
  /\ exists l r,
       utf8.runes "байткод" = (l ++ r)%list
       /\ ["байт"; "код"] = [utf8.string_of_runes l; utf8.string_of_runes r]
       /\ List.length l = 4%nat.
Proof.
  destruct (@wordSplits_spec "байткод" 3 5 ltac:(lia)) as [H1 H2].
  split; [exact H1|].
  destruct (H2 3%nat ["байт"; "код"] eq_refl) as (l & r & A & B & C & _).
  exists l, r. split; [exact A|]. split; [exact B|exact C].
Defined.

Lemma get_None_length (s : string) :
  forall n, get n s = None -> (String.length s <= n)%nat.
Proof.
  induction s as [|c s IH]; intros [|n]; simpl; intros H;
    try discriminate; try lia.
  apply IH in H. lia.
Qed.

Lemma scan_back_le (steps : nat) (s : string) (lim : Z) :
  forall start, (utf8.scan_back steps s start lim <= start)%Z.
Proof.
  induction steps as [|steps IH]; intros start; cbn [utf8.scan_back]; [lia|].
  destruct (start <? lim)%Z; [lia|].
  destruct (get (Z.to_nat start) s) as [c|]; [|lia].
  destruct (utf8.RuneStart c); [lia|].
  specialize (IH (start - 1)%Z). lia.
Qed.

(** The last rune of a non-empty string is at least one byte wide and no
    wider than the string. *)
Lemma DecodeLastRuneInString_size (s : string) :
  s <> "" ->
  (1 <= snd (utf8.DecodeLastRuneInString s) <= String.length s)%nat.
Proof.
  intros Hs.
  assert (L : (0 < String.length s)%nat) by (destruct s; simpl; [congruence|lia]).
  unfold utf8.DecodeLastRuneInString.
  destruct (Z.eqb_spec (Z.of_nat (String.length s)) 0) as [E|_]; [lia|].
  destruct (get (Z.to_nat (Z.of_nat (String.length s) - 1)) s) as [c|] eqn:G.
  2:{ apply get_None_length in G. lia. }
  destruct (utf8.byte_val c <? 128)%Z; [simpl; lia|].
  pose proof (scan_back_le utf8.UTFMax s
                (Z.max 0 (Z.of_nat (String.length s) - Z.of_nat utf8.UTFMax))
                (Z.of_nat (String.length s) - 1 - 1)) as B.
  set (start := Z.max 0 (utf8.scan_back _ _ _ _)) in *.
  destruct (utf8.DecodeRuneInString _) as [r size].
  destruct (Z.eqb_spec (start + Z.of_nat size) (Z.of_nat (String.length s)))
    as [E|_]; simpl; lia.
Qed.

Lemma length_slice_from (n : nat) (s : string) :
  (n <= String.length s)%nat ->
  String.length (strings.slice_from n s) = (String.length s - n)%nat.
Proof.
  intros H. pose proof (strings_facts.slice_split s H) as E.
  apply (f_equal String.length) in E.
  rewrite strings_facts.length_append, (strings_facts.length_slice_to s H) in E.
  lia.
Qed.

(** What the loop of [split5] appends, started at the byte position [n]. *)
Lemma split5_loop_spec (s : string) (iterations : nat) :
  forall (n : nat) (splits : list (string * string)),
    (n <= String.length s)%nat ->
    exists new,
      split5_loop iterations s n splits = (splits ++ new)%list
      /\ (List.length new <= iterations)%nat
      /\ Forall (fun ab => fst ab ++ snd ab = s
                           /\ (0 < String.length (fst ab) < n)%nat) new
      /\ StronglySorted
           (fun x y => (String.length (fst y) < String.length (fst x))%nat) new.
Proof.
  induction iterations as [|iterations IH]; intros n splits Hn;
    cbn [split5_loop].
  - exists []. rewrite app_nil_r. repeat split; auto; constructor.
  - destruct (utf8.DecodeLastRuneInString (strings.slice_to n s))
      as [r size] eqn:D.
    destruct (Nat.eqb_spec (n - size) 0) as [E|E].
    + exists []. rewrite app_nil_r. repeat split; simpl; auto; try lia;
        constructor.
    + assert (Hsize : (1 <= size <= n)%nat).
      { assert (N : strings.slice_to n s <> "").
        { intros C. apply (f_equal String.length) in C.
          rewrite (strings_facts.length_slice_to s Hn) in C. simpl in C. lia. }
        pose proof (DecodeLastRuneInString_size N) as S.
        rewrite D, (strings_facts.length_slice_to s Hn) in S. exact S. }
      destruct (IH (n - size)%nat
                  (push splits (strings.slice_to (n - size) s,
                                strings.slice_from (n - size) s))
                  ltac:(lia)) as (new & E1 & E2 & E3 & E4).
      exists ((strings.slice_to (n - size) s, strings.slice_from (n - size) s)
                :: new).
      assert (Hlen : String.length (strings.slice_to (n - size) s)
                     = (n - size)%nat)
        by (apply strings_facts.length_slice_to; lia).
      split; [rewrite E1; unfold push; now rewrite <- app_assoc|].
      split; [simpl; lia|]. split.
      * constructor.
        -- cbn [fst snd]. split; [apply strings_facts.slice_split; lia|].
           rewrite Hlen. lia.
        -- eapply Forall_impl; [|exact E3]. cbn beta. intros ab [A B].
           split; [exact A|lia].
      * constructor; [exact E4|].
        eapply Forall_impl; [|exact E3]. cbn beta. intros ab [_ B].
        cbn [fst]. rewrite Hlen. lia.
Qed.

(** X4. [split5(s)] gives at most five cuts of [s] in two non-empty parts,
    [s[:n]] and [s[n:]], the left part getting strictly shorter from one
    cut to the next. *)
Theorem split5_spec (s : string) :
  (List.length (split5 s) <= 5)%nat
  /\ Forall (fun ab => fst ab ++ snd ab = s /\ fst ab <> "" /\ snd ab <> "")
       (split5 s)
  /\ StronglySorted
       (fun x y => (String.length (fst y) < String.length (fst x))%nat)
       (split5 s).
Proof.
  unfold split5.
  destruct (@split5_loop_spec s 5 (String.length s) [] (le_n _))
    as (new & E & L & F & S).
  rewrite E. cbn [app]. split; [exact L|]. split; [|exact S].
  eapply Forall_impl; [|exact F]. cbn beta. intros [a b] [A B].
  cbn [fst snd] in *. split; [exact A|]. split.
  - intros ->. simpl in B. lia.
  - intros ->. rewrite strings_facts.append_nil_r in A. subst a. lia.
Qed.

(** ** A successful initialization *)

(** The loop over the prediction automata, when it returns nil, has
    appended one loaded automaton per index. *)
Lemma loadPredictions_success (env : environment) (dir : string)
  (indices : list nat) :
  forall (g g1 : globals),
    loadPredictions env dir indices g = (g1, None) ->
    exists ds,
      predictionDAWGs g1 = (predictionDAWGs g ++ map Some ds)%list
      /\ Forall2 (fun i d =>
                    newDAWG env (filepath_Join env dir (predictionName i))
                    = inr d) indices ds.
Proof.
  induction indices as [|i indices IH]; intros g g1 H;
    cbn [loadPredictions] in H; cbv zeta in H.
  - injection H as <-. exists []. rewrite app_nil_r. split; [reflexivity|].
    constructor.
  - destruct (newDAWG env (filepath_Join env dir (predictionName i)))
      as [fe|d] eqn:E; [discriminate|].
    apply IH in H as (ds & H1 & H2). exists (d :: ds). split.
    + rewrite H1. cbn [predictionDAWGs set_predictionDAWGs]. unfold push.
      now rewrite <- app_assoc.
    + constructor; assumption.
Qed.

Lemma Forall2_seq_nth {A : Type} (P : nat -> A -> Prop) (n : nat) :
  forall (start : nat) (l : list A),
    Forall2 P (seq start n) l ->
    List.length l = n
    /\ forall i a, nth_error l i = Some a -> P (start + i)%nat a.
Proof.
  induction n as [|n IH]; intros start l H; cbn [seq] in H.
  - inversion H; subst. split; [reflexivity|]. intros [|i] a E; discriminate E.
  - inversion H as [|x a0 xs l0 Hx Hrest]; subst.
    apply IH in Hrest as [L N]. split; [simpl; lia|].
    intros [|i] a E; cbn [nth_error] in E.
    + injection E as <-. now rewrite Nat.add_0_r.
    + replace (start + S i)%nat with (S start + i)%nat by lia. now apply N.
Qed.

(** X5. When [InitWith] returns nil, the package was not initialized
    before, and every package variable holds what its load step has
    read: the three string tables (the three default prefixes when the
    prefix file does not exist), the paradigms, the two automata, and one
    prediction automaton per prefix, the [i]-th one read from
    [prediction-suffixes-i.dawg]. *)
Theorem InitWith_loads (env : environment) (dir : string) (g g' : globals) :
  InitWith env dir g = (g', None) ->
  probDAWG g = None /\ forall s, assigned env dir s g'.
Proof.
  unfold InitWith. destruct (probDAWG g) eqn:Hp; [discriminate|].
  intros H. split; [reflexivity|]. cbv zeta in H.
  destruct (loadStringArray env
              (filepath_Join env dir "gramtab-opencorpora-int.json"))
    as [v1 [e1|]] eqn:E1; [discriminate|].
  destruct (loadStringArray env (filepath_Join env dir "paradigm-prefixes.json"))
    as [v2 e2] eqn:E2.
  set (g2 := match e2 with
             | Some e => if negb (os_IsNotExist e) then inl e
                         else inr (set_prefixes defaultPrefixes
                                     (set_prefixes v2 (set_tags v1 g)))
             | None => inr (set_prefixes v2 (set_tags v1 g))
             end) in H.
  assert (G2 : match g2 with
               | inl _ => True
               | inr g2 => tags g2 = v1
                           /\ assigned env dir LoadPrefixes g2
               end).
  { subst g2. destruct e2 as [e2|].
    - destruct (os_IsNotExist e2) eqn:N; cbn [negb]; [|exact I].
      split; [reflexivity|]. right. exists v2, e2. now repeat split.
    - split; [reflexivity|]. left. exact E2. }
  destruct g2 as [e|g2]; [discriminate|]. destruct G2 as [T2 P2].
  destruct (loadStringArray env (filepath_Join env dir "suffixes.json"))
    as [v3 [e3|]] eqn:E3; [discriminate|].
  destruct (loadParadigms env (filepath_Join env dir "paradigms.array")
              (set_suffixes v3 g2)) as [g4 [e4|]] eqn:E4; [discriminate|].
  destruct (loadParadigms_fields _ _ _ E4) as [(P1 & S1 & T1 & _) _].
  cbn in P1, S1, T1.
  destruct (newDAWG env (filepath_Join env dir "words.dawg")) as [fe|wd] eqn:Ew;
    [discriminate|].
  destruct (newDAWG env (filepath_Join env dir "p_t_given_w.intdawg"))
    as [fe|pd] eqn:Ep; [discriminate|].
  destruct (loadPredictions_fields _ _ _ _ H)
    as [(Q1 & Q2 & Q3 & Q4 & Q5 & Q6) _].
  cbn in Q1, Q2, Q3, Q4, Q5, Q6.
  apply loadPredictions_success in H as (ds & D1 & D2).
  cbn in D1, D2. rewrite P1 in D2.
  apply Forall2_seq_nth in D2 as [L N].
  cbn [assigned] in P2.
  intros s; destruct s; cbn [assigned].
  - rewrite Q3, T1, T2. exact E1.
  - rewrite Q1, P1. exact P2.
  - rewrite Q2, S1. exact E3.
  - exists (set_suffixes v3 g2), g4. split; [exact E4|exact Q4].
  - exists wd. split; [exact Ew|exact Q5].
  - exists pd. split; [exact Ep|exact Q6].
  - exists ds. split; [exact D1|]. split; [rewrite Q1, P1; exact L|].
    intros i d Hd. exact (N i d Hd).
Qed.

Lemma InitWith_loads_witness :
  let g' := fst (InitWith Files.complete "data" zero_globals) in
  tags g' = Demo.the_tags
  /\ suffixes g' = Demo.the_suffixes
  /\ prefixes g' = defaultPrefixes
  /\ List.length (predictionDAWGs g') = 3%nat
  /\ forall s, assigned Files.complete "data" s g'.
Proof.
  intros g'.
  destruct (@InitWith_loads Files.complete "data" zero_globals g' eq_refl)
    as [_ A].
  split; [reflexivity|]. split; [reflexivity|]. split; [reflexivity|].
  split; [reflexivity|]. exact A.
Defined.

(** ** One analysis per payload record *)

Lemma Parse_item_words (st : globals) (pd : dawg) (word k : string)
  (vs : list (list byte)) :
  forall (p p' : parse.t) (h h' : bool),
    for_range (Parse_payload st pd word k) vs (p, h) = Ok (p', h') ->
    parse.words p' = (parse.words p ++ map (fun _ => k) vs)%list.
Proof.
  induction vs as [|v vs IH]; intros p p' h h' H; cbn [for_range] in H.
  - injection H as <- _. now rewrite app_nil_r.
  - apply bind_Ok_inv in H as ([p1 h1] & H1 & H).
    apply Parse_payload_inv in H1 as (norm & tag & -> & _).
    apply IH in H. rewrite H. cbn [parse.words map]. unfold push.
    now rewrite <- app_assoc.
Qed.

Lemma Parse_collect_words (st : globals) (pd : dawg) (word : string)
  (items : list item) :
  forall (p p' : parse.t) (h h' : bool),
    for_range (Parse_item st pd word) items (p, h) = Ok (p', h') ->
    parse.words p' = (parse.words p ++ matchedKeys items)%list.
Proof.
  induction items as [|it items IH]; intros p p' h h' H; cbn [for_range] in H.
  - injection H as <- _. now rewrite app_nil_r.
  - apply bind_Ok_inv in H as ([p1 h1] & H1 & H).
    apply Parse_item_words in H1. apply IH in H. rewrite H, H1.
    unfold matchedKeys. cbn [flat_map]. now rewrite <- app_assoc.
Qed.

Lemma map_word_of_rows (p : parse.t) :
  aligned4 p -> map word_of (rows p) = parse.words p.
Proof.
  intros A. pose proof (of_rows_rows A) as E.
  apply (f_equal parse.words) in E. exact E.
Qed.

Lemma length_matchedKeys (items : list item) :
  List.length (matchedKeys items)
  = list_sum (map (fun it => List.length (values it)) items).
Proof.
  unfold matchedKeys.
  induction items as [|it items IH]; cbn [flat_map map list_sum];
    [reflexivity|].
  now rewrite length_app, length_map, IH.
Qed.

(** X6. [Parse] returns one analysis per payload record of the items that
    the lexical automaton matches: its words are the keys of these items,
    each as many times as the item has payloads, in the traversal order
    up to the ranking (and exactly in that order when the ranking leaves
    the candidates as they are). *)
Theorem Parse_one_analysis_per_payload (st : globals) (pd wd : dawg)
  (word : string) (words norms tags : list string) :
  probDAWG st = Some pd -> wordsDAWG st = Some wd ->
  Parse st word = Ok (words, norms, tags) ->
  Permutation words (matchedKeys (similarItems wd word))
  /\ List.length words
     = list_sum (map (fun it => List.length (values it)) (similarItems wd word))
  /\ (forall p, Parse_collect st pd wd word = Ok (p, false) ->
                words = matchedKeys (similarItems wd word)).
Proof.
  intros Hpd Hwd HP.
  assert (HC : exists p h, Parse_collect st pd wd word = Ok (p, h)).
  { unfold Parse in HP. rewrite Hpd, Hwd in HP. cbn [deref bind] in HP.
    apply bind_Ok_inv in HP as ([p h] & HC & _). eauto. }
  destruct HC as (p & h & HC).
  pose proof HC as HW. unfold Parse_collect in HW.
  apply Parse_collect_words in HW. cbn [parse.words empty_parse app] in HW.
  destruct (@Parse_collect_invariant _ _ _ _ _ HC) as (A & _ & _).
  destruct (@Parse_candidates st pd wd word p h Hpd Hwd HC) as (l' & E & Pm).
  rewrite HP in E. injection E as -> _ _.
  assert (P1 : Permutation (map word_of l') (matchedKeys (similarItems wd word))).
  { rewrite <- HW, <- (map_word_of_rows A). now apply Permutation_map. }
  split; [exact P1|]. split.
  - rewrite (Permutation_length P1). apply length_matchedKeys.
  - intros p0 HC0. rewrite HC in HC0. injection HC0 as -> ->.
    unfold Parse in HP. rewrite Hpd, Hwd in HP. cbn [deref bind] in HP.
    rewrite HC in HP. cbn [bind] in HP. injection HP as <- _ _. exact HW.
Qed.

Lemma Parse_one_analysis_per_payload_witness :
  matchedKeys (similarItems Demo.lexicon "кошка") = ["кошка"; "кошка"]
  /\ Permutation ["кошка"; "кошка"] (matchedKeys (similarItems Demo.lexicon "кошка"))
  /\ List.length ["кошка"; "кошка"]
     = list_sum (map (fun it => List.length (values it))
                   (similarItems Demo.lexicon "кошка")).
Proof.
  split; [reflexivity|].
  destruct (@Parse_one_analysis_per_payload Demo.loaded Demo.probabilities
              Demo.lexicon "кошка" ["кошка"; "кошка"] ["кошка"; "кошка"]
              ["NOUN,inan,femn sing,nomn"; "NOUN,anim,femn sing,nomn"]
              eq_refl eq_refl) as (H1 & H2 & _).
  - vm_compute. reflexivity.
  - split; [exact H1|exact H2].
Defined.

(** ** The adverb rule *)

Lemma firstDativeAdjective_result (words : list string) (res : analyses) :
  forall (ts : list string) (k : nat),
    firstDativeAdjective words (combine (seq k (List.length ts)) ts)
    = Ok (Some res) ->
    exists i tag wi,
      nth_error ts i = Some tag
      /\ dativeAdjective tag = true
      /\ (forall j t, (j < i)%nat -> nth_error ts j = Some t ->
                      dativeAdjective t = false)
      /\ nth_error words (k + i) = Some wi
      /\ res = (["по-" ++ wi], ["по-" ++ wi], ["ADVB"]).
Proof.
  induction ts as [|t ts IH]; intros k H;
    cbn [List.length seq combine firstDativeAdjective] in H.
  - discriminate.
  - destruct (strings.HasPrefix t "ADJF") eqn:E1;
      destruct (strings.Contains t "sing,datv") eqn:E2; cbn [negb orb] in H.
    1:{ apply bind_Ok_inv in H as (wi & Hw & H). injection H as <-.
        exists 0%nat, t, wi. split; [reflexivity|].
        split; [unfold dativeAdjective; now rewrite E1, E2|].
        split; [intros j t0 Hj; lia|].
        split; [rewrite Nat.add_0_r; now apply at_index_inv|reflexivity]. }
    all: apply IH in H as (i & tag & wi & H1 & H2 & H3 & H4 & H5);
      exists (S i), tag, wi; split; [exact H1|]; split; [exact H2|];
      split; [|split; [now rewrite Nat.add_succ_r|exact H5]];
      intros [|j] t0 Hj Ht; cbn [nth_error] in Ht;
      [injection Ht as <-; unfold dativeAdjective; rewrite E1, E2; reflexivity
      |apply (H3 j); [lia|exact Ht]].
Qed.

(** X7. When the adverb rule returns, the word has at least five runes
    and starts with ["по-"], and the result is the single analysis
    [("по-" + w, "по-" + w, "ADVB")], where [w] is the word of the first
    analysis of the rest whose tag starts with ["ADJF"] and contains
    ["sing,datv"]. *)
Theorem HyphenAdverbAnalyzer_result (self : string -> result analyses)
  (word : string) (nRunes : nat) (res : analyses) :
  HyphenAdverbAnalyzer self word nRunes = Ok (Some res) ->
  (5 <= nRunes)%nat
  /\ exists rest ws ns ts i tag wi,
       word = "по-" ++ rest
       /\ self rest = Ok (ws, ns, ts)
       /\ nth_error ts i = Some tag
       /\ dativeAdjective tag = true
       /\ (forall j t, (j < i)%nat -> nth_error ts j = Some t ->
                       dativeAdjective t = false)
       /\ nth_error ws i = Some wi
       /\ res = (["по-" ++ wi], ["по-" ++ wi], ["ADVB"]).
Proof.
  unfold HyphenAdverbAnalyzer. intros H.
  destruct (5 <=? nRunes)%nat eqn:L; cbn [andb] in H; [|discriminate].
  destruct (strings.HasPrefix word "по-") eqn:P; [|discriminate].
  apply Nat.leb_le in L. split; [exact L|].
  pose proof (strings_facts.HasPrefix_true _ _ P) as Hw.
  unfold strings.from in H.
  destruct (5 <=? String.length word)%nat; [|discriminate]. cbn [bind] in H.
  apply bind_Ok_inv in H as ([[ws ns] ts] & Hs & H).
  apply firstDativeAdjective_result in H
    as (i & tag & wi & H1 & H2 & H3 & H4 & H5).
  exists (strings.TrimPrefix word "по-"), ws, ns, ts, i, tag, wi.
  split; [exact Hw|]. split.
  - unfold strings.TrimPrefix. rewrite P. exact Hs.
  - split; [exact H1|]. split; [exact H2|]. split; [exact H3|].
    split; [exact H4|exact H5].
Qed.

Lemma HyphenAdverbAnalyzer_result_witness :
  exists rest ws ns ts i tag wi,
    "по-западному" = "по-" ++ rest
    /\ XParse Demo.ToLower Demo.loaded rest = Ok (ws, ns, ts)
    /\ nth_error ts i = Some tag
    /\ dativeAdjective tag = true
    /\ nth_error ws i = Some wi
    /\ (["по-западному"], ["по-западному"], ["ADVB"])
       = (["по-" ++ wi], ["по-" ++ wi], ["ADVB"]).
Proof.
  destruct (@HyphenAdverbAnalyzer_result (XParse Demo.ToLower Demo.loaded)
              "по-западному" 12
              (["по-западному"], ["по-западному"], ["ADVB"]))
    as (_ & rest & ws & ns & ts & i & tag & wi & H1 & H2 & H3 & H4 & _ & H6 & H7).
  - vm_compute. reflexivity.
  - exists rest, ws, ns, ts, i, tag, wi. repeat (split; [assumption|]).
    assumption.
Defined.

(** ** The table of known prefixes after [init] *)

Lemma insert_Permutation {A : Type} (less : A -> A -> bool) (x : A)
  (l : list A) :
  Permutation (gosort.insert less x l) (x :: l).
Proof.
  induction l as [|y l IH]; cbn [gosort.insert]; [reflexivity|].
  destruct (less y x); [|reflexivity].
  rewrite IH. apply perm_swap.
Qed.

Lemma Slice_Permutation {A : Type} (less : A -> A -> bool) (l : list A) :
  Permutation (gosort.Slice less l) l.
Proof.
  induction l as [|x l IH]; cbn [gosort.Slice]; [reflexivity|].
  rewrite insert_Permutation. now constructor.
Qed.

Lemma ordered_sound {A : Type} (less : A -> A -> bool) (l : list A) :
  ordered less l = true ->
  StronglySorted (fun a b => less a b = true) l.
Proof.
  induction l as [|a l IH]; cbn [ordered]; intros H; constructor.
  - apply IH. now apply andb_true_iff in H as [_ H].
  - apply Forall_forall. apply andb_true_iff in H as [H _].
    now rewrite forallb_forall in H.
Qed.

Lemma StronglySorted_weaken {A : Type} (R1 R2 : A -> A -> Prop) (l : list A) :
  (forall a b, R1 a b -> R2 a b) ->
  StronglySorted R1 l -> StronglySorted R2 l.
Proof.
  intros H. induction 1 as [|a l S IH F]; constructor; [exact IH|].
  eapply Forall_impl; [|exact F]. intros b. apply H.
Qed.

(** Two arrangements of one list in which no element is [less] than an
    earlier one are the same list, when [less] compares any two different
    elements. *)
Lemma sorted_unique {A : Type} (less : A -> A -> bool) :
  forall l1 l2 : list A,
    (forall a b, In a l1 -> In b l1 ->
                 less a b = false -> less b a = false -> a = b) ->
    Permutation l1 l2 ->
    StronglySorted (fun a b => less b a = false) l1 ->
    StronglySorted (fun a b => less b a = false) l2 ->
    l1 = l2.
Proof.
  induction l1 as [|a l1 IH]; intros l2 T P S1 S2.
  - apply Permutation_nil in P. now subst.
  - destruct l2 as [|b l2];
      [apply Permutation_sym, Permutation_nil in P; discriminate|].
    apply StronglySorted_inv in S1 as [S1 F1].
    apply StronglySorted_inv in S2 as [S2 F2].
    rewrite Forall_forall in F1, F2.
    assert (E : a = b).
    { assert (Ia : In a (b :: l2))
        by (eapply Permutation_in; [exact P|now left]).
      assert (Ib : In b (a :: l1))
        by (eapply Permutation_in; [apply Permutation_sym; exact P|now left]).
      destruct Ia as [->|Ia]; [reflexivity|].
      destruct Ib as [->|Ib]; [reflexivity|].
      apply T; [now left|now right|now apply F2|now apply F1]. }
    subst b. f_equal. apply IH; auto.
    + intros x y Hx Hy. apply T; now right.
    + eapply Permutation_cons_inv; exact P.
Qed.

(** X8. After [init], [knownPrefixes] holds the prefixes of the table of
    the source, longer ones first and prefixes of one length in byte
    order; it is the only arrangement of the table in which no prefix
    stands after one that the comparison of [init] puts behind it, so it
    is what [sort.Slice] leaves whatever the algorithm. *)
Theorem init_sorts_knownPrefixes :
  Permutation knownPrefixes knownPrefixes_literal
  /\ StronglySorted (fun a b => knownPrefixes_less a b = true) knownPrefixes
  /\ StronglySorted
       (fun a b => (String.length b <= String.length a)%nat) knownPrefixes
  /\ forall l,
       Permutation l knownPrefixes_literal ->
       StronglySorted (fun a b => knownPrefixes_less b a = false) l ->
       l = knownPrefixes.
Proof.
  assert (P : Permutation knownPrefixes knownPrefixes_literal).
  { rewrite knownPrefixes_sorted. apply Slice_Permutation. }
  assert (S : StronglySorted (fun a b => knownPrefixes_less a b = true)
                knownPrefixes).
  { apply ordered_sound. vm_compute. reflexivity. }
  assert (T : forall a b, In a knownPrefixes -> In b knownPrefixes ->
                knownPrefixes_less a b = false ->
                knownPrefixes_less b a = false -> a = b).
  { assert (C : forallb (fun a =>
                   forallb (fun b => knownPrefixes_less a b
                                     || knownPrefixes_less b a
                                     || (a =? b)) knownPrefixes)
                  knownPrefixes = true) by (vm_compute; reflexivity).
    intros a b Ha Hb H1 H2. rewrite forallb_forall in C.
    specialize (C a Ha). rewrite forallb_forall in C. specialize (C b Hb).
    rewrite H1, H2 in C. cbn [orb] in C. now apply String.eqb_eq. }
  assert (W : StronglySorted (fun a b => knownPrefixes_less b a = false)
                knownPrefixes).
  { assert (C : ordered (fun a b => negb (knownPrefixes_less b a))
                  knownPrefixes = true) by (vm_compute; reflexivity).
    apply ordered_sound in C. apply (StronglySorted_weaken (R1 := fun a b => negb (knownPrefixes_less b a) = true)); [|exact C].
    intros a b H. cbn beta in H. now apply negb_true_iff. }
  split; [exact P|]. split; [exact S|]. split.
  - apply (StronglySorted_weaken (R1 := fun a b => knownPrefixes_less a b = true));
      [|exact S].
    intros a b H. cbn beta in H.
    unfold knownPrefixes_less in H.
    destruct (Z.eqb_spec (Z.of_nat (String.length a) - Z.of_nat (String.length b)) 0)
      as [E|E]; cbn [negb] in H; [lia|].
    apply Z.ltb_lt in H. lia.
  - intros l Pl Sl. symmetry. apply (@sorted_unique _ knownPrefixes_less); auto.
    rewrite P. now apply Permutation_sym.
Qed.

(** ** The paradigm file *)

Lemma byte_val_byte_of_Z (z : Z) :
  binary.byte_val (byte_of_Z z) = (z mod 256)%Z.
Proof.
  unfold byte_of_Z, binary.byte_val.
  pose proof (Z.mod_pos_bound z 256 ltac:(lia)) as B.
  destruct (Byte.of_N (Z.to_N (z mod 256))) as [b|] eqn:E.
  - apply Byte.to_of_N in E. rewrite E. apply Z2N.id. lia.
  - apply Byte.of_N_None_iff in E. lia.
Qed.

Lemma LittleEndian_Uint16_PutUint16 (v : Z) :
  is_uint16 v ->
  binary.LittleEndian_Uint16 (byte_of_Z v) (byte_of_Z (Z.shiftr v 8)) = v.
Proof.
  intros [H0 H1]. unfold binary.LittleEndian_Uint16.
  rewrite !byte_val_byte_of_Z.
  change 256%Z with (2 ^ 8)%Z.
  apply Z.bits_inj'. intros n Hn.
  rewrite Z.lor_spec.
  destruct (Z.ltb_spec n 8) as [L|L].
  - rewrite Z.mod_pow2_bits_low by lia.
    rewrite Z.shiftl_spec_low by lia. apply orb_false_r.
  - rewrite Z.mod_pow2_bits_high by lia.
    rewrite Z.shiftl_spec by lia. cbn [orb].
    destruct (Z.ltb_spec (n - 8) 8) as [L'|L'].
    + rewrite Z.mod_pow2_bits_low by lia.
      rewrite Z.shiftr_spec by lia. f_equal. lia.
    + rewrite Z.mod_pow2_bits_high by lia.
      symmetry. apply (Z.bits_above_log2 v n); [lia|].
      destruct (Z.eq_dec v 0) as [->|N]; [simpl; lia|].
      apply Z.log2_lt_pow2; [lia|].
      apply Z.lt_le_trans with (2 ^ 16)%Z; [exact H1|].
      apply Z.pow_le_mono_r; lia.
Qed.

Lemma uint16s_PutUint16 (l : list Z) :
  Forall is_uint16 l ->
  uint16s (flat_map LittleEndian_PutUint16 l) = l.
Proof.
  induction 1 as [|v l Hv _ IH]; [reflexivity|].
  cbn [flat_map LittleEndian_PutUint16 app uint16s].
  now rewrite LittleEndian_Uint16_PutUint16, IH.
Qed.

Lemma length_PutUint16s (l : list Z) :
  List.length (flat_map LittleEndian_PutUint16 l) = (2 * List.length l)%nat.
Proof.
  induction l as [|v l IH]; [reflexivity|].
  cbn [flat_map LittleEndian_PutUint16 app List.length]. rewrite IH. lia.
Qed.

Lemma Read_uint16_PutUint16 (v : Z) (rest : list byte) :
  is_uint16 v ->
  Read_uint16 (LittleEndian_PutUint16 v ++ rest) = inr (v, rest).
Proof.
  intros Hv. unfold Read_uint16, ReadFull.
  cbn [LittleEndian_PutUint16 app List.length Nat.leb firstn skipn uint16s hd].
  now rewrite LittleEndian_Uint16_PutUint16.
Qed.

Lemma Read_uint16s_PutUint16 (l : list Z) (rest : list byte) :
  Forall is_uint16 l ->
  Read_uint16s (List.length l) (flat_map LittleEndian_PutUint16 l ++ rest)
  = inr (l, rest).
Proof.
  intros Hl. unfold Read_uint16s, ReadFull.
  pose proof (length_PutUint16s l) as L.
  rewrite length_app, L.
  destruct (Nat.leb_spec (2 * List.length l)
              (2 * List.length l + List.length rest)) as [_|C]; [|lia].
  rewrite <- L, firstn_app, skipn_app, Nat.sub_diag, firstn_all, skipn_all.
  cbn [firstn skipn app]. rewrite app_nil_r. now rewrite uint16s_PutUint16.
Qed.

(** The loop of [loadParadigms] on the encoding of [ps]. *)
Lemma loadParadigms_loop_roundtrip (ps : list (list Z)) :
  forall (rest : list byte) (g : globals),
    Forall (fun para => is_uint16 (Z.of_nat (List.length para))
                        /\ Forall is_uint16 para) ps ->
    loadParadigms_loop (List.length ps) (flat_map paradigm_bytes ps ++ rest) g
    = (set_paradigms (paradigms g ++ ps) g, None).
Proof.
  induction ps as [|para ps IH]; intros rest g H;
    cbn [List.length loadParadigms_loop flat_map].
  - rewrite app_nil_r. destruct g; reflexivity.
  - apply Forall_cons_iff in H as [[Hlen Hpara] H].
    unfold paradigm_bytes at 1. rewrite <- !app_assoc.
    rewrite (Read_uint16_PutUint16 _ Hlen), Nat2Z.id.
    rewrite (Read_uint16s_PutUint16 _ Hpara).
    rewrite (IH rest _ H). cbn [paradigms set_paradigms]. unfold push.
    now rewrite <- app_assoc.
Qed.

(** X9. Reading back a paradigm file: on a file that holds the encoding
    of the paradigms [ps] (count and lengths below [2^16], entries
    [uint16]), possibly followed by more bytes, [loadParadigms] returns
    nil and leaves exactly [ps] in [paradigms], replacing what was there,
    and no other package variable changes. *)
Theorem loadParadigms_roundtrip (env : environment) (fn : string)
  (ps : list (list Z)) (rest : list byte) (g : globals) :
  os_Open env fn = inr (paradigms_file ps ++ rest)%list ->
  encodable ps ->
  loadParadigms env fn g = (set_paradigms ps g, None).
Proof.
  intros Hf [Hn Hps]. unfold loadParadigms. rewrite Hf.
  unfold paradigms_file. rewrite <- app_assoc.
  rewrite (Read_uint16_PutUint16 _ Hn), Nat2Z.id.
  now rewrite (loadParadigms_loop_roundtrip rest _ Hps).
Qed.

Lemma loadParadigms_roundtrip_witness :
  loadParadigms (paradigms_only Demo.the_paradigms) "data/paradigms.array"
    Demo.loaded
  = (Demo.loaded, None).
Proof.
  apply (@loadParadigms_roundtrip (paradigms_only Demo.the_paradigms)
           "data/paradigms.array" Demo.the_paradigms [] Demo.loaded).
  - cbn [paradigms_only os_Open]. now rewrite app_nil_r.
  - split; [unfold is_uint16; simpl; lia|].
    repeat constructor; unfold is_uint16; simpl; lia.
Defined.







(** ** Feature signatures are signatures of themselves *)

Lemma emptyUnlessFeature_idempotent (s : string) :
  emptyUnlessFeature (emptyUnlessFeature s) = emptyUnlessFeature s.
Proof.
  unfold emptyUnlessFeature at 2 3.
  destruct (s =? "loc1"); [reflexivity|].
  destruct (s =? "gen1"); [reflexivity|].
  destruct (existsb (String.eqb s) features) eqn:E; [|reflexivity].
  apply existsb_exists in E as (f & Hf & Ef). apply String.eqb_eq in Ef.
  subst f. now apply emptyUnlessFeature_cases.
Qed.

Lemma emptyUnlessFeature_separator_free (s : string) :
  separator_free s = true -> separator_free (emptyUnlessFeature s) = true.
Proof.
  intros H. unfold emptyUnlessFeature.
  destruct (s =? "loc1"); [reflexivity|].
  destruct (s =? "gen1"); [reflexivity|].
  destruct (existsb (String.eqb s) features); [exact H|reflexivity].
Qed.

Lemma separator_free_append (a b : string) :
  separator_free (a ++ b) = separator_free a && separator_free b.
Proof.
  induction a as [|c a IH]; cbn [append separator_free]; [reflexivity|].
  now rewrite IH, andb_assoc.
Qed.

Lemma similarityFeatures_fixed (s : string) :
  forall token,
    separator_free token = true ->
    similarityFeatures (ReplaceAllStringFunc emptyUnlessFeature s token)
    = ReplaceAllStringFunc emptyUnlessFeature s token.
Proof.
  induction s as [|c s IH]; intros token Ht; cbn [ReplaceAllStringFunc].
  - rewrite flush_emptyUnlessFeature.
    rewrite similarityFeatures_token
      by now apply emptyUnlessFeature_separator_free.
    apply emptyUnlessFeature_idempotent.
  - destruct (is_separator c) eqn:Hc.
    + rewrite flush_emptyUnlessFeature.
      rewrite similarityFeatures_separator;
        [|now apply emptyUnlessFeature_separator_free|exact Hc].
      rewrite emptyUnlessFeature_idempotent. f_equal. f_equal.
      apply (IH ""). reflexivity.
    + apply IH. rewrite separator_free_append, Ht. cbn [separator_free andb].
      now rewrite Hc.
Qed.

(** X11. The feature signature of a feature signature is that signature:
    [similarityFeatures] is idempotent. *)
Theorem similarityFeatures_idempotent (tag : string) :
  similarityFeatures (similarityFeatures tag) = similarityFeatures tag.
Proof. apply (similarityFeatures_fixed tag ""). reflexivity. Qed.

(** ** The prefix strategies as list operations *)

Lemma for_range_extend {A : Type} (body : A -> analyses -> result analyses)
  (g : A -> list triple) (l : list A) :
  (forall x acc, In x l -> body x acc = Ok (extend acc (g x))) ->
  forall acc, for_range body l acc = Ok (extend acc (flat_map g l)).
Proof.
  induction l as [|x l IH]; intros H acc; cbn [for_range flat_map].
  - now rewrite extend_nil.
  - rewrite (H x acc (or_introl eq_refl)). cbn [bind].
    rewrite IH by (intros y a Hy; apply H; now right).
    now rewrite extend_app.
Qed.

(** The loop [for i, tag := range ts { if !productive(tag) { continue };
    words = append(words, prefix+ws[i]); ... }] on the triples [T]. *)
Lemma keepProductive_loop (prefix : string) (Trest : list triple) :
  forall (Tdone : list triple) (acc : analyses),
    for_range
      (fun '(i, tag) '(words, norms, tags) =>
         if negb (productive tag) then Ok (words, norms, tags)
         else
           w <- at_index (map (fun t : triple => fst (fst t))
                            (Tdone ++ Trest)%list) i ;;
           n <- at_index (map (fun t : triple => snd (fst t))
                            (Tdone ++ Trest)%list) i ;;
           t <- at_index (map (fun t : triple => snd t)
                            (Tdone ++ Trest)%list) i ;;
           Ok (push words (prefix ++ w), push norms (prefix ++ n),
               push tags (t)))
      (combine (seq (List.length Tdone) (List.length Trest))
         (map (fun t : triple => snd t) Trest))
      acc
    = Ok (extend acc (map (prefixed prefix) (filter productiveTriple Trest))).
Proof.
  induction Trest as [|r Trest IH]; intros Tdone acc.
  - cbn. now rewrite extend_nil.
  - cbn [List.length seq map combine for_range].
    destruct acc as [[words norms] tags].
    specialize (IH (Tdone ++ [r])%list).
    rewrite <- app_assoc in IH. cbn [app] in IH.
    rewrite length_app in IH. cbn [List.length] in IH.
    replace (List.length Tdone + 1)%nat with (S (List.length Tdone)) in IH
      by lia.
    cbn [filter]. unfold productiveTriple at 1.
    destruct (productive (snd r)); cbn [negb].
    + rewrite !at_index_map_middle. cbn [bind]. rewrite IH.
      destruct r as [[rw rn] rt].
      unfold extend, push. cbn [map fst snd prefixed].
      now rewrite <- !app_assoc.
    + cbn [bind]. apply IH.
Qed.

Lemma keepProductive_spec (prefix : string) (ws ns ts : list string)
  (acc : analyses) :
  aligned (ws, ns, ts) ->
  keepProductive prefix ws ns ts acc
  = Ok (extend acc
          (map (prefixed prefix) (filter productiveTriple (zip3 ws ns ts)))).
Proof.
  intros A. destruct (zip3_projections A) as (W & N & T).
  unfold keepProductive, enumerate.
  rewrite <- (keepProductive_loop prefix (zip3 ws ns ts) [] acc).
  cbn [app List.length]. rewrite W, N, T.
  replace (List.length (zip3 ws ns ts)) with (List.length ts); [reflexivity|].
  rewrite <- T at 1. apply length_map.
Qed.

(** X12. The known-prefix strategy, as a list operation: for every known
    prefix in the order of the table (longest first) that the word starts
    with and that leaves at least three runes, it appends the analyses of
    the rest that have a productive tag, the prefix put back in front of
    the word and of the normal form. *)
Theorem KnownPrefixAnalyzer_spec (self : string -> result analyses)
  (word : string) (acc : analyses) :
  (forall s, good (self s)) ->
  KnownPrefixAnalyzer self word acc
  = Ok (extend acc (flat_map (knownPrefixAnalyses self word) knownPrefixes)).
Proof.
  intros G. unfold KnownPrefixAnalyzer. apply for_range_extend.
  intros p a _. unfold KnownPrefixAnalyzer_step, knownPrefixAnalyses.
  destruct (strings.HasPrefix word p); cbn [negb andb];
    [|now rewrite extend_nil].
  destruct (Nat.ltb_spec (utf8.RuneCountInString (strings.TrimPrefix word p)) 3)
    as [L|L].
  - destruct (Nat.leb_spec 3 (utf8.RuneCountInString (strings.TrimPrefix word p)));
      [lia|]. now rewrite extend_nil.
  - destruct (Nat.leb_spec 3 (utf8.RuneCountInString (strings.TrimPrefix word p)));
      [|lia].
    destruct (G (strings.TrimPrefix word p)) as ([[ws ns] ts] & E & A).
    rewrite E. cbn [bind triples]. now apply keepProductive_spec.
Qed.

Lemma KnownPrefixAnalyzer_spec_witness :
  KnownPrefixAnalyzer (XParse Demo.ToLower Demo.loaded) "псевдокошка"
    ([], [], [])
  = Ok (["псевдокошка"; "псевдокошка"], ["псевдокошка"; "псевдокошка"],
        ["NOUN,inan,femn sing,nomn"; "NOUN,anim,femn sing,nomn"]).
Proof.
  rewrite (@KnownPrefixAnalyzer_spec (XParse Demo.ToLower Demo.loaded)
             "псевдокошка" ([], [], [])).
  - vm_compute. reflexivity.
  - intros s. apply (@XParse_good Demo.ToLower Demo_ToLower_hyphen
                       Demo_ToLower_knownPrefix Demo.loaded Demo_loaded_wf).
Defined.

(** X13. The unknown-prefix strategy, as a list operation: for every
    split of the word into a prefix of one to five runes and a rest of at
    least three, in the order of growing prefix, it appends the
    dictionary analyses of the rest that have a productive tag, the
    prefix put back in front of the word and of the normal form. *)
Theorem UnknownPrefixAnalyzer_spec (st : globals) (word : string)
  (acc : analyses) :
  wf st ->
  UnknownPrefixAnalyzer st word acc
  = Ok (extend acc (flat_map (unknownPrefixAnalyses st) (wordSplits word 3 5))).
Proof.
  intros W. unfold UnknownPrefixAnalyzer. apply for_range_extend.
  intros split a Hs.
  pose proof (wordSplits_pairs word 3 5) as P. rewrite Forall_forall in P.
  destruct (P split Hs) as (x & y & ->).
  cbn [at_index nth_error bind]. unfold unknownPrefixAnalyses. cbn [nth].
  destruct (@Parse_good st y W) as ([[ws ns] ts] & E & A).
  rewrite E. cbn [bind triples]. now apply keepProductive_spec.
Qed.

Lemma UnknownPrefixAnalyzer_spec_witness :
  UnknownPrefixAnalyzer Demo.loaded "байткод" ([], [], [])
  = Ok (["байткод"], ["байткод"], ["NOUN,inan,masc sing,nomn"]).
Proof.
  rewrite (@UnknownPrefixAnalyzer_spec Demo.loaded "байткод" ([], [], [])
             Demo_loaded_wf).
  vm_compute. reflexivity.
Defined.

(** ** The suffix prediction appends no analysis twice *)

Lemma zip3_app (ws ns ts : list string) (new : list triple) :
  aligned (ws, ns, ts) ->
  analysesTriples (extend (ws, ns, ts) new) = (zip3 ws ns ts ++ new)%list.
Proof.
  unfold zip3, analysesTriples, extend, zip3. intros [Hn Ht].
  revert ns ts Hn Ht.
  induction ws as [|w ws IH]; intros [|n ns] [|t ts] Hn Ht;
    simpl in Hn, Ht; try discriminate.
  - cbn [app combine]. clear. induction new as [|[[w n] t] new IH];
      [reflexivity|]. cbn [map combine fst snd]. now rewrite IH.
  - cbn [app combine]. rewrite (IH ns ts) by lia. reflexivity.
Qed.

Lemma In_zip3 (w n t : string) (ws ns ts : list string) :
  In (w, n, t) (zip3 ws ns ts) ->
  exists i, nth_error ws i = Some w /\ nth_error ns i = Some n
            /\ nth_error ts i = Some t.
Proof.
  unfold zip3. revert ns ts.
  induction ws as [|w0 ws IH]; intros [|n0 ns] [|t0 ts] H;
    cbn [combine] in H; try contradiction.
  destruct H as [H|H].
  - injection H as -> -> ->. now exists 0%nat.
  - apply IH in H as (i & H). now exists (S i).
Qed.

Lemma nth_error_enumerate {A : Type} (l : list A) (i : nat) (x : A) :
  nth_error l i = Some x -> In (i, x) (enumerate l).
Proof.
  unfold enumerate.
  assert (G : forall k, nth_error l i = Some x ->
                        In ((k + i)%nat, x) (combine (seq k (List.length l)) l)).
  { revert i. induction l as [|y l IH]; intros [|i] k H; cbn in H;
      try discriminate; cbn [List.length seq combine].
    - injection H as ->. left. now rewrite Nat.add_0_r.
    - right. replace (k + S i)%nat with (S k + i)%nat by lia. now apply IH. }
  intros H. exact (G 0%nat H).
Qed.

Lemma collected_false (tag word norm : string) (words norms : list string)
  (indexed : list (nat * string)) :
  collected tag word norm words norms indexed = Ok false ->
  forall i, In (i, tag) indexed ->
            nth_error words i = Some word -> nth_error norms i = Some norm ->
            False.
Proof.
  induction indexed as [|[j t] indexed IH]; cbn [collected]; intros H i Hin Hw Hn.
  - contradiction.
  - destruct Hin as [Hin|Hin].
    + injection Hin as -> ->. rewrite String.eqb_refl in H.
      unfold at_index in H. rewrite Hw in H. cbn [bind] in H.
      rewrite String.eqb_refl in H. rewrite Hn in H. cbn [bind] in H.
      rewrite String.eqb_refl in H. discriminate.
    + destruct (t =? tag); [|now apply (IH H i)].
      apply bind_Ok_inv in H as (w & _ & H).
      destruct (w =? word); [|now apply (IH H i)].
      apply bind_Ok_inv in H as (n & _ & H).
      destruct (n =? norm); [discriminate|now apply (IH H i)].
Qed.

Lemma appends_new_refl (acc : analyses) : appends_new acc acc.
Proof.
  exists []. rewrite extend_nil. split; [reflexivity|].
  split; constructor.
Qed.

Lemma appends_new_push (acc : analyses) (words norms tags : list string)
  (w n t : string) :
  aligned acc -> aligned (words, norms, tags) ->
  appends_new acc (words, norms, tags) ->
  ~ In (w, n, t) (zip3 words norms tags) ->
  appends_new acc (push words w, push norms n, push tags t).
Proof.
  intros A A1 (new & E & ND & F) Hnew.
  exists (new ++ [(w, n, t)])%list.
  assert (Z : zip3 words norms tags = (analysesTriples acc ++ new)%list).
  { change (zip3 words norms tags) with (analysesTriples (words, norms, tags)).
    rewrite E. destruct acc as [[ws ns] ts]. now apply zip3_app. }
  rewrite Z in Hnew. split; [|split].
  - rewrite <- extend_app, <- E. reflexivity.
  - apply NoDup_app; [exact ND|repeat constructor; auto|].
    intros x Hx [<-|[]]. apply Hnew, in_or_app. now right.
  - apply Forall_app. split; [exact F|]. constructor; [|constructor].
    intros Hin. apply Hnew, in_or_app. now left.
Qed.

Section NoDuplicates.

Variable st : globals.
Variable acc0 : analyses.
Hypothesis acc0_aligned : aligned acc0.

Lemma predict_values_new (wordStart k : string) (vs : list (list byte)) :
  forall acc acc' : analyses * Z,
    aligned (fst acc) -> appends_new acc0 (fst acc) ->
    predict_values st wordStart k vs acc = Ok acc' ->
    aligned (fst acc') /\ appends_new acc0 (fst acc').
Proof.
  induction vs as [|v vs IH]; intros [[[words norms] tags] total] acc' Hacc N H;
    cbn [predict_values] in H.
  - now inversion H; subst.
  - bind_inv H. bind_inv H. bind_inv H. bind_inv H. bind_inv H. bind_inv H.
    apply bind_Ok_inv in H as ([[pr su] t] & _ & H).
    destruct (negb (productive t)); [eapply IH; eauto|].
    apply bind_Ok_inv in H as (norm & _ & H).
    apply bind_Ok_inv in H as (dup & Hdup & H).
    destruct dup.
    + now inversion H; subst.
    + eapply IH; [| |exact H]; cbn [fst] in *.
      * destruct Hacc as [Hn Ht]. unfold aligned. rewrite !length_push. lia.
      * apply appends_new_push; auto.
        intros Hin. apply In_zip3 in Hin as (i & Hw & Hn & Ht).
        apply (@collected_false _ _ _ _ _ _ Hdup i); auto.
        now apply nth_error_enumerate.
Qed.

Lemma predict_splits_new (d : option dawg) (visited : list (string * string)) :
  forall (acc : analyses) (total : Z) (acc' : analyses),
    aligned acc -> appends_new acc0 acc ->
    predict_splits st d visited acc total = Ok acc' ->
    aligned acc' /\ appends_new acc0 acc'.
Proof.
  induction visited as [|[wordStart wordEnd] visited IH];
    intros acc total acc' Hacc N H; cbn [predict_splits] in H.
  - now inversion H; subst.
  - bind_inv H. apply bind_Ok_inv in H as ([acc1 total1] & H1 & H).
    assert (G : aligned (fst (acc1, total1))
                /\ appends_new acc0 (fst (acc1, total1))).
    { revert H1.
      apply for_range_preserves
        with (P := fun s : analyses * Z =>
                     aligned (fst s) /\ appends_new acc0 (fst s)); auto.
      intros it s s' _ [Hs Ns]. now apply predict_values_new. }
    cbn [fst] in G. destruct G as [G1 G2].
    destruct (1 <? total1)%Z; [now inversion H; subst|].
    eapply IH; eauto.
Qed.

End NoDuplicates.

(** X14. The suffix prediction appends no analysis twice: what
    [KnownSuffixAnalyzer] returns is its input followed by new triples
    (word, normal form, tag) that are pairwise different and none of
    which was in the input. *)
Theorem KnownSuffixAnalyzer_appends_new (st : globals) (word : string)
  (acc acc' : analyses) :
  aligned acc ->
  KnownSuffixAnalyzer st word acc = Ok acc' ->
  appends_new acc acc'.
Proof.
  intros A H.
  assert (G : aligned acc' /\ appends_new acc acc'); [|exact (proj2 G)].
  revert H. unfold KnownSuffixAnalyzer.
  apply for_range_preserves
    with (P := fun s : analyses => aligned s /\ appends_new acc s).
  - intros [id prefix] a a' _ [Ha Na] H.
    destruct (negb _); [now inversion H; subst|].
    bind_inv H. eapply predict_splits_new; eauto.
  - split; [exact A|apply appends_new_refl].
Qed.

Lemma KnownSuffixAnalyzer_appends_new_witness :
  appends_new ([], [], [])
    (["бутявкать"], ["бутявкать"], ["INFN,impf,intr"]).
Proof.
  apply (@KnownSuffixAnalyzer_appends_new Demo.loaded "бутявкать"
           ([], [], []) (["бутявкать"], ["бутявкать"], ["INFN,impf,intr"])).
  - split; reflexivity.
  - vm_compute. reflexivity.
Defined.

(** ** The data directory *)

Lemma IndexByte_newline (c : ascii) :
  (0 <=? strings.IndexByte (String "013" (String "010" "")) c)%Z = is_newline c.
Proof.
  unfold is_newline. cbn [strings.IndexByte].
  rewrite (Ascii.eqb_sym "013" c), (Ascii.eqb_sym "010" c).
  destruct (Ascii.eqb c "013"), (Ascii.eqb c "010"); reflexivity.
Qed.

(** [TrimRight] cuts off a tail made of bytes of the cutset and leaves a
    string that does not end with one. *)
Lemma TrimRight_spec (cutset s : string) :
  exists tail,
    s = strings.TrimRight s cutset ++ tail
    /\ Forall (fun c => (0 <=? strings.IndexByte cutset c)%Z = true)
         (list_ascii_of_string tail)
    /\ forall t c, strings.TrimRight s cutset = t ++ String c "" ->
                   (0 <=? strings.IndexByte cutset c)%Z = false.
Proof.
  induction s as [|c s (tail & E & F & L)]; cbn [strings.TrimRight].
  - exists "". split; [reflexivity|]. split; [constructor|].
    intros [|x t] c H; discriminate H.
  - destruct (strings.TrimRight s cutset) as [|c' T] eqn:ET.
    + cbn [append] in E. subst tail.
      destruct (0 <=? strings.IndexByte cutset c)%Z eqn:C.
      * exists (String c s). split; [reflexivity|].
        split; [cbn [list_ascii_of_string]; now constructor|].
        intros [|x t] y H; discriminate H.
      * exists s. split; [reflexivity|]. split; [exact F|].
        intros [|x t] y H; cbn [append] in H.
        -- now injection H as <-.
        -- injection H as _ H. destruct t; discriminate H.
    + exists tail. split; [cbn [append]; f_equal; exact E|]. split; [exact F|].
      intros [|x t] y H; cbn [append] in H; [discriminate H|].
      injection H as _ H. now apply (L t y).
Qed.

(** X15. [dataPath] and [Init]: when the interpreter fails, [Init] returns
    its error and leaves the package variables as they are; when it
    prints [out], the data directory is [data] under [out] without its
    trailing carriage returns and line feeds (all of them, and nothing
    else), and [Init] is [InitWith] on that directory. *)
Theorem Init_dataPath (env : environment) (g : globals) :
  probDAWG g = None ->
  match python_Run env with
  | inl fe => Init env g = (g, Some (Foreign fe))
  | inr out =>
      exists dir tail,
        out = dir ++ tail
        /\ Forall (fun c => is_newline c = true) (list_ascii_of_string tail)
        /\ (forall t c, dir = t ++ String c "" -> is_newline c = false)
        /\ dataPath env = (filepath_Join env dir "data", None)
        /\ Init env g = InitWith env (filepath_Join env dir "data") g
  end.
Proof.
  intros Hp. unfold Init, dataPath. rewrite Hp.
  destruct (python_Run env) as [fe|out]; [reflexivity|].
  destruct (TrimRight_spec (String "013" (String "010" "")) out)
    as (tail & E & F & L).
  exists (strings.TrimRight out (String "013" (String "010" ""))), tail.
  split; [exact E|]. split.
  - eapply Forall_impl; [|exact F]. intros c Hc. cbn beta in Hc.
    now rewrite IndexByte_newline in Hc.
  - split; [|split; reflexivity].
    intros t c H. rewrite <- IndexByte_newline. now apply (L t c).
Qed.

Lemma Init_dataPath_witness :
  exists dir tail,
    "/usr/lib/python3/pymorphy2_dicts_ru" ++ String "010" "" = dir ++ tail
    /\ Forall (fun c => is_newline c = true) (list_ascii_of_string tail)
    /\ (forall t c, dir = t ++ String c "" -> is_newline c = false)
    /\ dataPath Files.complete = (filepath_Join Files.complete dir "data", None)
    /\ Init Files.complete zero_globals
       = InitWith Files.complete (filepath_Join Files.complete dir "data")
           zero_globals.
Proof.
  exact (@Init_dataPath Files.complete zero_globals eq_refl).
Defined.

(** ** A failure in the loop over the prediction automata *)

(** X16. When a failed [InitWith] leaves the probability automaton
    non-nil, it has failed in the loop over the prediction automata:
    every other resource is loaded, the error is that of a prediction
    file, and the package counts as initialized from then on: every
    later [InitWith] and [Init] returns [ErrAlreadyInitialized]. *)
Theorem InitWith_fails_initialized (env : environment) (dir : string)
  (g g' : globals) (e : error) :
  InitWith env dir g = (g', Some e) ->
  probDAWG g = None ->
  probDAWG g' <> None ->
  fails env dir LoadPredictions g' e
  /\ (forall s, (step_index s < step_index LoadPredictions)%nat ->
                assigned env dir s g')
  /\ (forall env' dir', InitWith env' dir' g' = (g', Some ErrAlreadyInitialized))
  /\ (forall env', Init env' g' = (g', Some ErrAlreadyInitialized)).
Proof.
  unfold InitWith at 1. intros H Hp Hg'. rewrite Hp in H. cbv zeta in H.
  destruct (loadStringArray env
              (filepath_Join env dir "gramtab-opencorpora-int.json"))
    as [v1 [e1|]] eqn:E1.
  { injection H as <- _. now cbn in Hg'. }
  destruct (loadStringArray env (filepath_Join env dir "paradigm-prefixes.json"))
    as [v2 e2] eqn:E2.
  set (g2 := match e2 with
             | Some e => if negb (os_IsNotExist e) then inl e
                         else inr (set_prefixes defaultPrefixes
                                     (set_prefixes v2 (set_tags v1 g)))
             | None => inr (set_prefixes v2 (set_tags v1 g))
             end) in H.
  assert (G2 : match g2 with
               | inl _ => True
               | inr g2 => tags g2 = v1 /\ probDAWG g2 = None
                           /\ assigned env dir LoadPrefixes g2
               end).
  { subst g2. destruct e2 as [e2|].
    - destruct (os_IsNotExist e2) eqn:N; cbn [negb]; [|exact I].
      split; [reflexivity|]. split; [exact Hp|].
      right. exists v2, e2. now repeat split.
    - split; [reflexivity|]. split; [exact Hp|]. left. exact E2. }
  destruct g2 as [e0|g2].
  { injection H as <- _. now cbn in Hg'. }
  destruct G2 as (T2 & N2 & P2). cbn [assigned] in P2.
  destruct (loadStringArray env (filepath_Join env dir "suffixes.json"))
    as [v3 [e3|]] eqn:E3.
  { injection H as <- _. now cbn in Hg'. }
  destruct (loadParadigms env (filepath_Join env dir "paradigms.array")
              (set_suffixes v3 g2)) as [g4 [e4|]] eqn:E4.
  { injection H as <- _.
    destruct (loadParadigms_fields _ _ _ E4) as [(_ & _ & _ & _ & F & _) _].
    cbn in F. congruence. }
  destruct (loadParadigms_fields _ _ _ E4) as [(P1 & S1 & T1 & _ & F & _) _].
  cbn in P1, S1, T1, F.
  destruct (newDAWG env (filepath_Join env dir "words.dawg")) as [fe|wd] eqn:Ew.
  { injection H as <- _. cbn in Hg'. congruence. }
  destruct (newDAWG env (filepath_Join env dir "p_t_given_w.intdawg"))
    as [fe|pd] eqn:Ep.
  { injection H as <- _. now cbn in Hg'. }
  destruct (loadPredictions_fields _ _ _ _ H)
    as [(Q1 & Q2 & Q3 & Q4 & Q5 & Q6) _].
  cbn in Q1, Q2, Q3, Q4, Q5, Q6.
  apply loadPredictions_error in H as (i & fe & Hi & Hn & He).
  apply in_seq in Hi. cbn in Hi.
  split; [exists i, fe; split; [rewrite Q1; lia|split; assumption]|].
  split; [|split].
  - intros s Hs; destruct s; cbn [step_index] in Hs; try lia; cbn [assigned].
    + rewrite Q3, T1, T2. exact E1.
    + rewrite Q1, P1. exact P2.
    + rewrite Q2, S1. exact E3.
    + exists (set_suffixes v3 g2), g4. split; [exact E4|exact Q4].
    + exists wd. split; [exact Ew|exact Q5].
    + exists pd. split; [exact Ep|exact Q6].
  - intros env' dir'. unfold InitWith. now rewrite Q6.
  - intros env'. unfold Init. now rewrite Q6.
Qed.

Lemma InitWith_fails_initialized_witness :
  let g' := fst (InitWith without_prediction_1 "data" zero_globals) in
  InitWith without_prediction_1 "data" zero_globals
  = (g', Some (Foreign Files.missing))
  /\ List.length (predictionDAWGs g') = 1%nat
  /\ List.length (prefixes g') = 3%nat
  /\ InitWith Files.complete "data" g' = (g', Some ErrAlreadyInitialized).
Proof.
  intros g'.
  destruct (@InitWith_fails_initialized without_prediction_1 "data"
              zero_globals g' (Foreign Files.missing))
    as (_ & _ & H & _).
  - reflexivity.
  - reflexivity.
  - discriminate.
  - split; [reflexivity|]. split; [reflexivity|]. split; [reflexivity|].
    apply H.
Defined.
